(** * FactomCode: credit-block codec, federate roster, leader machine, REST admin

    A shallow embedding of
      - [common/cchain.go]  (package [common]: the entry-credit block codec),
      - the peer manager and leader machine of package [server],
      - the RESTful admin handler (package [main]),
    together with the properties of the specification checked against it.

    Conventions.
      - A [uintN] is a [Z] in [0, 2^N); arithmetic wraps explicitly.
      - A [[]byte] is a [list Byte.byte]; an out-of-range index or slice
        bound is a run-time panic, modelled by [None] (or [Panic]).
      - A Go pointer to a peer is a location in a heap of peer records, so
        that a role written through one pointer is seen through every alias.
      - Calls into collaborators outside the sources ([Hash], [sort.Sort],
        [net.SplitHostPort], the signing key, the JSON and XML codecs) are
        parameters, gathered in a record per package; what is assumed of
        them is a hypothesis of the theorem that needs it. *)

From Stdlib Require Import ZArith List Lia Bool Sorting.Permutation.
From Stdlib Require Import Strings.Byte.
From Stdlib Require Import Sorting.Sorted.
From stdpp Require Import base option list gmap strings pretty.

Local Open Scope Z_scope.

(* ===================================================================== *)
(** * Machine integers and byte strings *)
(* ===================================================================== *)

Module Mach.

Definition byte : Type := Byte.byte.

Definition byte_to_Z (b : byte) : Z := Z.of_N (Byte.to_N b).

(** [byte(v)]: the conversion keeps the low eight bits. *)
Definition byte_of_Z (z : Z) : byte :=
  match Byte.of_N (Z.to_N (z mod 256)) with
  | Some b => b
  | None => Byte.x00
  end.

Definition wrap (w : Z) (z : Z) : Z := z mod 2 ^ w.
Definition add32 (a b : Z) : Z := wrap 32 (a + b).
Definition sub32 (a b : Z) : Z := wrap 32 (a - b).
Definition add64 (a b : Z) : Z := wrap 64 (a + b).

Definition is_uint (w : Z) (z : Z) : Prop := 0 <= z < 2 ^ w.
Definition is_int (w : Z) (z : Z) : Prop := - 2 ^ (w - 1) <= z < 2 ^ (w - 1).

(** Reinterpretation of an unsigned [w]-bit pattern as two's complement. *)
Definition to_signed (w : Z) (u : Z) : Z :=
  if u <? 2 ^ (w - 1) then u else u - 2 ^ w.

(** [binary.BigEndian]: [n] bytes, most significant first. *)
Fixpoint be_encode (n : nat) (z : Z) : list byte :=
  match n with
  | O => []
  | S k => byte_of_Z (z / 256 ^ Z.of_nat k) :: be_encode k z
  end.

Fixpoint be_decode (l : list byte) : Z :=
  match l with
  | [] => 0
  | b :: r => byte_to_Z b * 256 ^ Z.of_nat (length r) + be_decode r
  end.

Definition len (data : list byte) : Z := Z.of_nat (length data).

(** [data[n:]]: panics when [n] exceeds the length. *)
Definition slice_from (n : Z) (data : list byte) : option (list byte) :=
  if (0 <=? n) && (n <=? len data) then Some (drop (Z.to_nat n) data) else None.

(** [data[:n]]: the upper bound is checked against the length (the model
    gives every slice a capacity equal to its length). *)
Definition slice_to (n : Z) (data : list byte) : option (list byte) :=
  if (0 <=? n) && (n <=? len data) then Some (take (Z.to_nat n) data) else None.

(** [data[0]]. *)
Definition first_byte (data : list byte) : option byte := head data.

(** [binary.BigEndian.Uint32(data[0:4]), data[4:]] and the 64-bit twin. *)
Definition read_uint (n : nat) (data : list byte) : option (Z * list byte) :=
  hd ← slice_to (Z.of_nat n) data;
  tl ← slice_from (Z.of_nat n) data;
  Some (be_decode hd, tl).

(* ------------------------------------------------------------------- *)

Lemma byte_to_of_Z z : byte_to_Z (byte_of_Z z) = z mod 256.
Proof.
  unfold byte_to_Z, byte_of_Z.
  assert (Hr : 0 <= z mod 256 < 256) by (apply Z.mod_pos_bound; lia).
  destruct (Byte.of_N (Z.to_N (z mod 256))) as [b|] eqn:E.
  - apply Byte.to_of_N in E. rewrite E. lia.
  - apply Byte.of_N_None_iff in E. lia.
Qed.

Lemma byte_of_to_Z b : byte_of_Z (byte_to_Z b) = b.
Proof.
  unfold byte_to_Z, byte_of_Z.
  pose proof (Byte.to_N_bounded b) as Hb.
  rewrite Z.mod_small by lia.
  rewrite N2Z.id. now rewrite Byte.of_to_N.
Qed.

Lemma be_encode_length n z : length (be_encode n z) = n.
Proof. induction n; simpl; congruence. Qed.

Lemma be_decode_encode n z : be_decode (be_encode n z) = z mod 256 ^ Z.of_nat n.
Proof.
  induction n as [|k IH].
  - simpl. now rewrite Z.mod_1_r.
  - cbn [be_encode be_decode]. rewrite be_encode_length, IH, byte_to_of_Z.
    rewrite Nat2Z.inj_succ, Z.pow_succ_r by lia.
    rewrite (Z.mul_comm 256), Z.rem_mul_r by lia. lia.
Qed.

Lemma be_roundtrip_uint n z :
  0 <= z < 256 ^ Z.of_nat n -> be_decode (be_encode n z) = z.
Proof. intros H. rewrite be_decode_encode. now apply Z.mod_small. Qed.

Lemma to_signed_wrap w z :
  0 < w -> is_int w z -> to_signed w (wrap w z) = z.
Proof.
  unfold is_int, to_signed, wrap. intros Hw [Hlo Hhi].
  assert (E : 2 ^ w = 2 * 2 ^ (w - 1)).
  { replace w with (Z.succ (w - 1)) at 1 by lia. apply Z.pow_succ_r. lia. }
  assert (0 < 2 ^ (w - 1)) by (apply Z.pow_pos_nonneg; lia).
  destruct (Z.ltb_spec z 0) as [Hneg|Hpos].
  - replace (z mod 2 ^ w) with (z + 2 ^ w).
    + destruct (Z.ltb_spec (z + 2 ^ w) (2 ^ (w - 1))); lia.
    + apply (Z.mod_unique_pos z (2 ^ w) (-1)); lia.
  - rewrite Z.mod_small by lia.
    destruct (Z.ltb_spec z (2 ^ (w - 1))); lia.
Qed.

Lemma slice_to_app (a b : list byte) :
  slice_to (len a) (a ++ b) = Some a.
Proof.
  unfold slice_to, len. rewrite length_app, Nat2Z.id.
  replace ((0 <=? _) && _) with true.
  - now rewrite take_app_length.
  - symmetry. apply andb_true_iff. split; apply Z.leb_le; lia.
Qed.

Lemma slice_from_app (a b : list byte) :
  slice_from (len a) (a ++ b) = Some b.
Proof.
  unfold slice_from, len. rewrite length_app, Nat2Z.id.
  replace ((0 <=? _) && _) with true.
  - now rewrite drop_app_length.
  - symmetry. apply andb_true_iff. split; apply Z.leb_le; lia.
Qed.

Lemma read_uint_app (e rest : list byte) :
  read_uint (length e) (e ++ rest) = Some (be_decode e, rest).
Proof.
  unfold read_uint. change (Z.of_nat (length e)) with (len e).
  now rewrite slice_to_app, slice_from_app.
Qed.

Lemma read_uint_encode n z rest :
  0 <= z < 256 ^ Z.of_nat n ->
  read_uint n (be_encode n z ++ rest) = Some (z, rest).
Proof.
  intros H.
  pose proof (read_uint_app (be_encode n z) rest) as R.
  now rewrite be_encode_length, be_roundtrip_uint in R.
Qed.

End Mach.

(* ===================================================================== *)
(** * Package [common]: the entry-credit block codec ([cchain.go]) *)
(* ===================================================================== *)

Module Common.
Import Mach.

(** What a call can come to: a value, a returned [error], or a panic. *)
Inductive outcome (A : Type) : Type :=
| Ok (a : A)
| Err
| Panic.
Arguments Ok {A} a.
Arguments Err {A}.
Arguments Panic {A}.

(** [const ( TYPE_SERVER_INDEX uint8 = iota; ... )]. *)
Definition TYPE_SERVER_INDEX : byte := Byte.x00.
Definition TYPE_MINUTE_NUMBER : byte := Byte.x01.
Definition TYPE_PAY_CHAIN : byte := Byte.x02.
Definition TYPE_PAY_ENTRY : byte := Byte.x03.
Definition TYPE_BUY : byte := Byte.x04.

Section Codec.

(** [Hash] and its three codec methods live in [common/hash.go], which
    is not part of the sources at hand: they are parameters here.
    [Hash_MarshalBinary] gives the bytes and whether the error result
    is non-nil; [Hash_UnmarshalBinary] gives the hash the receiver
    holds afterwards, [None] when the call panics. *)
Variable Hash : Type.
Variable Hash_MarshalBinary : Hash -> list byte * bool.
Variable Hash_MarshalledSize : Hash -> Z.
Variable Hash_UnmarshalBinary : list byte -> option Hash.

Record CBlockHeader : Type := mkCBlockHeader {
  ChainID : Hash;
  BodyHash : Hash;
  PrevKeyMR : Hash;
  PrevHash : Hash;
  DBHeight : Z;          (* uint32 *)
  SegmentsMR : Hash;
  BalanceMR : Hash;
  BodySize : Z           (* uint64 *)
}.

(** The three entry structs. Each also embeds a [CBEntry] interface
    value that no constructor and no codec method ever assigns; it
    stays nil and is left out of the records. *)
Record BuyCBEntry : Type := mkBuyCBEntry {
  buy_entryType : byte;
  buy_publicKey : Hash;
  buy_credits : Z;       (* int32 *)
  FactomTxHash : Hash
}.

Record PayEntryCBEntry : Type := mkPayEntryCBEntry {
  pe_entryType : byte;
  pe_publicKey : Hash;
  pe_credits : Z;        (* int32 *)
  pe_EntryHash : Hash;
  pe_TimeStamp : Z;      (* int64 *)
  pe_Sig : list byte
}.

Record PayChainCBEntry : Type := mkPayChainCBEntry {
  pc_entryType : byte;
  pc_publicKey : Hash;
  pc_credits : Z;        (* int32 *)
  pc_EntryHash : Hash;
  pc_ChainIDHash : Hash;
  pc_EntryChainIDHash : Hash;
  pc_Sig : list byte
}.

(** The [CBEntry] interface over its three implementations. *)
Inductive CBEntry : Type :=
| Buy (e : BuyCBEntry)
| PayEntry (e : PayEntryCBEntry)
| PayChain (e : PayChainCBEntry).

Record CBInfo : Type := mkCBInfo {
  CBHash : Hash;
  FBHash : Hash;
  FBBlockNum : Z;        (* uint64 *)
  cbi_ChainID : Hash
}.

(** The marshalled part of a [CBlock]. *)
Record CBlock : Type := mkCBlock {
  Header : CBlockHeader;
  CBEntries : list CBEntry
}.

(** [data, err = h.MarshalBinary(); if err != nil { <on_err> };
    buf.Write(data)]. *)
Definition write_hash (h : Hash) (buf : list byte)
    (on_err : list byte -> list byte * bool)
    (k : list byte -> list byte * bool) : list byte * bool :=
  let '(d, e) := Hash_MarshalBinary h in
  if e then on_err d else k (buf ++ d).

(** [data, _ = h.MarshalBinary(); buf.Write(data)]. *)
Definition write_hash_unchecked (h : Hash) (buf : list byte) : list byte :=
  buf ++ fst (Hash_MarshalBinary h).

(** [x = new(Hash); x.UnmarshalBinary(data);
    data = data[x.MarshalledSize():]]. *)
Definition read_hash (data : list byte) : option (Hash * list byte) :=
  h ← Hash_UnmarshalBinary data;
  rest ← slice_from (Hash_MarshalledSize h) data;
  Some (h, rest).

(* ----- CBlockHeader ---------------------------------------------- *)

Definition CBlockHeader_MarshalBinary (b : CBlockHeader) : list byte * bool :=
  let fail (_ : list byte) := ([], true) in
  write_hash (ChainID b) [] fail (fun buf =>
  write_hash (BodyHash b) buf fail (fun buf =>
  write_hash (PrevKeyMR b) buf fail (fun buf =>
  write_hash (PrevHash b) buf fail (fun buf =>
  let buf := buf ++ be_encode 4 (DBHeight b) in
  write_hash (SegmentsMR b) buf fail (fun buf =>
  write_hash (BalanceMR b) buf fail (fun buf =>
  let buf := buf ++ be_encode 8 (BodySize b) in
  (buf, false))))))).

Definition CBlockHeader_MarshalledSize (b : CBlockHeader) : Z :=
  wrap 64 (Hash_MarshalledSize (ChainID b) + Hash_MarshalledSize (BodyHash b)
           + Hash_MarshalledSize (PrevKeyMR b) + Hash_MarshalledSize (PrevHash b)
           + 4
           + Hash_MarshalledSize (SegmentsMR b) + Hash_MarshalledSize (BalanceMR b)
           + 8).

Definition CBlockHeader_UnmarshalBinary (data : list byte) : option CBlockHeader :=
  '(chainID, data) ← read_hash data;
  '(bodyHash, data) ← read_hash data;
  '(prevKeyMR, data) ← read_hash data;
  '(prevHash, data) ← read_hash data;
  '(dbHeight, data) ← read_uint 4 data;
  '(segmentsMR, data) ← read_hash data;
  '(balanceMR, data) ← read_hash data;
  '(bodySize, data) ← read_uint 8 data;
  Some (mkCBlockHeader chainID bodyHash prevKeyMR prevHash dbHeight
                       segmentsMR balanceMR bodySize).

(* ----- BuyCBEntry ------------------------------------------------- *)

Definition BuyCBEntry_MarshalBinary (e : BuyCBEntry) : list byte * bool :=
  let fail (d : list byte) := (d, true) in
  let buf := [buy_entryType e] in
  write_hash (buy_publicKey e) buf fail (fun buf =>
  let buf := buf ++ be_encode 4 (buy_credits e) in
  write_hash (FactomTxHash e) buf fail (fun buf =>
  (buf, false))).

Definition BuyCBEntry_MarshalledSize (e : BuyCBEntry) : Z :=
  wrap 64 (1 + Hash_MarshalledSize (buy_publicKey e) + 4
           + Hash_MarshalledSize (FactomTxHash e)).

Definition BuyCBEntry_UnmarshalBinary (data : list byte) : option BuyCBEntry :=
  entryType ← first_byte data;
  data ← slice_from 1 data;
  '(publicKey, data) ← read_hash data;
  '(credits, data) ← read_uint 4 data;
  factomTxHash ← Hash_UnmarshalBinary data;
  Some (mkBuyCBEntry entryType publicKey (to_signed 32 credits) factomTxHash).

(* ----- PayEntryCBEntry -------------------------------------------- *)

Definition PayEntryCBEntry_MarshalBinary (e : PayEntryCBEntry) : list byte * bool :=
  let fail (d : list byte) := (d, true) in
  let buf := [pe_entryType e] in
  write_hash (pe_publicKey e) buf fail (fun buf =>
  let buf := buf ++ be_encode 4 (pe_credits e) in
  write_hash (pe_EntryHash e) buf fail (fun buf =>
  let buf := buf ++ be_encode 8 (pe_TimeStamp e) in
  let count := len (pe_Sig e) in
  let buf := buf ++ be_encode 4 (wrap 32 count) in
  let buf := buf ++ pe_Sig e in
  (buf, false))).

Definition PayEntryCBEntry_MarshalledSize (e : PayEntryCBEntry) : Z :=
  wrap 64 (1 + Hash_MarshalledSize (pe_publicKey e) + 4
           + Hash_MarshalledSize (pe_EntryHash e) + 8 + 4 + len (pe_Sig e)).

Definition PayEntryCBEntry_UnmarshalBinary (data : list byte) : option PayEntryCBEntry :=
  entryType ← first_byte data;
  data ← slice_from 1 data;
  '(publicKey, data) ← read_hash data;
  '(credits, data) ← read_uint 4 data;
  '(entryHash, data) ← read_hash data;
  '(timeStamp, data) ← read_uint 8 data;
  '(length, data) ← read_uint 4 data;
  sig ← slice_to length data;
  Some (mkPayEntryCBEntry entryType publicKey (to_signed 32 credits) entryHash
                          (to_signed 64 timeStamp) sig).

(* ----- PayChainCBEntry -------------------------------------------- *)

Definition PayChainCBEntry_MarshalBinary (e : PayChainCBEntry) : list byte * bool :=
  let fail (d : list byte) := (d, true) in
  let buf := [pc_entryType e] in
  write_hash (pc_publicKey e) buf fail (fun buf =>
  let buf := buf ++ be_encode 4 (pc_credits e) in
  write_hash (pc_EntryHash e) buf fail (fun buf =>
  write_hash (pc_ChainIDHash e) buf fail (fun buf =>
  write_hash (pc_EntryChainIDHash e) buf fail (fun buf =>
  let count := len (pc_Sig e) in
  let buf := buf ++ be_encode 4 (wrap 32 count) in
  let buf := buf ++ pc_Sig e in
  (buf, false))))).

Definition PayChainCBEntry_MarshalledSize (e : PayChainCBEntry) : Z :=
  wrap 64 (1 + Hash_MarshalledSize (pc_publicKey e) + 4
           + Hash_MarshalledSize (pc_EntryHash e)
           + Hash_MarshalledSize (pc_ChainIDHash e)
           + Hash_MarshalledSize (pc_EntryChainIDHash e) + 4 + len (pc_Sig e)).

Definition PayChainCBEntry_UnmarshalBinary (data : list byte) : option PayChainCBEntry :=
  entryType ← first_byte data;
  data ← slice_from 1 data;
  '(publicKey, data) ← read_hash data;
  '(credits, data) ← read_uint 4 data;
  '(entryHash, data) ← read_hash data;
  '(chainIDHash, data) ← read_hash data;
  '(entryChainIDHash, data) ← read_hash data;
  '(length, data) ← read_uint 4 data;
  sig ← slice_to length data;
  Some (mkPayChainCBEntry entryType publicKey (to_signed 32 credits) entryHash
                          chainIDHash entryChainIDHash sig).

(* ----- CBInfo ------------------------------------------------------ *)

Definition CBInfo_MarshalBinary (b : CBInfo) : list byte * bool :=
  let buf := write_hash_unchecked (CBHash b) [] in
  let buf := write_hash_unchecked (FBHash b) buf in
  let buf := buf ++ be_encode 8 (FBBlockNum b) in
  let buf := write_hash_unchecked (cbi_ChainID b) buf in
  (buf, false).

Definition CBInfo_MarshalledSize (b : CBInfo) : Z := 33 + 33 + 8 + 33.

Definition CBInfo_UnmarshalBinary (data : list byte) : option CBInfo :=
  d ← slice_to 33 data;
  cbHash ← Hash_UnmarshalBinary d;
  data ← slice_from 33 data;
  d ← slice_to 33 data;
  fbHash ← Hash_UnmarshalBinary d;
  data ← slice_from 33 data;
  '(fbBlockNum, data) ← read_uint 8 data;
  d ← slice_to 33 data;
  chainID ← Hash_UnmarshalBinary d;
  Some (mkCBInfo cbHash fbHash fbBlockNum chainID).

(* ----- CBlock ------------------------------------------------------ *)

(** Dispatch through the [CBEntry] interface. *)
Definition CBEntry_MarshalledSize (e : CBEntry) : Z :=
  match e with
  | Buy e => BuyCBEntry_MarshalledSize e
  | PayEntry e => PayEntryCBEntry_MarshalledSize e
  | PayChain e => PayChainCBEntry_MarshalledSize e
  end.

(** The dynamic type put into slot [i] of [b.CBEntries]; the slot keeps
    the nil interface when no branch of the [if] chain fires. *)
Inductive entry_kind : Type := KBuy | KPayChain | KPayEntry.

Definition new_entry (t : byte) : option entry_kind :=
  if Byte.eqb t TYPE_BUY then Some KBuy
  else if Byte.eqb t TYPE_PAY_CHAIN then Some KPayChain
  else if Byte.eqb t TYPE_PAY_ENTRY then Some KPayEntry
  else None.

(** [b.CBEntries[i].UnmarshalBinary(data)]: a method call on the nil
    interface panics. The three methods only ever return a nil error. *)
Definition slot_UnmarshalBinary (slot : option entry_kind) (data : list byte)
    : option CBEntry :=
  match slot with
  | None => None
  | Some KBuy => Buy <$> BuyCBEntry_UnmarshalBinary data
  | Some KPayChain => PayChain <$> PayChainCBEntry_UnmarshalBinary data
  | Some KPayEntry => PayEntry <$> PayEntryCBEntry_UnmarshalBinary data
  end.

(** The body of [for i := uint64(0); i < count; i++], [n] rounds left. *)
Fixpoint unmarshal_entries (n : nat) (data : list byte) : outcome (list CBEntry) :=
  match n with
  | O => Ok []
  | S k =>
      match first_byte data with
      | None => Panic
      | Some t =>
          match slot_UnmarshalBinary (new_entry t) data with
          | None => Panic
          | Some e =>
              match slice_from (CBEntry_MarshalledSize e) data with
              | None => Panic
              | Some rest =>
                  match unmarshal_entries k rest with
                  | Ok es => Ok (e :: es)
                  | Err => Err
                  | Panic => Panic
                  end
              end
          end
      end
  end.

(** [CBlock.UnmarshalBinary]. The allocation [make([]CBEntry, count)] is
    taken to succeed whatever the count read from the input. *)
Definition CBlock_UnmarshalBinary (data : list byte) : outcome CBlock :=
  match CBlockHeader_UnmarshalBinary data with
  | None => Panic
  | Some h =>
      match slice_from (CBlockHeader_MarshalledSize h) data with
      | None => Panic
      | Some data =>
          match read_uint 8 data with
          | None => Panic
          | Some (count, data) =>
              match unmarshal_entries (Z.to_nat count) data with
              | Ok es => Ok (mkCBlock h es)
              | Err => Err
              | Panic => Panic
              end
          end
      end
  end.

(* ----- What the round trip is stated about ------------------------- *)

(** A hash that serialises to 33 bytes and reads back from them. *)
Definition valid_hash (h : Hash) : Prop :=
  Hash_MarshalledSize h = 33 /\
  exists bs, Hash_MarshalBinary h = (bs, false) /\ len bs = 33 /\
             forall rest, Hash_UnmarshalBinary (bs ++ rest) = Some h.

Definition header_hashes_valid (b : CBlockHeader) : Prop :=
  valid_hash (ChainID b) /\ valid_hash (BodyHash b) /\ valid_hash (PrevKeyMR b) /\
  valid_hash (PrevHash b) /\ valid_hash (SegmentsMR b) /\ valid_hash (BalanceMR b).

(** The fields hold values of their Go types. *)
Definition header_typed (b : CBlockHeader) : Prop :=
  is_uint 32 (DBHeight b) /\ is_uint 64 (BodySize b).

Definition buy_hashes_valid (e : BuyCBEntry) : Prop :=
  valid_hash (buy_publicKey e) /\ valid_hash (FactomTxHash e).
Definition buy_typed (e : BuyCBEntry) : Prop := is_int 32 (buy_credits e).

Definition payentry_hashes_valid (e : PayEntryCBEntry) : Prop :=
  valid_hash (pe_publicKey e) /\ valid_hash (pe_EntryHash e).
Definition payentry_typed (e : PayEntryCBEntry) : Prop :=
  is_int 32 (pe_credits e) /\ is_int 64 (pe_TimeStamp e).

Definition paychain_hashes_valid (e : PayChainCBEntry) : Prop :=
  valid_hash (pc_publicKey e) /\ valid_hash (pc_EntryHash e) /\
  valid_hash (pc_ChainIDHash e) /\ valid_hash (pc_EntryChainIDHash e).
Definition paychain_typed (e : PayChainCBEntry) : Prop := is_int 32 (pc_credits e).

Definition cbinfo_hashes_valid (b : CBInfo) : Prop :=
  valid_hash (CBHash b) /\ valid_hash (FBHash b) /\ valid_hash (cbi_ChainID b).
Definition cbinfo_typed (b : CBInfo) : Prop := is_uint 64 (FBBlockNum b).

(** [unmarshal(marshal(x)) == x], with no error on the way. *)
Definition round_trips {A : Type} (marshal : A -> list byte * bool)
    (unmarshal : list byte -> option A) (x : A) : Prop :=
  snd (marshal x) = false /\ unmarshal (fst (marshal x)) = Some x.

(* ----- Stepping through a marshalled buffer -------------------------- *)

Lemma write_hash_ok h bs buf on_err k :
  Hash_MarshalBinary h = (bs, false) ->
  write_hash h buf on_err k = k (buf ++ bs).
Proof. intros E. unfold write_hash. now rewrite E. Qed.

Lemma read_hash_app h bs rest :
  (forall r, Hash_UnmarshalBinary (bs ++ r) = Some h) ->
  Hash_MarshalledSize h = 33 -> len bs = 33 ->
  read_hash (bs ++ rest) = Some (h, rest).
Proof.
  intros Hu Hs Hl. unfold read_hash. rewrite Hu. simpl.
  rewrite Hs, <- Hl, slice_from_app. reflexivity.
Qed.

Lemma read_uint_encode_mod n z rest :
  read_uint n (be_encode n z ++ rest) = Some (z mod 256 ^ Z.of_nat n, rest).
Proof.
  pose proof (read_uint_app (be_encode n z) rest) as R.
  now rewrite be_encode_length, be_decode_encode in R.
Qed.

Lemma read_uint_encode_mod_nil n z :
  read_uint n (be_encode n z) = Some (z mod 256 ^ Z.of_nat n, []).
Proof.
  pose proof (read_uint_encode_mod n z []) as R. now rewrite app_nil_r in R.
Qed.

Lemma slice_from_1_cons (b : byte) rest : slice_from 1 (b :: rest) = Some rest.
Proof. apply (slice_from_app [b] rest). Qed.

Lemma slice_to_all (l : list byte) : slice_to (len l) l = Some l.
Proof. pose proof (slice_to_app l []) as H. now rewrite app_nil_r in H. Qed.

Lemma slice_33_app (bs rest : list byte) :
  len bs = 33 -> slice_to 33 (bs ++ rest) = Some bs /\ slice_from 33 (bs ++ rest) = Some rest.
Proof. intros <-. split; [apply slice_to_app | apply slice_from_app]. Qed.

Lemma uint_bytes4 : 256 ^ Z.of_nat 4 = 2 ^ 32.
Proof. reflexivity. Qed.

Lemma uint_bytes8 : 256 ^ Z.of_nat 8 = 2 ^ 64.
Proof. reflexivity. Qed.

(** One hash written and read back: the step used at every hash field. *)
Ltac use_valid H :=
  let bs := fresh "bs" in
  let Hsz := fresh "Hsz" in
  let Hm := fresh "Hm" in
  let Hl := fresh "Hl" in
  let Hu := fresh "Hu" in
  destruct H as (Hsz & bs & Hm & Hl & Hu).

Lemma header_round_trip (b : CBlockHeader) :
  header_hashes_valid b -> header_typed b ->
  round_trips CBlockHeader_MarshalBinary CBlockHeader_UnmarshalBinary b.
Proof.
  intros (H1 & H2 & H3 & H4 & H5 & H6) (Hh & Hb).
  use_valid H1. use_valid H2. use_valid H3. use_valid H4. use_valid H5. use_valid H6.
  unfold round_trips, CBlockHeader_MarshalBinary.
  repeat (erewrite write_hash_ok by eassumption; cbv beta zeta).
  cbn [fst snd]. split; [reflexivity|].
  rewrite <- !app_assoc. cbn [app].
  unfold CBlockHeader_UnmarshalBinary.
  repeat (first [ erewrite read_hash_app by eassumption
                | rewrite read_uint_encode_mod
                | rewrite read_uint_encode_mod_nil ]; cbn [mbind option_bind]).
  rewrite uint_bytes4, uint_bytes8.
  unfold is_uint in *. rewrite !Z.mod_small by lia.
  now destruct b.
Qed.

Lemma unmarshal_exact h bs :
  (forall r, Hash_UnmarshalBinary (bs ++ r) = Some h) ->
  Hash_UnmarshalBinary bs = Some h.
Proof. intros Hu. specialize (Hu []). now rewrite app_nil_r in Hu. Qed.

Lemma slice_33 (bs rest : list byte) :
  len bs = 33 -> slice_to 33 (bs ++ rest) = Some bs.
Proof. intros <-. apply slice_to_app. Qed.

Lemma drop_33 (bs rest : list byte) :
  len bs = 33 -> slice_from 33 (bs ++ rest) = Some rest.
Proof. intros <-. apply slice_from_app. Qed.

Lemma slice_33_exact (bs : list byte) :
  len bs = 33 -> slice_to 33 bs = Some bs.
Proof. intros <-. apply slice_to_all. Qed.

Ltac codec_step :=
  first [ erewrite read_hash_app by eassumption
        | rewrite read_uint_encode_mod
        | rewrite read_uint_encode_mod_nil
        | rewrite slice_from_1_cons
        | erewrite unmarshal_exact by eassumption
        | rewrite slice_to_all ];
  cbn [mbind option_bind first_byte head].

Lemma buy_round_trip (e : BuyCBEntry) :
  buy_hashes_valid e -> buy_typed e ->
  round_trips BuyCBEntry_MarshalBinary BuyCBEntry_UnmarshalBinary e.
Proof.
  intros (H1 & H2) Hc. use_valid H1. use_valid H2.
  unfold round_trips, BuyCBEntry_MarshalBinary. cbv zeta.
  repeat (erewrite write_hash_ok by eassumption; cbv beta zeta).
  cbn [fst snd]. split; [reflexivity|].
  rewrite <- !app_assoc. cbn [app].
  unfold BuyCBEntry_UnmarshalBinary. cbn [mbind option_bind first_byte head].
  repeat codec_step.
  rewrite uint_bytes4. change (buy_credits e mod 2 ^ 32) with (wrap 32 (buy_credits e)).
  rewrite to_signed_wrap by (done || lia).
  now destruct e.
Qed.

Lemma payentry_round_trip (e : PayEntryCBEntry) :
  payentry_hashes_valid e -> payentry_typed e -> len (pe_Sig e) < 2 ^ 32 ->
  round_trips PayEntryCBEntry_MarshalBinary PayEntryCBEntry_UnmarshalBinary e.
Proof.
  intros (H1 & H2) (Hc & Ht) Hs. use_valid H1. use_valid H2.
  assert (Hw : wrap 32 (len (pe_Sig e)) = len (pe_Sig e))
    by (unfold wrap, len in *; apply Z.mod_small; lia).
  unfold round_trips, PayEntryCBEntry_MarshalBinary. cbv zeta.
  repeat (erewrite write_hash_ok by eassumption; cbv beta zeta).
  cbn [fst snd]. split; [reflexivity|].
  rewrite <- !app_assoc. cbn [app]. rewrite Hw.
  unfold PayEntryCBEntry_UnmarshalBinary. cbn [mbind option_bind first_byte head].
  do 6 codec_step.
  rewrite uint_bytes4, uint_bytes8.
  rewrite (Z.mod_small (len _)) by (unfold len in *; lia).
  codec_step.
  change (pe_credits e mod 2 ^ 32) with (wrap 32 (pe_credits e)).
  change (pe_TimeStamp e mod 2 ^ 64) with (wrap 64 (pe_TimeStamp e)).
  rewrite !to_signed_wrap by (done || lia).
  now destruct e.
Qed.

Lemma paychain_round_trip (e : PayChainCBEntry) :
  paychain_hashes_valid e -> paychain_typed e -> len (pc_Sig e) < 2 ^ 32 ->
  round_trips PayChainCBEntry_MarshalBinary PayChainCBEntry_UnmarshalBinary e.
Proof.
  intros (H1 & H2 & H3 & H4) Hc Hs.
  use_valid H1. use_valid H2. use_valid H3. use_valid H4.
  assert (Hw : wrap 32 (len (pc_Sig e)) = len (pc_Sig e))
    by (unfold wrap, len in *; apply Z.mod_small; lia).
  unfold round_trips, PayChainCBEntry_MarshalBinary. cbv zeta.
  repeat (erewrite write_hash_ok by eassumption; cbv beta zeta).
  cbn [fst snd]. split; [reflexivity|].
  rewrite <- !app_assoc. cbn [app]. rewrite Hw.
  unfold PayChainCBEntry_UnmarshalBinary. cbn [mbind option_bind first_byte head].
  do 7 codec_step.
  rewrite uint_bytes4.
  rewrite (Z.mod_small (len _)) by (unfold len in *; lia).
  codec_step.
  change (pc_credits e mod 2 ^ 32) with (wrap 32 (pc_credits e)).
  rewrite !to_signed_wrap by (done || lia).
  now destruct e.
Qed.

Lemma cbinfo_round_trip (b : CBInfo) :
  cbinfo_hashes_valid b -> cbinfo_typed b ->
  round_trips CBInfo_MarshalBinary CBInfo_UnmarshalBinary b.
Proof.
  intros (H1 & H2 & H3) Hn. use_valid H1. use_valid H2. use_valid H3.
  unfold round_trips, CBInfo_MarshalBinary, write_hash_unchecked. cbv zeta.
  rewrite Hm, Hm0, Hm1. cbn [fst snd]. split; [reflexivity|].
  rewrite <- !app_assoc. cbn [app].
  unfold CBInfo_UnmarshalBinary.
  rewrite (slice_33 bs), (drop_33 bs) by assumption. cbn [mbind option_bind].
  erewrite unmarshal_exact by eassumption. cbn [mbind option_bind].
  rewrite (slice_33 bs0), (drop_33 bs0) by assumption. cbn [mbind option_bind].
  erewrite unmarshal_exact by eassumption. cbn [mbind option_bind].
  rewrite read_uint_encode_mod. cbn [mbind option_bind].
  rewrite slice_33_exact by assumption. cbn [mbind option_bind].
  erewrite unmarshal_exact by eassumption. cbn [mbind option_bind].
  rewrite uint_bytes8. unfold cbinfo_typed, is_uint in Hn.
  rewrite Z.mod_small by lia.
  now destruct b.
Qed.

Lemma new_entry_unknown (t : byte) :
  t <> TYPE_BUY -> t <> TYPE_PAY_CHAIN -> t <> TYPE_PAY_ENTRY -> new_entry t = None.
Proof.
  intros H1 H2 H3. unfold new_entry.
  destruct (Byte.eqb t TYPE_BUY) eqn:E1; [apply Byte.byte_dec_bl in E1; contradiction|].
  destruct (Byte.eqb t TYPE_PAY_CHAIN) eqn:E2; [apply Byte.byte_dec_bl in E2; contradiction|].
  destruct (Byte.eqb t TYPE_PAY_ENTRY) eqn:E3; [apply Byte.byte_dec_bl in E3; contradiction|].
  reflexivity.
Qed.

(** C8 (as amended): marshalling then unmarshalling gives the value back,
    field by field and with no error, for every [CBlockHeader],
    [BuyCBEntry], [PayEntryCBEntry], [PayChainCBEntry] and [CBInfo] whose
    hash fields are valid 33-byte hashes and, for the two entries that
    carry a signature, whose [Sig] is shorter than 2^32 bytes (its length
    travels as a [uint32]). *)
Theorem marshal_unmarshal_round_trip :
  (forall b : CBlockHeader,
      header_hashes_valid b -> header_typed b ->
      round_trips CBlockHeader_MarshalBinary CBlockHeader_UnmarshalBinary b) /\
  (forall e : BuyCBEntry,
      buy_hashes_valid e -> buy_typed e ->
      round_trips BuyCBEntry_MarshalBinary BuyCBEntry_UnmarshalBinary e) /\
  (forall e : PayEntryCBEntry,
      payentry_hashes_valid e -> payentry_typed e -> len (pe_Sig e) < 2 ^ 32 ->
      round_trips PayEntryCBEntry_MarshalBinary PayEntryCBEntry_UnmarshalBinary e) /\
  (forall e : PayChainCBEntry,
      paychain_hashes_valid e -> paychain_typed e -> len (pc_Sig e) < 2 ^ 32 ->
      round_trips PayChainCBEntry_MarshalBinary PayChainCBEntry_UnmarshalBinary e) /\
  (forall b : CBInfo,
      cbinfo_hashes_valid b -> cbinfo_typed b ->
      round_trips CBInfo_MarshalBinary CBInfo_UnmarshalBinary b).
Proof.
  split; [|split; [|split; [|split]]]; intros.
  - now apply header_round_trip.
  - now apply buy_round_trip.
  - now apply payentry_round_trip.
  - now apply paychain_round_trip.
  - now apply cbinfo_round_trip.
Qed.

(** A [PayEntryCBEntry] whose signature is exactly 2^32 bytes long does not
    survive the round trip: the length prefix wraps to zero and the
    signature read back is empty. *)
Lemma payentry_long_sig_lost (e : PayEntryCBEntry) :
  payentry_hashes_valid e -> len (pe_Sig e) = 2 ^ 32 ->
  exists e', PayEntryCBEntry_UnmarshalBinary (fst (PayEntryCBEntry_MarshalBinary e)) = Some e'
             /\ pe_Sig e' = [].
Proof.
  intros (H1 & H2) Hs. use_valid H1. use_valid H2.
  unfold PayEntryCBEntry_MarshalBinary. cbv zeta.
  repeat (erewrite write_hash_ok by eassumption; cbv beta zeta).
  cbn [fst]. rewrite Hs. change (wrap 32 (2 ^ 32)) with 0.
  rewrite <- !app_assoc. cbn [app].
  unfold PayEntryCBEntry_UnmarshalBinary. cbn [mbind option_bind first_byte head].
  do 6 codec_step.
  change (0 mod 256 ^ Z.of_nat 4) with 0.
  unfold slice_to. rewrite Hs. cbn [mbind option_bind].
  eexists. split; reflexivity.
Qed.

(** C10: [CBlock.UnmarshalBinary] panics, and returns no error value, on
    every input whose header parses, whose entry count is positive and
    whose first entry starts with a type byte other than [TYPE_BUY],
    [TYPE_PAY_CHAIN] and [TYPE_PAY_ENTRY]: the slot keeps the nil interface
    and the method call on it panics. *)
Theorem CBlock_UnmarshalBinary_nil_entry_panics
    (data rest body : list byte) (h : CBlockHeader) (count : Z) (t : byte) :
  CBlockHeader_UnmarshalBinary data = Some h ->
  slice_from (CBlockHeader_MarshalledSize h) data = Some rest ->
  read_uint 8 rest = Some (count, body) ->
  0 < count ->
  first_byte body = Some t ->
  t <> TYPE_BUY -> t <> TYPE_PAY_CHAIN -> t <> TYPE_PAY_ENTRY ->
  new_entry t = None /\
  slot_UnmarshalBinary (new_entry t) body = None /\
  CBlock_UnmarshalBinary data = Panic.
Proof.
  intros Hh Hs Hc Hpos Ht N1 N2 N3.
  pose proof (new_entry_unknown t N1 N2 N3) as Hn.
  split; [exact Hn|]. split; [now rewrite Hn|].
  unfold CBlock_UnmarshalBinary. rewrite Hh, Hs, Hc.
  destruct (Z.to_nat count) as [|k] eqn:Ek; [lia|].
  cbn [unmarshal_entries]. rewrite Ht, Hn. reflexivity.
Qed.

(* ----- Whole blocks and chains -------------------------------------- *)

(** [NewBuyCBEntry], [NewPayEntryCBEntry], [NewPayChainCBEntry]: each
    constructor writes its own type byte. *)
Definition NewBuyCBEntry (pubKey factoidTxHash : Hash) (credits : Z) : BuyCBEntry :=
  mkBuyCBEntry TYPE_BUY pubKey credits factoidTxHash.

Definition NewPayEntryCBEntry (pubKey entryHash : Hash) (credits timeStamp : Z)
    (sig : list byte) : PayEntryCBEntry :=
  mkPayEntryCBEntry TYPE_PAY_ENTRY pubKey credits entryHash timeStamp sig.

Definition NewPayChainCBEntry (pubKey entryHash : Hash) (credits : Z)
    (chainIDHash entryChainIDHash : Hash) (sig : list byte) : PayChainCBEntry :=
  mkPayChainCBEntry TYPE_PAY_CHAIN pubKey credits entryHash chainIDHash
                    entryChainIDHash sig.

(** [Type()] and [MarshalBinary()] through the [CBEntry] interface. *)
Definition CBEntry_Type (e : CBEntry) : byte :=
  match e with
  | Buy e => buy_entryType e
  | PayEntry e => pe_entryType e
  | PayChain e => pc_entryType e
  end.

Definition CBEntry_MarshalBinary (e : CBEntry) : list byte * bool :=
  match e with
  | Buy e => BuyCBEntry_MarshalBinary e
  | PayEntry e => PayEntryCBEntry_MarshalBinary e
  | PayChain e => PayChainCBEntry_MarshalBinary e
  end.

(** [b.CBEntries = append(b.CBEntries, e)]. *)
Definition AddCBEntry (b : CBlock) (e : CBEntry) : CBlock :=
  mkCBlock (Header b) (CBEntries b ++ [e]).

(** [CBlock.MarshalBinary]: the errors of the header and of the entries
    are dropped ([data, _ = ...]), and the named result [err] is never
    assigned. The count is [uint64(len(b.CBEntries))]. *)
Definition CBlock_MarshalBinary (b : CBlock) : list byte * bool :=
  let buf := fst (CBlockHeader_MarshalBinary (Header b)) in
  let count := Z.of_nat (length (CBEntries b)) in
  let buf := buf ++ be_encode 8 count in
  (fold_left (fun buf e => buf ++ fst (CBEntry_MarshalBinary e)) (CBEntries b) buf,
   false).

(** [CBlock.MarshalledSize]; the line it prints is not modelled. *)
Definition CBlock_MarshalledSize (b : CBlock) : Z :=
  let size := wrap 64 (0 + CBlockHeader_MarshalledSize (Header b)) in
  let size := wrap 64 (size + 8) in
  fold_left (fun size e => wrap 64 (size + CBEntry_MarshalledSize e))
            (CBEntries b) size.

(** The marshalled part of a [CChain], and the block counter that
    [UnmarshalBinary] leaves alone. *)
Record CChain : Type := mkCChain {
  cc_ChainID : Hash;
  cc_Name : list (list byte);
  cc_NextBlockID : Z     (* uint32 *)
}.

Definition CChain_MarshalBinary (b : CChain) : list byte * bool :=
  let buf := write_hash_unchecked (cc_ChainID b) [] in
  let count := Z.of_nat (length (cc_Name b)) in
  let buf := buf ++ be_encode 8 count in
  (fold_left (fun buf bytes => (buf ++ be_encode 8 (len bytes)) ++ bytes)
             (cc_Name b) buf,
   false).

Definition CChain_MarshalledSize (b : CChain) : Z :=
  fold_left (fun size bytes => wrap 64 (wrap 64 (size + 8) + len bytes))
            (cc_Name b) (33 + 8).

(** The body of [for i := uint64(0); i < count; i++] in
    [CChain.UnmarshalBinary], [n] rounds left. *)
Fixpoint unmarshal_names (n : nat) (data : list byte) : option (list (list byte)) :=
  match n with
  | O => Some []
  | S k =>
      '(length, data) ← read_uint 8 data;
      name ← slice_to length data;
      data ← slice_from length data;
      names ← unmarshal_names k data;
      Some (name :: names)
  end.

(** [CChain.UnmarshalBinary] on the receiver [b]: [ChainID] and [Name] are
    overwritten, the other fields stay. *)
Definition CChain_UnmarshalBinary (b : CChain) (data : list byte) : option CChain :=
  d ← slice_to 33 data;
  chainID ← Hash_UnmarshalBinary d;
  data ← slice_from 33 data;
  '(count, data) ← read_uint 8 data;
  names ← unmarshal_names (Z.to_nat count) data;
  Some (mkCChain chainID names (cc_NextBlockID b)).

(** What a block's entries must satisfy to travel. *)
Definition entry_hashes_valid (e : CBEntry) : Prop :=
  match e with
  | Buy e => buy_hashes_valid e
  | PayEntry e => payentry_hashes_valid e
  | PayChain e => paychain_hashes_valid e
  end.

Definition entry_typed (e : CBEntry) : Prop :=
  match e with
  | Buy e => buy_typed e
  | PayEntry e => payentry_typed e /\ len (pe_Sig e) < 2 ^ 32
  | PayChain e => paychain_typed e /\ len (pc_Sig e) < 2 ^ 32
  end.

(** The type byte is the one the entry's constructor writes. *)
Definition entry_tagged (e : CBEntry) : Prop :=
  match e with
  | Buy e => buy_entryType e = TYPE_BUY
  | PayEntry e => pe_entryType e = TYPE_PAY_ENTRY
  | PayChain e => pc_entryType e = TYPE_PAY_CHAIN
  end.

Definition entry_ok (e : CBEntry) : Prop :=
  entry_hashes_valid e /\ entry_typed e /\ entry_tagged e.

(** The bytes of the entries, one after the other. *)
Definition body_bytes (es : list CBEntry) : list byte :=
  concat (map (fun e => fst (CBEntry_MarshalBinary e)) es).

Definition names_bytes (names : list (list byte)) : list byte :=
  concat (map (fun bytes => be_encode 8 (len bytes) ++ bytes) names).

Lemma wrap64_add_l a b : wrap 64 (wrap 64 a + b) = wrap 64 (a + b).
Proof. unfold wrap. now rewrite Z.add_mod_idemp_l by lia. Qed.

Lemma wrap64_add_r a b : wrap 64 (a + wrap 64 b) = wrap 64 (a + b).
Proof. unfold wrap. now rewrite Z.add_mod_idemp_r by lia. Qed.

Lemma wrap64_idem a : wrap 64 (wrap 64 a) = wrap 64 a.
Proof. unfold wrap. now rewrite Z.mod_mod by lia. Qed.

Lemma fold_marshal_entries (es : list CBEntry) (buf : list byte) :
  fold_left (fun buf e => buf ++ fst (CBEntry_MarshalBinary e)) es buf
  = buf ++ body_bytes es.
Proof.
  revert buf. induction es as [|e es IH]; intros buf; cbn.
  - now rewrite app_nil_r.
  - rewrite IH. unfold body_bytes. now rewrite <- app_assoc.
Qed.

Lemma fold_marshal_names (names : list (list byte)) (buf : list byte) :
  fold_left (fun buf bytes => (buf ++ be_encode 8 (len bytes)) ++ bytes) names buf
  = buf ++ names_bytes names.
Proof.
  revert buf. induction names as [|n names IH]; intros buf; cbn.
  - now rewrite app_nil_r.
  - rewrite IH. unfold names_bytes. now rewrite <- !app_assoc.
Qed.

Lemma fold_sizes (es : list CBEntry) (size : Z) :
  fold_left (fun size e => wrap 64 (size + CBEntry_MarshalledSize e)) es (wrap 64 size)
  = wrap 64 (size + foldr (fun e t => CBEntry_MarshalledSize e + t) 0 es).
Proof.
  revert size. induction es as [|e es IH]; intros size; cbn [fold_left foldr].
  - now rewrite Z.add_0_r.
  - rewrite wrap64_add_l, IH. f_equal. lia.
Qed.

Lemma fold_name_sizes (names : list (list byte)) (size : Z) :
  fold_left (fun size bytes => wrap 64 (wrap 64 (size + 8) + len bytes)) names
            (wrap 64 size)
  = wrap 64 (size + foldr (fun bytes t => 8 + len bytes + t) 0 names).
Proof.
  revert size. induction names as [|n names IH]; intros size;
    cbn [fold_left foldr].
  - now rewrite Z.add_0_r.
  - rewrite wrap64_add_l, <- Z.add_assoc, wrap64_add_l, IH. f_equal. lia.
Qed.
(* ----- Lengths of the marshalled forms ------------------------------- *)

Ltac marshalled_length :=
  repeat (erewrite write_hash_ok by eassumption; cbv beta zeta);
  unfold write_hash_unchecked;
  repeat match goal with
         | H : Hash_MarshalBinary _ = _ |- _ => rewrite H
         end;
  cbn [fst];
  unfold len in *; rewrite ?length_app, ?be_encode_length; cbn [length]; lia.

Lemma header_length (b : CBlockHeader) :
  header_hashes_valid b -> len (fst (CBlockHeader_MarshalBinary b)) = 210.
Proof.
  intros (H1 & H2 & H3 & H4 & H5 & H6).
  use_valid H1. use_valid H2. use_valid H3. use_valid H4. use_valid H5. use_valid H6.
  unfold CBlockHeader_MarshalBinary. marshalled_length.
Qed.

Lemma buy_length (e : BuyCBEntry) :
  buy_hashes_valid e -> len (fst (BuyCBEntry_MarshalBinary e)) = 71.
Proof.
  intros (H1 & H2). use_valid H1. use_valid H2.
  unfold BuyCBEntry_MarshalBinary. cbv zeta. marshalled_length.
Qed.

Lemma payentry_length (e : PayEntryCBEntry) :
  payentry_hashes_valid e ->
  len (fst (PayEntryCBEntry_MarshalBinary e)) = 83 + len (pe_Sig e).
Proof.
  intros (H1 & H2). use_valid H1. use_valid H2.
  unfold PayEntryCBEntry_MarshalBinary. cbv zeta. marshalled_length.
Qed.

Lemma paychain_length (e : PayChainCBEntry) :
  paychain_hashes_valid e ->
  len (fst (PayChainCBEntry_MarshalBinary e)) = 141 + len (pc_Sig e).
Proof.
  intros (H1 & H2 & H3 & H4).
  use_valid H1. use_valid H2. use_valid H3. use_valid H4.
  unfold PayChainCBEntry_MarshalBinary. cbv zeta. marshalled_length.
Qed.

Lemma cbinfo_length (b : CBInfo) :
  cbinfo_hashes_valid b -> len (fst (CBInfo_MarshalBinary b)) = 107.
Proof.
  intros (H1 & H2 & H3). use_valid H1. use_valid H2. use_valid H3.
  unfold CBInfo_MarshalBinary. cbv zeta. marshalled_length.
Qed.

Ltac sizes_of_valid :=
  repeat match goal with
         | H : valid_hash _ |- _ => destruct H as (-> & _)
         end.

Lemma header_size (b : CBlockHeader) :
  header_hashes_valid b -> CBlockHeader_MarshalledSize b = 210.
Proof.
  intros (H1 & H2 & H3 & H4 & H5 & H6).
  unfold CBlockHeader_MarshalledSize. sizes_of_valid. reflexivity.
Qed.

Lemma buy_size (e : BuyCBEntry) :
  buy_hashes_valid e -> BuyCBEntry_MarshalledSize e = 71.
Proof.
  intros (H1 & H2). unfold BuyCBEntry_MarshalledSize. sizes_of_valid. reflexivity.
Qed.

Lemma payentry_size (e : PayEntryCBEntry) :
  payentry_hashes_valid e ->
  PayEntryCBEntry_MarshalledSize e = wrap 64 (83 + len (pe_Sig e)).
Proof.
  intros (H1 & H2). unfold PayEntryCBEntry_MarshalledSize. sizes_of_valid.
  f_equal; lia.
Qed.

Lemma paychain_size (e : PayChainCBEntry) :
  paychain_hashes_valid e ->
  PayChainCBEntry_MarshalledSize e = wrap 64 (141 + len (pc_Sig e)).
Proof.
  intros (H1 & H2 & H3 & H4). unfold PayChainCBEntry_MarshalledSize.
  sizes_of_valid. f_equal; lia.
Qed.

Lemma entry_size (e : CBEntry) :
  entry_hashes_valid e ->
  CBEntry_MarshalledSize e = wrap 64 (len (fst (CBEntry_MarshalBinary e))).
Proof.
  destruct e as [e|e|e]; cbn [entry_hashes_valid CBEntry_MarshalledSize
                                CBEntry_MarshalBinary]; intros V.
  - now rewrite buy_size, buy_length.
  - now rewrite payentry_size, payentry_length.
  - now rewrite paychain_size, paychain_length.
Qed.

(** X1: for a [CBlockHeader], the three entry types and a [CBInfo] with
    valid hashes, [MarshalledSize] is the length of what [MarshalBinary]
    writes, as a [uint64]: the reader that skips [MarshalledSize] bytes
    lands on the byte after the value. *)
Theorem MarshalledSize_is_marshalled_length :
  (forall b : CBlockHeader, header_hashes_valid b ->
     CBlockHeader_MarshalledSize b = wrap 64 (len (fst (CBlockHeader_MarshalBinary b)))) /\
  (forall e : BuyCBEntry, buy_hashes_valid e ->
     BuyCBEntry_MarshalledSize e = wrap 64 (len (fst (BuyCBEntry_MarshalBinary e)))) /\
  (forall e : PayEntryCBEntry, payentry_hashes_valid e ->
     PayEntryCBEntry_MarshalledSize e
     = wrap 64 (len (fst (PayEntryCBEntry_MarshalBinary e)))) /\
  (forall e : PayChainCBEntry, paychain_hashes_valid e ->
     PayChainCBEntry_MarshalledSize e
     = wrap 64 (len (fst (PayChainCBEntry_MarshalBinary e)))) /\
  (forall b : CBInfo, cbinfo_hashes_valid b ->
     CBInfo_MarshalledSize b = wrap 64 (len (fst (CBInfo_MarshalBinary b)))).
Proof.
  split; [|split; [|split; [|split]]]; intros x V.
  - now rewrite header_size, header_length.
  - now rewrite buy_size, buy_length.
  - now rewrite payentry_size, payentry_length.
  - now rewrite paychain_size, paychain_length.
  - now rewrite cbinfo_length.
Qed.

(* ----- Reading a value off the front of a longer buffer -------------- *)

Ltac prefix_step :=
  first [ erewrite read_hash_app by eassumption
        | rewrite read_uint_encode_mod
        | rewrite slice_from_1_cons
        | rewrite slice_to_app
        | match goal with
          | H : forall r, Hash_UnmarshalBinary (?bs ++ r) = Some _
            |- context [Hash_UnmarshalBinary (?bs ++ _)] => rewrite H
          end ];
  cbn [mbind option_bind first_byte head].

Lemma header_prefix (b : CBlockHeader) (rest : list byte) :
  header_hashes_valid b -> header_typed b ->
  CBlockHeader_UnmarshalBinary (fst (CBlockHeader_MarshalBinary b) ++ rest) = Some b.
Proof.
  intros (H1 & H2 & H3 & H4 & H5 & H6) (Hh & Hb).
  use_valid H1. use_valid H2. use_valid H3. use_valid H4. use_valid H5. use_valid H6.
  unfold CBlockHeader_MarshalBinary.
  repeat (erewrite write_hash_ok by eassumption; cbv beta zeta).
  cbn [fst]. rewrite <- !app_assoc. cbn [app].
  unfold CBlockHeader_UnmarshalBinary.
  repeat prefix_step.
  rewrite uint_bytes4, uint_bytes8.
  unfold is_uint in *. rewrite !Z.mod_small by lia.
  now destruct b.
Qed.

Lemma buy_prefix (e : BuyCBEntry) (rest : list byte) :
  buy_hashes_valid e -> buy_typed e ->
  BuyCBEntry_UnmarshalBinary (fst (BuyCBEntry_MarshalBinary e) ++ rest) = Some e.
Proof.
  intros (H1 & H2) Hc. use_valid H1. use_valid H2.
  unfold BuyCBEntry_MarshalBinary. cbv zeta.
  repeat (erewrite write_hash_ok by eassumption; cbv beta zeta).
  cbn [fst]. rewrite <- !app_assoc. cbn [app].
  unfold BuyCBEntry_UnmarshalBinary. cbn [mbind option_bind first_byte head].
  repeat prefix_step.
  rewrite uint_bytes4. change (buy_credits e mod 2 ^ 32) with (wrap 32 (buy_credits e)).
  rewrite to_signed_wrap by (done || lia).
  now destruct e.
Qed.

Lemma payentry_prefix (e : PayEntryCBEntry) (rest : list byte) :
  payentry_hashes_valid e -> payentry_typed e -> len (pe_Sig e) < 2 ^ 32 ->
  PayEntryCBEntry_UnmarshalBinary (fst (PayEntryCBEntry_MarshalBinary e) ++ rest)
  = Some e.
Proof.
  intros (H1 & H2) (Hc & Ht) Hs. use_valid H1. use_valid H2.
  assert (Hw : wrap 32 (len (pe_Sig e)) = len (pe_Sig e))
    by (unfold wrap, len in *; apply Z.mod_small; lia).
  unfold PayEntryCBEntry_MarshalBinary. cbv zeta.
  repeat (erewrite write_hash_ok by eassumption; cbv beta zeta).
  cbn [fst]. rewrite <- !app_assoc. cbn [app]. rewrite Hw.
  unfold PayEntryCBEntry_UnmarshalBinary. cbn [mbind option_bind first_byte head].
  do 6 prefix_step.
  rewrite uint_bytes4, uint_bytes8.
  rewrite (Z.mod_small (len _)) by (unfold len in *; lia).
  prefix_step.
  change (pe_credits e mod 2 ^ 32) with (wrap 32 (pe_credits e)).
  change (pe_TimeStamp e mod 2 ^ 64) with (wrap 64 (pe_TimeStamp e)).
  rewrite !to_signed_wrap by (done || lia).
  now destruct e.
Qed.

Lemma paychain_prefix (e : PayChainCBEntry) (rest : list byte) :
  paychain_hashes_valid e -> paychain_typed e -> len (pc_Sig e) < 2 ^ 32 ->
  PayChainCBEntry_UnmarshalBinary (fst (PayChainCBEntry_MarshalBinary e) ++ rest)
  = Some e.
Proof.
  intros (H1 & H2 & H3 & H4) Hc Hs.
  use_valid H1. use_valid H2. use_valid H3. use_valid H4.
  assert (Hw : wrap 32 (len (pc_Sig e)) = len (pc_Sig e))
    by (unfold wrap, len in *; apply Z.mod_small; lia).
  unfold PayChainCBEntry_MarshalBinary. cbv zeta.
  repeat (erewrite write_hash_ok by eassumption; cbv beta zeta).
  cbn [fst]. rewrite <- !app_assoc. cbn [app]. rewrite Hw.
  unfold PayChainCBEntry_UnmarshalBinary. cbn [mbind option_bind first_byte head].
  do 7 prefix_step.
  rewrite uint_bytes4.
  rewrite (Z.mod_small (len _)) by (unfold len in *; lia).
  prefix_step.
  change (pc_credits e mod 2 ^ 32) with (wrap 32 (pc_credits e)).
  rewrite !to_signed_wrap by (done || lia).
  now destruct e.
Qed.

(** The first byte written by an entry is its type byte, whether or not
    the hashes marshal. *)
Lemma entry_first_byte (e : CBEntry) (rest : list byte) :
  entry_hashes_valid e ->
  first_byte (fst (CBEntry_MarshalBinary e) ++ rest) = Some (CBEntry_Type e).
Proof.
  destruct e as [e|e|e]; cbn [entry_hashes_valid CBEntry_MarshalBinary CBEntry_Type].
  - intros (H1 & H2). use_valid H1. use_valid H2.
    unfold BuyCBEntry_MarshalBinary. cbv zeta.
    repeat (erewrite write_hash_ok by eassumption; cbv beta zeta).
    cbn [fst]. now rewrite <- !app_assoc.
  - intros (H1 & H2). use_valid H1. use_valid H2.
    unfold PayEntryCBEntry_MarshalBinary. cbv zeta.
    repeat (erewrite write_hash_ok by eassumption; cbv beta zeta).
    cbn [fst]. now rewrite <- !app_assoc.
  - intros (H1 & H2 & H3 & H4).
    use_valid H1. use_valid H2. use_valid H3. use_valid H4.
    unfold PayChainCBEntry_MarshalBinary. cbv zeta.
    repeat (erewrite write_hash_ok by eassumption; cbv beta zeta).
    cbn [fst]. now rewrite <- !app_assoc.
Qed.

Lemma entry_length_fits (e : CBEntry) :
  entry_hashes_valid e -> entry_typed e ->
  CBEntry_MarshalledSize e = len (fst (CBEntry_MarshalBinary e)).
Proof.
  intros V T. rewrite entry_size by exact V.
  unfold wrap. apply Z.mod_small.
  destruct e as [e|e|e]; cbn [entry_hashes_valid entry_typed CBEntry_MarshalBinary] in *.
  - rewrite buy_length by exact V. lia.
  - rewrite payentry_length by exact V. unfold len in *. lia.
  - rewrite paychain_length by exact V. unfold len in *. lia.
Qed.

Lemma entry_prefix (e : CBEntry) (rest : list byte) :
  entry_ok e ->
  slot_UnmarshalBinary (new_entry (CBEntry_Type e))
                       (fst (CBEntry_MarshalBinary e) ++ rest) = Some e.
Proof.
  intros (V & T & G).
  destruct e as [e|e|e];
    cbn [entry_hashes_valid entry_typed entry_tagged CBEntry_MarshalBinary
         CBEntry_Type] in *; rewrite G; cbn [new_entry slot_UnmarshalBinary].
  - change (new_entry TYPE_BUY) with (Some KBuy). cbn [slot_UnmarshalBinary].
    now rewrite buy_prefix.
  - change (new_entry TYPE_PAY_ENTRY) with (Some KPayEntry). cbn [slot_UnmarshalBinary].
    destruct T as (T & S). now rewrite payentry_prefix.
  - change (new_entry TYPE_PAY_CHAIN) with (Some KPayChain). cbn [slot_UnmarshalBinary].
    destruct T as (T & S). now rewrite paychain_prefix.
Qed.

Lemma unmarshal_entries_body (es : list CBEntry) (rest : list byte) :
  Forall entry_ok es ->
  unmarshal_entries (length es) (body_bytes es ++ rest) = Ok es.
Proof.
  induction 1 as [|e es He Hes IH]; [reflexivity|].
  unfold body_bytes. cbn [map concat length unmarshal_entries].
  fold (body_bytes es). rewrite <- app_assoc.
  pose proof He as (V & T & G).
  rewrite entry_first_byte by exact V.
  rewrite entry_prefix by exact He.
  rewrite entry_length_fits by assumption.
  rewrite slice_from_app, IH. reflexivity.
Qed.

(** X2: a block survives [MarshalBinary] followed by [UnmarshalBinary]:
    when the header and every entry hold valid hashes and values of their
    Go types, every signature is shorter than 2^32 bytes and every entry
    carries the type byte its constructor writes, the block read back is
    the block written, with no error and no panic. *)
Theorem CBlock_round_trip (b : CBlock) :
  header_hashes_valid (Header b) -> header_typed (Header b) ->
  Forall entry_ok (CBEntries b) ->
  Z.of_nat (length (CBEntries b)) < 2 ^ 64 ->
  snd (CBlock_MarshalBinary b) = false /\
  CBlock_UnmarshalBinary (fst (CBlock_MarshalBinary b)) = Ok b.
Proof.
  intros Vh Th Ves Hn. split; [reflexivity|].
  unfold CBlock_MarshalBinary. cbv zeta. cbn [fst].
  rewrite fold_marshal_entries, <- app_assoc.
  unfold CBlock_UnmarshalBinary.
  rewrite header_prefix by assumption.
  rewrite header_size by assumption.
  rewrite <- (header_length (Header b)) by assumption.
  rewrite slice_from_app, read_uint_encode_mod, uint_bytes8.
  rewrite Z.mod_small by lia. rewrite Nat2Z.id.
  pose proof (unmarshal_entries_body (CBEntries b) [] Ves) as E.
  rewrite app_nil_r in E. rewrite E. now destruct b.
Qed.

Lemma sum_entry_sizes (es : list CBEntry) (a : Z) :
  Forall entry_hashes_valid es ->
  wrap 64 (a + foldr (fun e t => CBEntry_MarshalledSize e + t) 0 es)
  = wrap 64 (a + len (body_bytes es)).
Proof.
  intros H. revert a. induction H as [|e es He Hes IH]; intros a; cbn [foldr].
  - reflexivity.
  - rewrite entry_size by exact He.
    rewrite (Z.add_comm (wrap 64 _)), Z.add_assoc, wrap64_add_r.
    rewrite <- Z.add_assoc, (Z.add_comm _ (len _)), Z.add_assoc, IH.
    f_equal. unfold body_bytes, len. cbn [map concat]. rewrite length_app. lia.
Qed.

(** X3: [CBlock.MarshalledSize] is the length of what [CBlock.MarshalBinary]
    writes, as a [uint64], whenever the hashes of the header and of the
    entries are valid. *)
Theorem CBlock_MarshalledSize_is_marshalled_length (b : CBlock) :
  header_hashes_valid (Header b) ->
  Forall entry_hashes_valid (CBEntries b) ->
  CBlock_MarshalledSize b = wrap 64 (len (fst (CBlock_MarshalBinary b))).
Proof.
  intros Vh Ves.
  unfold CBlock_MarshalledSize, CBlock_MarshalBinary. cbv zeta. cbn [fst].
  rewrite fold_marshal_entries, wrap64_add_l, fold_sizes.
  rewrite sum_entry_sizes by exact Ves.
  rewrite header_size by exact Vh.
  pose proof (header_length (Header b) Vh) as L.
  f_equal. unfold len in *. rewrite !length_app, be_encode_length. lia.
Qed.

Lemma unmarshal_names_bytes (names : list (list byte)) (rest : list byte) :
  Forall (fun n => len n < 2 ^ 64) names ->
  unmarshal_names (length names) (names_bytes names ++ rest) = Some names.
Proof.
  induction 1 as [|n names Hn Hns IH]; [reflexivity|].
  unfold names_bytes. cbn [map concat length unmarshal_names].
  fold (names_bytes names). rewrite <- !app_assoc.
  rewrite read_uint_encode_mod, uint_bytes8. cbn [mbind option_bind].
  rewrite Z.mod_small by (unfold len in *; lia).
  rewrite slice_to_app, slice_from_app. cbn [mbind option_bind].
  rewrite IH. reflexivity.
Qed.

(** X4: a chain survives [MarshalBinary] followed by [UnmarshalBinary]:
    the receiver ends with the chain ID and the name of the chain that was
    written, and keeps its own block counter, which is not marshalled. *)
Theorem CChain_round_trip (b recv : CChain) :
  valid_hash (cc_ChainID b) ->
  Z.of_nat (length (cc_Name b)) < 2 ^ 64 ->
  Forall (fun n => len n < 2 ^ 64) (cc_Name b) ->
  snd (CChain_MarshalBinary b) = false /\
  CChain_UnmarshalBinary recv (fst (CChain_MarshalBinary b))
  = Some (mkCChain (cc_ChainID b) (cc_Name b) (cc_NextBlockID recv)).
Proof.
  intros V Hc Hn. split; [reflexivity|]. use_valid V.
  unfold CChain_MarshalBinary, write_hash_unchecked. cbv zeta. cbn [fst].
  rewrite Hm. cbn [fst app].
  rewrite fold_marshal_names, <- app_assoc.
  unfold CChain_UnmarshalBinary.
  rewrite (slice_33 bs), (drop_33 bs) by assumption. cbn [mbind option_bind].
  erewrite unmarshal_exact by eassumption. cbn [mbind option_bind].
  rewrite read_uint_encode_mod, uint_bytes8. cbn [mbind option_bind].
  rewrite Z.mod_small by lia. rewrite Nat2Z.id.
  pose proof (unmarshal_names_bytes (cc_Name b) [] Hn) as E.
  rewrite app_nil_r in E. rewrite E. reflexivity.
Qed.

Lemma sum_name_sizes (names : list (list byte)) :
  foldr (fun bytes t => 8 + len bytes + t) 0 names = len (names_bytes names).
Proof.
  induction names as [|n names IH]; [reflexivity|].
  cbn [foldr]. rewrite IH. unfold names_bytes, len. cbn [map concat].
  rewrite !length_app, be_encode_length. lia.
Qed.

(** X5: [CChain.MarshalledSize] is the length of what [CChain.MarshalBinary]
    writes, as a [uint64], whenever the chain ID is a valid hash. *)
Theorem CChain_MarshalledSize_is_marshalled_length (b : CChain) :
  valid_hash (cc_ChainID b) ->
  CChain_MarshalledSize b = wrap 64 (len (fst (CChain_MarshalBinary b))).
Proof.
  intros V. use_valid V.
  unfold CChain_MarshalledSize, CChain_MarshalBinary, write_hash_unchecked.
  cbv zeta. cbn [fst]. rewrite Hm. cbn [fst app].
  rewrite fold_marshal_names.
  change (33 + 8) with (wrap 64 41).
  rewrite fold_name_sizes, sum_name_sizes.
  f_equal. unfold len in *. rewrite !length_app, be_encode_length. lia.
Qed.

End Codec.
End Common.

(* ===================================================================== *)
(** * A concrete hash, and the codec at concrete values *)
(* ===================================================================== *)

Module Hash32.
Import Mach Common.

(** Modelled from the spec: [common/hash.go] is not among the sources. The
    specification lays every hash field out on 33 bytes; the model is a
    digest of 32 bytes behind one byte that carries its length. *)
Record Hash : Type := mkHash { Bytes : list byte }.

Definition MarshalBinary (h : Hash) : list byte * bool :=
  (byte_of_Z (len (Bytes h)) :: Bytes h, false).

Definition MarshalledSize (h : Hash) : Z := wrap 64 (len (Bytes h) + 1).

Definition UnmarshalBinary (p : list byte) : option Hash :=
  p ← slice_from 1 p;
  d ← slice_to 32 p;
  Some (mkHash d).

Definition zero : Hash := mkHash (replicate 32 Byte.x00).

Definition valid : Hash -> Prop :=
  valid_hash Hash MarshalBinary MarshalledSize UnmarshalBinary.

Definition sample_header : CBlockHeader Hash :=
  mkCBlockHeader Hash zero zero zero zero 7 zero zero 1024.

Definition sample_buy : BuyCBEntry Hash :=
  mkBuyCBEntry Hash TYPE_BUY zero (-5) zero.

Definition sample_payentry : PayEntryCBEntry Hash :=
  mkPayEntryCBEntry Hash TYPE_PAY_ENTRY zero 3 zero (-1) [Byte.x01; Byte.x02; Byte.x03].

Definition sample_paychain : PayChainCBEntry Hash :=
  mkPayChainCBEntry Hash TYPE_PAY_CHAIN zero 10 zero zero zero [Byte.xff].

Definition sample_cbinfo : CBInfo Hash := mkCBInfo Hash zero zero 99 zero.

(** A signature of 2^32 zero bytes. The list is sealed behind its length:
    nothing below unfolds four gigabytes of it. *)
Definition long_sig_sealed : { l : list byte | len l = 2 ^ 32 }.
Proof.
  exists (replicate (Z.to_nat (2 ^ 32)) Byte.x00).
  unfold len. rewrite length_replicate. apply Z2Nat.id. lia.
Qed.

Definition long_sig : list byte := proj1_sig long_sig_sealed.

Definition long_sig_entry : PayEntryCBEntry Hash :=
  mkPayEntryCBEntry Hash TYPE_PAY_ENTRY zero 0 zero 0 long_sig.

(** A marshalled header, an entry count of one, and an entry that starts
    with [TYPE_SERVER_INDEX]. *)
Definition bad_block : list byte :=
  fst (CBlockHeader_MarshalBinary Hash MarshalBinary sample_header)
  ++ be_encode 8 1 ++ [TYPE_SERVER_INDEX].

Lemma valid_32 (h : Hash) : len (Bytes h) = 32 -> valid h.
Proof.
  intros Hl. unfold valid, valid_hash, MarshalledSize, MarshalBinary.
  rewrite Hl. split; [reflexivity|].
  eexists. split; [reflexivity|]. split.
  - unfold len in *. cbn [length]. lia.
  - intros rest. unfold UnmarshalBinary.
    cbn [app]. rewrite slice_from_1_cons. cbn [mbind option_bind].
    rewrite <- Hl, slice_to_app. cbn [mbind option_bind]. now destruct h.
Qed.

Lemma valid_zero : valid zero.
Proof. apply valid_32. reflexivity. Qed.

Lemma long_sig_len : len long_sig = 2 ^ 32.
Proof. exact (proj2_sig long_sig_sealed). Qed.

(** C8, witness: the round trip at one value of each of the five types. *)
Lemma marshal_unmarshal_round_trip_witness :
  round_trips (CBlockHeader_MarshalBinary Hash MarshalBinary)
              (CBlockHeader_UnmarshalBinary Hash MarshalledSize UnmarshalBinary)
              sample_header /\
  round_trips (BuyCBEntry_MarshalBinary Hash MarshalBinary)
              (BuyCBEntry_UnmarshalBinary Hash MarshalledSize UnmarshalBinary)
              sample_buy /\
  round_trips (PayEntryCBEntry_MarshalBinary Hash MarshalBinary)
              (PayEntryCBEntry_UnmarshalBinary Hash MarshalledSize UnmarshalBinary)
              sample_payentry /\
  round_trips (PayChainCBEntry_MarshalBinary Hash MarshalBinary)
              (PayChainCBEntry_UnmarshalBinary Hash MarshalledSize UnmarshalBinary)
              sample_paychain /\
  round_trips (CBInfo_MarshalBinary Hash MarshalBinary)
              (CBInfo_UnmarshalBinary Hash UnmarshalBinary)
              sample_cbinfo.
Proof.
  destruct (marshal_unmarshal_round_trip Hash MarshalBinary MarshalledSize UnmarshalBinary)
    as (A & B & C & D & E).
  pose proof valid_zero as V.
  split; [|split; [|split; [|split]]].
  - apply A; [do 5 (split; [exact V|]); exact V | split; vm_compute; split; congruence].
  - apply B; [split; exact V | vm_compute; split; congruence].
  - apply C; [split; exact V | split; vm_compute; split; congruence | reflexivity].
  - apply D; [do 3 (split; [exact V|]); exact V | vm_compute; split; congruence | reflexivity].
  - apply E; [do 2 (split; [exact V|]); exact V | vm_compute; split; congruence].
Defined.

(** C8, counterexample: an entry whose hash fields are valid and whose
    fields hold values of their types, and which the round trip does not
    give back. *)
Lemma long_signature_breaks_round_trip :
  payentry_hashes_valid Hash MarshalBinary MarshalledSize UnmarshalBinary long_sig_entry /\
  payentry_typed Hash long_sig_entry /\
  ~ round_trips (PayEntryCBEntry_MarshalBinary Hash MarshalBinary)
                (PayEntryCBEntry_UnmarshalBinary Hash MarshalledSize UnmarshalBinary)
                long_sig_entry.
Proof.
  assert (Hv : payentry_hashes_valid Hash MarshalBinary MarshalledSize UnmarshalBinary
                 long_sig_entry) by (split; exact valid_zero).
  split; [exact Hv|].
  split; [unfold payentry_typed, long_sig_entry, is_int; cbn [pe_credits pe_TimeStamp]; lia|].
  intros [_ Hrt].
  destruct (payentry_long_sig_lost Hash MarshalBinary MarshalledSize UnmarshalBinary
              long_sig_entry Hv long_sig_len) as (e' & He' & Hsig).
  rewrite Hrt in He'. injection He' as <-.
  pose proof long_sig_len as Hl.
  change (pe_Sig Hash long_sig_entry) with long_sig in Hsig.
  rewrite Hsig in Hl. discriminate Hl.
Qed.

(** C10, witness: the panic on a block of one entry of type 0. *)
Lemma CBlock_UnmarshalBinary_nil_entry_panics_witness :
  new_entry TYPE_SERVER_INDEX = None /\
  slot_UnmarshalBinary Hash MarshalledSize UnmarshalBinary
    (new_entry TYPE_SERVER_INDEX) [TYPE_SERVER_INDEX] = None /\
  CBlock_UnmarshalBinary Hash MarshalledSize UnmarshalBinary bad_block = Panic.
Proof.
  apply (CBlock_UnmarshalBinary_nil_entry_panics Hash MarshalledSize UnmarshalBinary
           bad_block (be_encode 8 1 ++ [TYPE_SERVER_INDEX]) [TYPE_SERVER_INDEX]
           sample_header 1 TYPE_SERVER_INDEX).
  - vm_compute. reflexivity.
  - vm_compute. reflexivity.
  - vm_compute. reflexivity.
  - lia.
  - reflexivity.
  - discriminate.
  - discriminate.
  - discriminate.
Defined.

(** A block built the way the package builds one: the constructors of the
    three entries, appended by [AddCBEntry]. *)
Definition sample_block : CBlock Hash :=
  AddCBEntry Hash
    (AddCBEntry Hash
       (AddCBEntry Hash (mkCBlock Hash sample_header [])
          (Buy Hash (NewBuyCBEntry Hash zero zero 5)))
       (PayEntry Hash (NewPayEntryCBEntry Hash zero zero 1 (-7) [Byte.x0a; Byte.x0b])))
    (PayChain Hash (NewPayChainCBEntry Hash zero zero 10 zero zero [Byte.xff])).

Definition sample_chain : CChain Hash :=
  mkCChain Hash zero [[Byte.x66; Byte.x6f; Byte.x6f]; []; [Byte.x62]] 12.

(** A receiver that holds another name and another block counter. *)
Definition other_chain : CChain Hash := mkCChain Hash zero [[Byte.x00]] 3.

Lemma sample_header_valid :
  header_hashes_valid Hash MarshalBinary MarshalledSize UnmarshalBinary sample_header.
Proof. pose proof valid_zero as V. do 5 (split; [exact V|]); exact V. Qed.

Lemma sample_block_entries_ok :
  Forall (entry_ok Hash MarshalBinary MarshalledSize UnmarshalBinary)
         (CBEntries Hash sample_block).
Proof.
  pose proof valid_zero as V.
  unfold sample_block, AddCBEntry. cbn [CBEntries app].
  apply Forall_cons_2; [|apply Forall_cons_2; [|apply Forall_cons_2; [|apply Forall_nil_2]]].
  - split; [split; exact V|]. split; [|reflexivity]. vm_compute; split; congruence.
  - split; [split; exact V|]. split; [|reflexivity].
    split; [split; vm_compute; split; congruence | reflexivity].
  - split; [do 3 (split; [exact V|]); exact V|]. split; [|reflexivity].
    split; [vm_compute; split; congruence | reflexivity].
Qed.

Lemma sample_block_entries_valid :
  Forall (entry_hashes_valid Hash MarshalBinary MarshalledSize UnmarshalBinary)
         (CBEntries Hash sample_block).
Proof.
  eapply Forall_impl; [exact sample_block_entries_ok|]. now intros e (V & _).
Qed.

(** X1, witness: the sizes at one value of each of the five types. *)
Lemma MarshalledSize_is_marshalled_length_witness :
  CBlockHeader_MarshalledSize Hash MarshalledSize sample_header
  = wrap 64 (len (fst (CBlockHeader_MarshalBinary Hash MarshalBinary sample_header))) /\
  BuyCBEntry_MarshalledSize Hash MarshalledSize sample_buy
  = wrap 64 (len (fst (BuyCBEntry_MarshalBinary Hash MarshalBinary sample_buy))) /\
  PayEntryCBEntry_MarshalledSize Hash MarshalledSize sample_payentry
  = wrap 64 (len (fst (PayEntryCBEntry_MarshalBinary Hash MarshalBinary sample_payentry))) /\
  PayChainCBEntry_MarshalledSize Hash MarshalledSize sample_paychain
  = wrap 64 (len (fst (PayChainCBEntry_MarshalBinary Hash MarshalBinary sample_paychain))) /\
  CBInfo_MarshalledSize Hash sample_cbinfo
  = wrap 64 (len (fst (CBInfo_MarshalBinary Hash MarshalBinary sample_cbinfo))).
Proof.
  destruct (MarshalledSize_is_marshalled_length Hash MarshalBinary MarshalledSize
              UnmarshalBinary) as (A & B & C & D & E).
  pose proof valid_zero as V.
  split; [|split; [|split; [|split]]].
  - apply A. exact sample_header_valid.
  - apply B. split; exact V.
  - apply C. split; exact V.
  - apply D. do 3 (split; [exact V|]); exact V.
  - apply E. do 2 (split; [exact V|]); exact V.
Defined.

(** X2, witness: a block of three entries read back from its bytes. *)
Lemma CBlock_round_trip_witness :
  snd (CBlock_MarshalBinary Hash MarshalBinary sample_block) = false /\
  CBlock_UnmarshalBinary Hash MarshalledSize UnmarshalBinary
    (fst (CBlock_MarshalBinary Hash MarshalBinary sample_block)) = Ok sample_block.
Proof.
  apply (CBlock_round_trip Hash MarshalBinary MarshalledSize UnmarshalBinary sample_block).
  - exact sample_header_valid.
  - vm_compute; split; split; congruence.
  - exact sample_block_entries_ok.
  - vm_compute. reflexivity.
Defined.

(** X3, witness: the size of that block. *)
Lemma CBlock_MarshalledSize_is_marshalled_length_witness :
  CBlock_MarshalledSize Hash MarshalledSize sample_block
  = wrap 64 (len (fst (CBlock_MarshalBinary Hash MarshalBinary sample_block))).
Proof.
  apply (CBlock_MarshalledSize_is_marshalled_length Hash MarshalBinary MarshalledSize
           UnmarshalBinary sample_block).
  - exact sample_header_valid.
  - exact sample_block_entries_valid.
Defined.

(** X4, witness: a chain with three names, one of them empty, read into a
    receiver that held something else. *)
Lemma CChain_round_trip_witness :
  snd (CChain_MarshalBinary Hash MarshalBinary sample_chain) = false /\
  CChain_UnmarshalBinary Hash UnmarshalBinary other_chain
    (fst (CChain_MarshalBinary Hash MarshalBinary sample_chain))
  = Some (mkCChain Hash zero [[Byte.x66; Byte.x6f; Byte.x6f]; []; [Byte.x62]] 3).
Proof.
  apply (CChain_round_trip Hash MarshalBinary MarshalledSize UnmarshalBinary
           sample_chain other_chain).
  - exact valid_zero.
  - vm_compute. reflexivity.
  - unfold sample_chain. cbn [cc_Name].
    apply Forall_cons_2; [reflexivity|].
    apply Forall_cons_2; [reflexivity|].
    apply Forall_cons_2; [reflexivity|]. apply Forall_nil_2.
Defined.

(** X5, witness: the size of that chain. *)
Lemma CChain_MarshalledSize_is_marshalled_length_witness :
  CChain_MarshalledSize Hash sample_chain
  = wrap 64 (len (fst (CChain_MarshalBinary Hash MarshalBinary sample_chain))).
Proof.
  apply (CChain_MarshalledSize_is_marshalled_length Hash MarshalBinary MarshalledSize
           UnmarshalBinary sample_chain).
  exact valid_zero.
Defined.

End Hash32.

(* ===================================================================== *)
(** * Package [server]: peer manager, federate roster, leader machine *)
(* ===================================================================== *)

Module Server.
Import Mach.

(** Sequencing of calls that may panic: [None] is the panic. *)
Notation "'let?' p := m 'in' k" :=
  (match m with Some p => k | None => None end)
  (at level 10, p pattern, m at level 100, k at level 200, only parsing).

(** [wire.NodeState]. *)
Inductive NodeState : Type :=
| NodeCandidate
| NodeFollower
| NodeLeaderElect
| NodeLeader
| NodeLeaderPrev.

#[global] Instance NodeState_eq_dec : EqDecision NodeState.
Proof. solve_decision. Defined.

(** A [*peer]: a location in the heap of peer objects. The nil pointer and
    a location the heap does not hold are the same thing here; reading or
    writing through either panics. *)
Definition loc : Type := nat.

(** [wire.NetAddress], as far as this code looks into it. *)
Record NetAddress : Type := mkNetAddress { na_IP : string; na_Port : Z }.

(** [addrmgr.KnownAddress]: [NetAddress()] and [LastAttempt()], the latter
    in seconds on the clock that [time.Now()] reads. *)
Record KnownAddress : Type := mkKnownAddress { ka_na : NetAddress; ka_lastAttempt : Z }.

(** The fields of [peer] that the peer manager reads or writes. *)
Record peer : Type := mkPeer {
  addr : string;
  nodeID : string;
  nodeType : string;
  nodeState : NodeState;
  inbound : bool;
  persistent : bool;
  na : NetAddress;
  retryCount : Z
}.

Record federateServer : Type := mkFederateServer {
  Peer : loc;
  StartTime : Z;          (* int64 *)
  FirstJoined : Z;        (* uint32 *)
  FirstAsFollower : Z;    (* uint32 *)
  LastSuccessVote : Z;    (* uint32 *)
  LeaderLast : Z          (* uint32 *)
}.

Record leaderPolicy : Type := mkLeaderPolicy {
  NextLeader : loc;
  StartDBHeight : Z;      (* uint32 *)
  Term : Z;               (* uint32 *)
  NotifyDBHeight : Z;     (* uint32 *)
  Notified : bool;
  Confirmed : bool
}.

(** [common.Signature]: opaque bytes to this code. *)
Definition Signature : Type := list byte.

(** [wire.NewNextLeaderMsg] and [wire.NewCurrentLeaderMsg]. *)
Inductive Message : Type :=
| NextLeaderMsg (currentID nextID : string) (startHeight : Z) (sig : Signature)
| CurrentLeaderMsg (deadID newID sourceID : string) (height : Z) (sig : Signature).

(** What the code does to the world outside its own state, in order:
    a message handed to [BroadcastMessage], [p.Shutdown()], [p.Start()],
    a peer built by [newOutboundPeer], the processor's [resetLeaderState]. *)
Inductive event : Type :=
| EvBroadcast (m : Message)
| EvShutdown (p : loc)
| EvStart (p : loc)
| EvNewOutbound (p : loc)
| EvResetLeaderState.

(** [server], with the two package-level variables the code touches. *)
Record server : Type := mkServer {
  heap : gmap loc peer;
  s_nodeID : string;
  s_nodeType : string;
  shutdown : Z;                       (* int32, atomic *)
  federateServers : list federateServer;
  myLeaderPolicy : option leaderPolicy;
  leaderCrashed : bool;               (* var leaderCrashed *)
  prevConnected : Z;                  (* var prevConnected *)
  trace : list event
}.

Record peerState : Type := mkPeerState {
  peers : gset loc;
  outboundPeers : gset loc;
  persistentPeers : gset loc;
  banned : gmap string Z;             (* host -> end of the ban *)
  outboundGroups : gmap string Z;
  maxOutboundPeers : Z
}.

(** What the repository takes from outside: other packages, the Go
    library, the configuration. *)
Record externals : Type := mkExternals {
  SERVER_NODE : string;                                 (* common.SERVER_NODE *)
  Sign : string -> Signature;                           (* s.privKey.Sign *)
  Itoa : Z -> string;                                   (* strconv.Itoa, fmt "%d" *)
  sort_by : (federateServer -> federateServer -> bool) ->
            list federateServer -> list federateServer; (* sort.Sort *)
  SplitHostPort : string -> option (string * string);   (* net.SplitHostPort *)
  GroupKey : NetAddress -> string;                      (* addrmgr.GroupKey *)
  NetAddressKey : NetAddress -> string;                 (* addrmgr.NetAddressKey *)
  newPeer : string -> bool -> Z -> option peer;         (* fields set by newOutboundPeer *)
  MaxPeers : Z;                                         (* cfg.MaxPeers *)
  SimNet : bool;                                        (* cfg.SimNet *)
  ConnectPeers : list string;                           (* cfg.ConnectPeers *)
  DefaultPort : string                                  (* activeNetParams.DefaultPort *)
}.

(** [sort.Sort] on an order given by an integer key ([Less] compares the
    keys with [<]): the outcome is a permutation with the keys in ascending
    order. Nothing more is promised; the sort is not stable. *)
Definition sort_contract (X : externals) : Prop :=
  forall (key : federateServer -> Z) (l : list federateServer),
    let sorted := sort_by X (fun a b => key a <? key b) l in
    Permutation sorted l /\
    forall i j a b, (i < j)%nat ->
      sorted !! i = Some a -> sorted !! j = Some b -> key a <= key b.

Definition defaultMaxOutbound : Z := 8.
Definition defaultLeaderTerm : Z := 2.
Definition defaultNotifyDBHeight : Z := 1.

(* ----- Field updates -------------------------------------------------- *)

Definition with_heap (s : server) (h : gmap loc peer) : server :=
  mkServer h (s_nodeID s) (s_nodeType s) (shutdown s) (federateServers s)
           (myLeaderPolicy s) (leaderCrashed s) (prevConnected s) (trace s).

Definition with_federateServers (s : server) (l : list federateServer) : server :=
  mkServer (heap s) (s_nodeID s) (s_nodeType s) (shutdown s) l
           (myLeaderPolicy s) (leaderCrashed s) (prevConnected s) (trace s).

Definition with_policy (s : server) (p : option leaderPolicy) : server :=
  mkServer (heap s) (s_nodeID s) (s_nodeType s) (shutdown s) (federateServers s)
           p (leaderCrashed s) (prevConnected s) (trace s).

Definition with_prevConnected (s : server) (n : Z) : server :=
  mkServer (heap s) (s_nodeID s) (s_nodeType s) (shutdown s) (federateServers s)
           (myLeaderPolicy s) (leaderCrashed s) n (trace s).

Definition emit (s : server) (e : event) : server :=
  mkServer (heap s) (s_nodeID s) (s_nodeType s) (shutdown s) (federateServers s)
           (myLeaderPolicy s) (leaderCrashed s) (prevConnected s) (trace s ++ [e]).

Definition with_nodeState (p : peer) (ns : NodeState) : peer :=
  mkPeer (addr p) (nodeID p) (nodeType p) ns (inbound p) (persistent p) (na p)
         (retryCount p).

Definition with_LeaderLast (fs : federateServer) (h : Z) : federateServer :=
  mkFederateServer (Peer fs) (StartTime fs) (FirstJoined fs) (FirstAsFollower fs)
                   (LastSuccessVote fs) h.

Definition with_StartDBHeight (P : leaderPolicy) (h : Z) : leaderPolicy :=
  mkLeaderPolicy (NextLeader P) h (Term P) (NotifyDBHeight P) (Notified P) (Confirmed P).

Definition with_Notified (P : leaderPolicy) (b : bool) : leaderPolicy :=
  mkLeaderPolicy (NextLeader P) (StartDBHeight P) (Term P) (NotifyDBHeight P) b
                 (Confirmed P).

(* ----- The roster: lookups -------------------------------------------- *)

(** [for _, fs := range s.federateServers { if <test fs.Peer> { return
    fs.Peer } }; return nil]. The outer [None] is the panic of reading
    through an [fs.Peer] that points nowhere. *)
Fixpoint find_peer (h : gmap loc peer) (test : peer -> bool)
    (l : list federateServer) : option (option loc) :=
  match l with
  | [] => Some None
  | fs :: rest =>
      let? p := h !! Peer fs in
      if test p then Some (Some (Peer fs)) else find_peer h test rest
  end.

(** The same loop, returning the slot of the roster ([*federateServer]). *)
Fixpoint find_fed (h : gmap loc peer) (test : peer -> bool)
    (l : list federateServer) (i : nat) : option (option nat) :=
  match l with
  | [] => Some None
  | fs :: rest =>
      let? p := h !! Peer fs in
      if test p then Some (Some i) else find_fed h test rest (S i)
  end.

Definition has_state (ns : NodeState) (p : peer) : bool := bool_decide (nodeState p = ns).
Definition has_id (pid : string) (p : peer) : bool := bool_decide (nodeID p = pid).

Definition GetPeer (s : server) (ns : NodeState) : option (option loc) :=
  find_peer (heap s) (has_state ns) (federateServers s).

Definition GetPeerByID (s : server) (pid : string) : option (option loc) :=
  find_peer (heap s) (has_id pid) (federateServers s).

Definition GetLeaderElect (s : server) := GetPeer s NodeLeaderElect.
Definition GetLeaderPeer (s : server) := GetPeer s NodeLeader.
Definition GetPrevLeaderPeer (s : server) := GetPeer s NodeLeaderPrev.

Definition GetFederateServerByID (s : server) (pid : string) : option (option nat) :=
  find_fed (heap s) (has_id pid) (federateServers s) 0.

Definition GetMyFederateServer (s : server) : option (option nat) :=
  GetFederateServerByID s (s_nodeID s).

(** [s.GetMyFederateServer().Peer.nodeState]. *)
Definition my_state (s : server) : option NodeState :=
  let? oi := GetMyFederateServer s in
  let? i := oi in
  let? fs := federateServers s !! i in
  let? p := heap s !! Peer fs in
  Some (nodeState p).

Definition IsCandidate (s : server) : option bool :=
  let? st := my_state s in Some (bool_decide (st = NodeCandidate)).
Definition IsLeaderElect (s : server) : option bool :=
  let? st := my_state s in Some (bool_decide (st = NodeLeaderElect)).
Definition IsLeader (s : server) : option bool :=
  let? st := my_state s in Some (bool_decide (st = NodeLeader)).
Definition IsPrevLeader (s : server) : option bool :=
  let? st := my_state s in Some (bool_decide (st = NodeLeaderPrev)).

Section WithExternals.
Variable X : externals.

Definition FederateServerCount (s : server) : Z :=
  if bool_decide (s_nodeType s = SERVER_NODE X)
  then Z.of_nat (length (federateServers s)) else 0.

Definition isSingleServerMode (s : server) : bool := FederateServerCount s =? 1.

(** Modelled from the spec: [peer.IsCandidate] is declared in [peer.go],
    which is not among the sources; a peer is a candidate when its role is
    [Candidate]. *)
Definition peer_IsCandidate (p : peer) : bool := has_state NodeCandidate p.

Fixpoint partition_candidates (h : gmap loc peer) (l : list federateServer)
    : option (list federateServer * list federateServer) :=
  match l with
  | [] => Some ([], [])
  | fs :: rest =>
      let? p := h !! Peer fs in
      let? (fservers, candidates) := partition_candidates h rest in
      if peer_IsCandidate p then Some (fservers, fs :: candidates)
      else Some (fs :: fservers, candidates)
  end.

Definition nonCandidateServers (s : server)
    : option (list federateServer * list federateServer) :=
  partition_candidates (heap s) (federateServers s).

(* ----- The roster: role mutators -------------------------------------- *)

(** [p.nodeState = ns]. *)
Definition set_nodeState (s : server) (p : loc) (ns : NodeState) : option server :=
  let? pr := heap s !! p in
  Some (with_heap s (<[p := with_nodeState pr ns]> (heap s))).

(** [if peer != nil { peer.nodeState = ns }]. *)
Definition demote (s : server) (old : option loc) (ns : NodeState) : option server :=
  match old with
  | Some q => set_nodeState s q ns
  | None => Some s
  end.

Definition SetLeaderPeer (s : server) (p : loc) : option server :=
  let? old := GetLeaderPeer s in
  let? s := demote s old NodeLeaderPrev in
  set_nodeState s p NodeLeader.

Definition SetLeaderPeerByID (s : server) (pid : string) : option server :=
  let? old := GetLeaderPeer s in
  let? s := demote s old NodeLeaderPrev in
  let? found := GetPeerByID s pid in
  demote s found NodeLeader.

Definition setLeaderElect (s : server) (p : loc) : option server :=
  let? old := GetPeer s NodeLeaderElect in
  let? s := demote s old NodeFollower in
  set_nodeState s p NodeLeaderElect.

Definition setLeaderElectByID (s : server) (pid : string) : option server :=
  let? old := GetPeer s NodeLeaderElect in
  let? s := demote s old NodeFollower in
  let? found := GetPeerByID s pid in
  demote s found NodeLeaderElect.

Definition SetPrevLeaderPeer (s : server) (p : loc) : option server :=
  let? old := GetPeer s NodeLeaderPrev in
  let? s := demote s old NodeFollower in
  set_nodeState s p NodeLeaderPrev.

Definition SetPrevLeaderByID (s : server) (pid : string) : option server :=
  let? old := GetPeer s NodeLeaderPrev in
  let? s := demote s old NodeFollower in
  let? found := GetPeerByID s pid in
  demote s found NodeLeaderPrev.

(* ----- The leader machine ---------------------------------------------- *)

(** [s.GetFederateServerByID(pid).LeaderLast = height]; a nil result panics. *)
Definition set_LeaderLast (s : server) (pid : string) (height : Z) : option server :=
  let? oi := GetFederateServerByID s pid in
  let? i := oi in
  let? fs := federateServers s !! i in
  Some (with_federateServers s (<[i := with_LeaderLast fs height]> (federateServers s))).

(** [nodeID] read through a pointer. *)
Definition id_of (s : server) (p : loc) : option string :=
  let? pr := heap s !! p in Some (nodeID pr).

Definition sendCurrentLeaderMsg (s : server) (deadLeader newLeader source : string)
    (h : Z) : option server :=
  let? s := SetLeaderPeerByID s (s_nodeID s) in
  let? oi := GetMyFederateServer s in
  let? i := oi in
  let? fs := federateServers s !! i in
  let policy := mkLeaderPolicy (Peer fs) h defaultLeaderTerm defaultNotifyDBHeight
                               false false in
  let s := with_policy s (Some policy) in
  let sig := Sign X (deadLeader +:+ newLeader +:+ source +:+ Itoa X h) in
  let s := emit s (EvBroadcast (CurrentLeaderMsg deadLeader newLeader source h sig)) in
  Some (if leaderCrashed s then emit s EvResetLeaderState else s).

(** [for _, fed := range nonCandidates { if fed.Peer.nodeID != s.nodeID
    { next = fed; break } }]. *)
Fixpoint first_other (h : gmap loc peer) (self : string) (l : list federateServer)
    : option (option federateServer) :=
  match l with
  | [] => Some None
  | fed :: rest =>
      let? p := h !! Peer fed in
      if bool_decide (nodeID p <> self) then Some (Some fed)
      else first_other h self rest
  end.

Definition ByLeaderLast (a b : federateServer) : bool := LeaderLast a <? LeaderLast b.
Definition ByStartTime (a b : federateServer) : bool := StartTime a <? StartTime b.

(** [len(nonCandidates) == 1 && nonCandidates[0].Peer.nodeID == s.nodeID]. *)
Definition only_me (s : server) (nonCandidates : list federateServer) : option bool :=
  match nonCandidates with
  | [fs] => let? p := heap s !! Peer fs in Some (bool_decide (nodeID p = s_nodeID s))
  | _ => Some false
  end.

Definition selectNextLeader (s : server) (height : Z) : option server :=
  let? isLeader := IsLeader s in
  if negb isLeader then Some s else
  let? (nonCandidates, candidates) := nonCandidateServers s in
  let? alone := only_me s nonCandidates in
  if alone then
    let? P := myLeaderPolicy s in
    Some (with_policy s (Some (with_StartDBHeight P (add32 height 3))))
  else
    let nonCandidates := sort_by X ByLeaderLast nonCandidates in
    let? next := first_other (heap s) (s_nodeID s) nonCandidates in
    match next with
    | None => Some s
    | Some next =>
        let? P := myLeaderPolicy s in
        let h := add32 (StartDBHeight P) (Term P) in
        let? nextID := id_of s (Peer next) in
        let sig := Sign X (s_nodeID s +:+ nextID) in
        let s := emit s (EvBroadcast (NextLeaderMsg (s_nodeID s) nextID h sig)) in
        let? P := myLeaderPolicy s in
        Some (with_policy s (Some (with_Notified P true)))
    end.

(** [prevID := (empty); prev := s.GetLeaderPeer(); if prev != nil { prevID =
    prev.nodeID }]. *)
Definition leader_id_or_empty (s : server) : option string :=
  let? prev := GetLeaderPeer s in
  match prev with
  | Some q => id_of s q
  | None => Some EmptyString
  end.

Definition selectCurrentleader (s : server) (height : Z) : option server :=
  let? isLeader := IsLeader s in
  if isLeader then Some s else
  let? (nonCandidates, candidates) := nonCandidateServers s in
  if bool_decide (nonCandidates = []) && bool_decide (candidates <> []) then Some s else
  let? isCandidate := IsCandidate s in
  let? onlyFollower := (if negb isCandidate then only_me s nonCandidates else Some false) in
  let? isLeaderElect := IsLeaderElect s in
  if isLeaderElect || onlyFollower then
    let? prevID := leader_id_or_empty s in
    sendCurrentLeaderMsg s prevID (s_nodeID s) (s_nodeID s) (add32 height 1)
  else
    let tenure (s : server) :=
      match sort_by X ByStartTime nonCandidates with
      | [] => None
      | first :: _ =>
          let? firstID := id_of s (Peer first) in
          if bool_decide (firstID = s_nodeID s) then
            let? prevID := leader_id_or_empty s in
            sendCurrentLeaderMsg s prevID (s_nodeID s) (s_nodeID s) (add32 height 1)
          else Some s
      end in
    let? isLeaderElect := IsLeaderElect s in
    if negb isLeaderElect then
      let? elect := GetLeaderElect s in
      match elect with
      | Some _ => Some s
      | None =>
          let? prev := GetPrevLeaderPeer s in
          match prev with
          | Some q =>
              let? isCandidate := IsCandidate s in
              let? prevID := id_of s q in
              if negb isCandidate && bool_decide (prevID = s_nodeID s) then
                sendCurrentLeaderMsg s prevID (s_nodeID s) (s_nodeID s) (add32 height 1)
              else Some s
          | None => tenure s
          end
      end
    else tenure s.

Definition handleNextLeader (s : server) (height : Z) : option server :=
  let? isLeader := IsLeader s in
  let? isLeaderElect := (if isLeader then Some false else IsLeaderElect s) in
  if negb isLeader && negb isLeaderElect then Some s else
  if isSingleServerMode s then
    let? P := myLeaderPolicy s in
    Some (with_policy s (Some (with_StartDBHeight P (add32 height 1))))
  else
  let? isLeaderElect := IsLeaderElect s in
  if isLeaderElect then
    let? P := myLeaderPolicy s in
    if StartDBHeight P <? height then Some s
    else if height =? sub32 (StartDBHeight P) 1 then
      let? leader := GetLeaderPeer s in
      let? (leaderID, s) :=
        match leader with
        | Some q =>
            let? leaderID := id_of s q in
            let? s := set_LeaderLast s leaderID height in
            Some (leaderID, s)
        | None => Some (EmptyString, s)
        end in
      sendCurrentLeaderMsg s leaderID (s_nodeID s) (s_nodeID s) (add32 height 1)
    else Some s
  else
    let? P := myLeaderPolicy s in
    if add32 (StartDBHeight P) (Term P) <? height then Some s
    else if height =? sub32 (add32 (StartDBHeight P) (NotifyDBHeight P)) 1 then
      selectNextLeader s height
    else if height =? sub32 (add32 (StartDBHeight P) (Term P)) 1 then
      let? s := SetPrevLeaderByID s (s_nodeID s) in
      let? elect := GetLeaderElect s in
      let? s := match elect with
                | Some e => SetLeaderPeer s e
                | None => Some s
                end in
      let s := with_policy s None in
      set_LeaderLast s (s_nodeID s) height
    else Some s.

(* ----- The peer manager ------------------------------------------------ *)

Definition Count (st : peerState) : Z :=
  Z.of_nat (size (peers st)) + Z.of_nat (size (outboundPeers st))
  + Z.of_nat (size (persistentPeers st)).

Definition OutboundCount (st : peerState) : Z :=
  Z.of_nat (size (outboundPeers st)) + Z.of_nat (size (persistentPeers st)).

Definition NeedMoreOutbound (st : peerState) : bool :=
  (OutboundCount st <? maxOutboundPeers st) && (Count st <? MaxPeers X).

Definition with_banned (st : peerState) (b : gmap string Z) : peerState :=
  mkPeerState (peers st) (outboundPeers st) (persistentPeers st) b
              (outboundGroups st) (maxOutboundPeers st).

(** [state.peers[p] = struct{}{}]. *)
Definition add_inbound (st : peerState) (p : loc) : peerState :=
  mkPeerState ({[p]} ∪ peers st) (outboundPeers st) (persistentPeers st) (banned st)
              (outboundGroups st) (maxOutboundPeers st).

(** [state.outboundGroups[key]++], then the persistent or the transient map. *)
Definition add_outbound (st : peerState) (p : loc) (key : string) (persist : bool)
    : peerState :=
  let groups := <[key := default 0 (outboundGroups st !! key) + 1]> (outboundGroups st) in
  if persist
  then mkPeerState (peers st) (outboundPeers st) ({[p]} ∪ persistentPeers st) (banned st)
                   groups (maxOutboundPeers st)
  else mkPeerState (peers st) ({[p]} ∪ outboundPeers st) (persistentPeers st) (banned st)
                   groups (maxOutboundPeers st).

(** [for _, fed := range s.federateServers { if fed.Peer.addr == p.addr ||
    fed.Peer.nodeID == p.nodeID { ... return false } }]. *)
Fixpoint duplicated (h : gmap loc peer) (p : peer) (l : list federateServer)
    : option bool :=
  match l with
  | [] => Some false
  | fed :: rest =>
      let? q := h !! Peer fed in
      if bool_decide (addr q = addr p) || bool_decide (nodeID q = nodeID p)
      then Some true
      else duplicated h p rest
  end.

(** [p.Shutdown(); return false]. *)
Definition refuse (s : server) (st : peerState) (p : loc)
    : option (bool * server * peerState) :=
  Some (false, emit s (EvShutdown p), st).

(** [handleAddPeerMsg]; [now] is what [time.Now()] reads during the call,
    [p] the pointer received ([None] for nil). *)
Definition handleAddPeerMsg (now : Z) (s : server) (st : peerState) (p : option loc)
    : option (bool * server * peerState) :=
  match p with
  | None => Some (false, s, st)
  | Some p =>
      if negb (shutdown s =? 0) then refuse s st p else
      let? pr := heap s !! p in
      let? dup := duplicated (heap s) pr (federateServers s) in
      if dup then refuse s st p else
      match SplitHostPort X (addr pr) with
      | None => refuse s st p
      | Some (host, _) =>
          let after_ban (st : peerState) :=
            let peerCount := Count st in
            let s := if negb (prevConnected s =? peerCount)
                     then with_prevConnected s peerCount else s in
            if MaxPeers X <=? Count st then refuse s st p
            else if inbound pr then Some (true, emit s (EvStart p), add_inbound st p)
            else Some (true, s, add_outbound st p (GroupKey X (na pr)) (persistent pr)) in
          match banned st !! host with
          | Some banEnd =>
              if now <? banEnd then refuse s st p
              else after_ban (with_banned st (delete host (banned st)))
          | None => after_ban st
          end
      end
  end.

(** Modelled from the spec: [newOutboundPeer] is declared in [peer.go],
    which is not among the sources. By the specification the dialer step
    "only constructs a Peer object"; the object is put at a fresh location
    of the heap, and a nil result is [None]. *)
Definition newOutboundPeer (s : server) (address : string) (persist : bool)
    (retry : Z) : option loc * server :=
  match newPeer X address persist retry with
  | None => (None, s)
  | Some pr =>
      let l := fresh (dom (heap s)) in
      (Some l, emit (with_heap s (<[l := pr]> (heap s))) (EvNewOutbound l))
  end.

(** What one round of the replenishment loop decides about the address
    that [GetAddress] handed out. *)
Inductive verdict : Type :=
| Break
| Skip (tries : Z)
| Connect (addrStr : string).

(** The loop body from [addr := s.addrManager.GetAddress("any")] down to
    [addrStr := ...]; the clock counts seconds, so ten minutes are 600. *)
Definition peerHandler_examine (now : Z) (st : peerState) (tries : Z) (a : option KnownAddress)
    : verdict :=
  match a with
  | None => Break
  | Some a =>
      let key := GroupKey X (ka_na a) in
      if negb (default 0 (outboundGroups st !! key) =? 0) then Break else
      let tries := tries + 1 in
      if 100 <? tries then Break else
      if (ka_lastAttempt a + 600 <? now) && (tries <? 30) then Skip tries else
      if negb (bool_decide (Itoa X (na_Port (ka_na a)) = DefaultPort X)) && (tries <? 50)
      then Skip tries
      else Connect (NetAddressKey X (ka_na a))
  end.

(** [for state.NeedMoreOutbound() && atomic.LoadInt32(&s.shutdown) == 0
    { ... }]. Each round consumes one answer of the address manager together
    with the clock reading of that round; the loop is cut when the answers
    run out. *)
Fixpoint peerHandler_replenish (answers : list (Z * option KnownAddress)) (s : server)
    (st : peerState) (tries : Z) : option (server * peerState) :=
  match answers with
  | [] => Some (s, st)
  | (now, a) :: rest =>
      if NeedMoreOutbound st && (shutdown s =? 0) then
        match peerHandler_examine now st tries a with
        | Break => Some (s, st)
        | Skip tries => peerHandler_replenish rest s st tries
        | Connect addrStr =>
            let '(p, s) := newOutboundPeer s addrStr false 0 in
            let? (_, s, st) := handleAddPeerMsg now s st p in
            peerHandler_replenish rest s st 0
        end
      else Some (s, st)
  end.

(** What [peerHandler] does after it has handled an event: nothing on the
    simulation network, nothing when no more outbound peers are needed, a
    list of peers to connect to is configured or the server shuts down;
    else the loop above, from [tries := 0]. *)
Definition peerHandler_after_event (answers : list (Z * option KnownAddress))
    (s : server) (st : peerState) : option (server * peerState) :=
  if SimNet X then Some (s, st)
  else if negb (NeedMoreOutbound st) || negb (bool_decide (ConnectPeers X = []))
          || negb (shutdown s =? 0)
  then Some (s, st)
  else peerHandler_replenish answers s st 0.

(* ----- randomUint16Number ---------------------------------------------- *)

Definition MaxUint16 : Z := 65535.

(** [(math.MaxUint16 / max) * max], in [uint16]. *)
Definition limitRange (max : Z) : Z := wrap 16 ((MaxUint16 / max) * max).

(** What a call comes to on a given run of the random source. *)
Inductive draw : Type :=
| Drawn (v : Z) (rest : list Z)   (* returned [v]; [rest] was not read *)
| DivideByZero                    (* the panic of [math.MaxUint16 / 0] *)
| Starved.                        (* every sample given was rejected *)

(** [for { binary.Read(rand.Reader, ..., &randomNumber); if randomNumber <
    limitRange { return randomNumber % max } }], on the samples the reader
    gives when every read succeeds. The loop over reads that may fail is
    [read_loop] below; [reads_all_succeed] relates the two. *)
Fixpoint sample_loop (max limit : Z) (samples : list Z) : draw :=
  match samples with
  | [] => Starved
  | randomNumber :: rest =>
      if randomNumber <? limit then Drawn (randomNumber mod max) rest
      else sample_loop max limit rest
  end.

Definition randomUint16Number (max : Z) (samples : list Z) : draw :=
  if max =? 0 then DivideByZero else sample_loop max (limitRange max) samples.

(** What a call comes to on a run of reads of which some may fail. *)
Inductive draw_of_reads : Type :=
| Returned (v : Z) (unread : list (option Z))   (* returned [v] *)
| Panics                                        (* [math.MaxUint16 / 0] *)
| Exhausted.                                    (* every read given led to another *)

(** The same loop when a read may fail. The error of [binary.Read] is
    dropped, and a failed read leaves [randomNumber] as it was, so the test
    that follows sees the value of the last read that succeeded, or the 0
    the variable starts with. A read is [Some v] when it gave the sample
    [v] and [None] when it failed. *)
Fixpoint read_loop (max limit randomNumber : Z) (reads : list (option Z))
    : draw_of_reads :=
  match reads with
  | [] => Exhausted
  | r :: rest =>
      let randomNumber := match r with
                          | Some v => v
                          | None => randomNumber
                          end in
      if randomNumber <? limit then Returned (randomNumber mod max) rest
      else read_loop max limit randomNumber rest
  end.

(** [randomUint16Number], reads that fail included. *)
Definition randomUint16Number_reads (max : Z) (reads : list (option Z)) : draw_of_reads :=
  if max =? 0 then Panics else read_loop max (limitRange max) 0 reads.

(* ===================================================================== *)
(** ** Properties: [randomUint16Number] *)
(* ===================================================================== *)

Lemma limitRange_exact (max : Z) :
  1 <= max <= 65535 -> limitRange max = (65535 / max) * max.
Proof.
  intros H. unfold limitRange, MaxUint16, wrap.
  assert (0 <= 65535 / max) by (apply Z.div_pos; lia).
  assert (max * (65535 / max) <= 65535) by (apply Z.mul_div_le; lia).
  apply Z.mod_small. change (2 ^ 16) with 65536. nia.
Qed.

(** Where [max] does not divide 65536 the two thresholds are the same. *)
Lemma threshold_65536 (max : Z) :
  1 <= max <= 65535 -> 65536 mod max <> 0 -> 65535 / max = 65536 / max.
Proof.
  intros H Hr.
  pose proof (Z.div_mod 65536 max ltac:(lia)) as E.
  pose proof (Z.mod_pos_bound 65536 max ltac:(lia)) as B.
  symmetry. apply (Z.div_unique 65535 max (65536 / max) (65536 mod max - 1)); lia.
Qed.

(** C7 (as amended): for [max] in [1, 65535] the rejection region of
    [randomUint16Number] is exactly the samples [v >= (65535 / max) * max]:
    a sample below the threshold is accepted and [v mod max] returned, a
    sample at or above it is rejected and the next one is read. The
    threshold is that of the claim, [(65536 / max) * max], whenever [max]
    does not divide 65536. *)
Theorem randomUint16Number_rejection_region (max v : Z) (rest : list Z) :
  1 <= max <= 65535 ->
  (v < (65535 / max) * max ->
     randomUint16Number max (v :: rest) = Drawn (v mod max) rest) /\
  ((65535 / max) * max <= v ->
     randomUint16Number max (v :: rest) = randomUint16Number max rest) /\
  (65536 mod max <> 0 -> (65535 / max) * max = (65536 / max) * max).
Proof.
  intros H. unfold randomUint16Number.
  destruct (Z.eqb_spec max 0) as [->|_]; [lia|].
  rewrite limitRange_exact by assumption. cbn [sample_loop].
  split; [|split].
  - intros Hv. destruct (Z.ltb_spec v (65535 / max * max)); [reflexivity|lia].
  - intros Hv. destruct (Z.ltb_spec v (65535 / max * max)); [lia|reflexivity].
  - intros Hr. now rewrite threshold_65536.
Qed.

(** C7, witness: [max = 1800], the bound of the rebroadcast timer. *)
Lemma randomUint16Number_rejection_region_witness :
  (1799 < (65535 / 1800) * 1800 ->
     randomUint16Number 1800 [1799; 5] = Drawn (1799 mod 1800) [5]) /\
  ((65535 / 1800) * 1800 <= 1799 ->
     randomUint16Number 1800 [1799; 5] = randomUint16Number 1800 [5]) /\
  (65536 mod 1800 <> 0 -> (65535 / 1800) * 1800 = (65536 / 1800) * 1800).
Proof. apply (randomUint16Number_rejection_region 1800 1799 [5]). lia. Defined.

(** C7, counterexample: with [max = 2] the sample 65534 lies below
    [(65536 / 2) * 2] and yet is rejected; the call goes on to the next
    sample. *)
Lemma power_of_two_max_rejects_below_65536 :
  1 <= 2 <= 65535 /\ 65534 < (65536 / 2) * 2 /\
  randomUint16Number 2 [65534; 1] = Drawn 1 [] /\
  randomUint16Number 2 [65534; 1] <> Drawn (65534 mod 2) [1].
Proof. repeat split; try lia; try reflexivity. discriminate. Qed.

(* ===================================================================== *)
(** ** Properties: the roster *)
(* ===================================================================== *)

(** Every slot of the roster points at a peer. *)
Definition roster_valid (h : gmap loc peer) (l : list federateServer) : Prop :=
  Forall (fun fs => is_Some (h !! Peer fs)) l.

(** No two slots of the roster carry the same node ID. *)
Definition ids_distinct (h : gmap loc peer) (l : list federateServer) : Prop :=
  forall i j fi fj pi pj,
    l !! i = Some fi -> l !! j = Some fj ->
    h !! Peer fi = Some pi -> h !! Peer fj = Some pj ->
    nodeID pi = nodeID pj -> i = j.

Lemma find_peer_total h test l :
  roster_valid h l -> is_Some (find_peer h test l).
Proof.
  induction 1 as [|fs l [p Hp] _ IH]; cbn; [eauto|].
  rewrite Hp. destruct (test p); eauto.
Qed.

Lemma find_peer_Some h test l q :
  find_peer h test l = Some (Some q) ->
  exists fs p, fs ∈ l /\ Peer fs = q /\ h !! q = Some p /\ test p = true.
Proof.
  induction l as [|fs l IH]; cbn; [discriminate|].
  destruct (h !! Peer fs) as [p|] eqn:Hp; [|discriminate].
  destruct (test p) eqn:Ht.
  - intros [= <-]. exists fs, p. repeat split; auto. left.
  - intros H. destruct (IH H) as (fs' & p' & Hin & ?). exists fs', p'.
    split; [now right|assumption].
Qed.

Lemma find_peer_None h test l fs p :
  find_peer h test l = Some None -> fs ∈ l -> h !! Peer fs = Some p -> test p = false.
Proof.
  induction l as [|f l IH]; cbn; intros H Hin Hp; [inversion Hin|].
  destruct (h !! Peer f) as [p'|] eqn:Hp'; [|discriminate].
  destruct (test p') eqn:Ht; [discriminate|].
  apply elem_of_cons in Hin as [->|Hin]; [congruence|]. now apply IH.
Qed.

(** The slot found and the pointer found are the same entry. *)
Lemma find_fed_spec h test l i j :
  find_fed h test l i = Some (Some j) ->
  exists fs p, (i <= j)%nat /\ l !! (j - i)%nat = Some fs /\ h !! Peer fs = Some p /\
               test p = true /\ find_peer h test l = Some (Some (Peer fs)) /\
               forall k fk pk, (k < j - i)%nat -> l !! k = Some fk ->
                               h !! Peer fk = Some pk -> test pk = false.
Proof.
  revert i. induction l as [|f l IH]; intros i; cbn; [discriminate|].
  destruct (h !! Peer f) as [p|] eqn:Hp; [|discriminate].
  destruct (test p) eqn:Ht.
  - intros [= <-]. exists f, p. rewrite Nat.sub_diag. repeat split; auto. lia.
  - intros H. destruct (IH _ H) as (fs & p' & Hle & Hl & Hp' & Ht' & Hf & Hmin).
    exists fs, p'. split; [lia|].
    replace (j - i)%nat with (S (j - S i)) by lia. cbn.
    repeat split; auto.
    intros [|k] fk pk Hk Hfk Hpk; cbn in Hfk.
    + congruence.
    + apply (Hmin k fk pk); auto. lia.
Qed.

Lemma find_fed_total h test l i :
  roster_valid h l -> is_Some (find_fed h test l i).
Proof.
  intros H. revert i. induction H as [|fs l [p Hp] _ IH]; intros i; cbn; [eauto|].
  rewrite Hp. destruct (test p); eauto.
Qed.

(** What [my_state] reads: this node's own slot, the first with its ID. *)
Lemma my_state_spec s st :
  my_state s = Some st ->
  exists i fs p, GetMyFederateServer s = Some (Some i) /\
                 federateServers s !! i = Some fs /\ heap s !! Peer fs = Some p /\
                 nodeID p = s_nodeID s /\ nodeState p = st /\
                 GetPeerByID s (s_nodeID s) = Some (Some (Peer fs)).
Proof.
  unfold my_state, GetMyFederateServer, GetFederateServerByID, GetPeerByID.
  destruct (find_fed _ _ _ _) as [[i|]|] eqn:Hf; try discriminate.
  destruct (federateServers s !! i) as [fs|] eqn:Hi; [|discriminate].
  destruct (heap s !! Peer fs) as [p|] eqn:Hp; [|discriminate].
  intros [= <-].
  destruct (find_fed_spec _ _ _ _ _ Hf) as (fs' & p' & _ & Hl & Hp' & Ht & Hfp & _).
  rewrite Nat.sub_0_r, Hi in Hl. injection Hl as <-.
  rewrite Hp in Hp'. injection Hp' as <-.
  exists i, fs, p. repeat split; auto.
  unfold has_id in Ht. now apply bool_decide_eq_true in Ht.
Qed.

Lemma partition_candidates_total h l :
  roster_valid h l -> is_Some (partition_candidates h l).
Proof.
  induction 1 as [|fs l [p Hp] _ [[nc c] IH]]; cbn; [eauto|].
  rewrite Hp, IH. destruct (peer_IsCandidate p); eauto.
Qed.

Lemma partition_candidates_spec h l nc c :
  partition_candidates h l = Some (nc, c) ->
  (forall fs, fs ∈ nc ->
     fs ∈ l /\ exists p, h !! Peer fs = Some p /\ nodeState p <> NodeCandidate) /\
  (forall fs p, fs ∈ l -> h !! Peer fs = Some p -> nodeState p = NodeCandidate -> fs ∈ c) /\
  (forall fs p, fs ∈ l -> h !! Peer fs = Some p -> nodeState p <> NodeCandidate -> fs ∈ nc).
Proof.
  revert nc c. induction l as [|f l IH]; cbn; intros nc c.
  - intros [= <- <-]. repeat split; intros; exfalso; eapply not_elem_of_nil; eauto.
  - destruct (h !! Peer f) as [p|] eqn:Hp; [|discriminate].
    destruct (partition_candidates h l) as [[nc' c']|]; [|discriminate].
    destruct (IH nc' c' eq_refl) as (A & B & C).
    unfold peer_IsCandidate, has_state.
    destruct (bool_decide_reflect (nodeState p = NodeCandidate)) as [Hc|Hc];
      intros [= <- <-]; (split; [|split]).
    + intros fs Hin. destruct (A fs Hin) as [? ?]. split; [now right|assumption].
    + intros fs q Hin Hq Hs. apply elem_of_cons in Hin as [->|Hin]; [left|].
      right. eapply B; eauto.
    + intros fs q Hin Hq Hs. apply elem_of_cons in Hin as [->|Hin]; [congruence|].
      eapply C; eauto.
    + intros fs Hin. apply elem_of_cons in Hin as [->|Hin].
      * split; [left|eauto].
      * destruct (A fs Hin) as [? ?]. split; [now right|assumption].
    + intros fs q Hin Hq Hs. apply elem_of_cons in Hin as [->|Hin]; [congruence|].
      eapply B; eauto.
    + intros fs q Hin Hq Hs. apply elem_of_cons in Hin as [->|Hin]; [left|].
      right. eapply C; eauto.
Qed.

(* ===================================================================== *)
(** ** Properties: [selectCurrentleader] *)
(* ===================================================================== *)

Lemma my_state_flags s st :
  my_state s = Some st ->
  IsLeader s = Some (bool_decide (st = NodeLeader)) /\
  IsLeaderElect s = Some (bool_decide (st = NodeLeaderElect)) /\
  IsCandidate s = Some (bool_decide (st = NodeCandidate)).
Proof. intros H. unfold IsLeader, IsLeaderElect, IsCandidate. now rewrite H. Qed.

Lemma id_of_valid s l fs :
  roster_valid (heap s) l -> fs ∈ l -> is_Some (id_of s (Peer fs)).
Proof.
  intros Hv Hin. unfold id_of.
  destruct (proj1 (Forall_forall _ _) Hv fs Hin) as [p ->]. eauto.
Qed.

(** C4: on a roster with pairwise distinct node IDs, a node whose own role
    is [Candidate] comes out of [selectCurrentleader] with nothing changed:
    no [CurrentLeader] message is broadcast (the trace is the same) and its
    role is still [Candidate]; this covers the case of an empty
    non-candidate partition. *)
Theorem candidate_never_takes_leadership (s : server) (height : Z) :
  sort_contract X ->
  roster_valid (heap s) (federateServers s) ->
  ids_distinct (heap s) (federateServers s) ->
  my_state s = Some NodeCandidate ->
  selectCurrentleader s height = Some s /\
  (forall s', selectCurrentleader s height = Some s' ->
     trace s' = trace s /\ my_state s' = Some NodeCandidate).
Proof.
  intros Hsort Hv Hd Hme.
  assert (Hgoal : selectCurrentleader s height = Some s);
    [|split; [exact Hgoal|intros s' Hs'; rewrite Hgoal in Hs'; now injection Hs' as <-]].
  destruct (my_state_flags s _ Hme) as (HL & HE & HC).
  destruct (my_state_spec s _ Hme) as (i & me & pme & _ & Hi & Hpme & Hid & Hst & _).
  unfold selectCurrentleader. rewrite HL. cbn.
  unfold nonCandidateServers.
  destruct (partition_candidates_total _ _ Hv) as [[nc c] Hpart]. rewrite Hpart.
  destruct (partition_candidates_spec _ _ _ _ Hpart) as (Hnc & Hc & _).
  assert (Hmec : me ∈ c).
  { eapply Hc; eauto. eapply list_elem_of_lookup_2; eauto. }
  destruct (bool_decide (nc = []) && bool_decide (c <> [])) eqn:Hearly; [reflexivity|].
  rewrite HC, HE. cbn.
  destruct (find_peer_total (heap s) (has_state NodeLeaderElect) _ Hv) as [elect Helect].
  unfold GetLeaderElect, GetPeer. rewrite Helect.
  destruct elect as [e|]; [reflexivity|].
  destruct (find_peer_total (heap s) (has_state NodeLeaderPrev) _ Hv) as [prev Hprev].
  unfold GetPrevLeaderPeer, GetPeer. rewrite Hprev.
  destruct prev as [q|].
  - destruct (find_peer_Some _ _ _ _ Hprev) as (fq & pq & _ & _ & Hq & _).
    unfold id_of. rewrite Hq. reflexivity.
  - destruct (Hsort StartTime nc) as [Hperm _].
    change (fun a b : federateServer => StartTime a <? StartTime b) with ByStartTime in Hperm.
    destruct (sort_by X ByStartTime nc) as [|first sorted] eqn:Hsorted.
    + (* an empty non-candidate partition was caught by the early return *)
      apply Permutation_nil in Hperm. subst nc.
      rewrite bool_decide_eq_true_2 in Hearly by reflexivity.
      rewrite bool_decide_eq_true_2 in Hearly; [discriminate|].
      intros ->. eapply not_elem_of_nil; eauto.
    + assert (Hfirst : first ∈ nc).
      { rewrite <- Hperm. left. }
      destruct (Hnc first Hfirst) as (Hin & pf & Hpf & Hnot).
      unfold id_of. rewrite Hpf.
      destruct (bool_decide_reflect (nodeID pf = s_nodeID s)) as [Heq|Hne]; [|reflexivity].
      exfalso. apply list_elem_of_lookup in Hin as [j Hj].
      assert (i = j) by (eapply Hd; eauto; congruence). subst j.
      rewrite Hi in Hj. injection Hj as <-. congruence.
Qed.

(* ===================================================================== *)
(** ** Properties: [selectNextLeader] *)
(* ===================================================================== *)

Lemma first_other_spec h self l next :
  first_other h self l = Some (Some next) ->
  exists i p, l !! i = Some next /\ h !! Peer next = Some p /\ nodeID p <> self /\
              forall k fk pk, (k < i)%nat -> l !! k = Some fk ->
                              h !! Peer fk = Some pk -> nodeID pk = self.
Proof.
  induction l as [|f l IH]; cbn; [discriminate|].
  destruct (h !! Peer f) as [p|] eqn:Hp; [|discriminate].
  destruct (bool_decide_reflect (nodeID p <> self)) as [Hne|Heq].
  - intros [= <-]. exists 0%nat, p. repeat split; auto. intros; lia.
  - intros H. destruct (IH H) as (i & p' & Hi & Hp' & Hne & Hmin).
    exists (S i), p'. repeat split; auto.
    intros [|k] fk pk Hk Hfk Hpk; cbn in Hfk.
    + injection Hfk as <-. rewrite Hp in Hpk. injection Hpk as <-.
      destruct (decide (nodeID p = self)); [assumption|contradiction].
    + apply (Hmin k fk pk); auto. lia.
Qed.

(** The successor picked has the least [LeaderLast] among the
    non-candidates other than this node. *)
Lemma next_is_least s nc next :
  sort_contract X ->
  first_other (heap s) (s_nodeID s) (sort_by X ByLeaderLast nc) = Some (Some next) ->
  next ∈ nc /\
  forall other po, other ∈ nc -> heap s !! Peer other = Some po ->
                   nodeID po <> s_nodeID s -> LeaderLast next <= LeaderLast other.
Proof.
  intros Hsort Hfirst.
  destruct (Hsort LeaderLast nc) as [Hperm Hord].
  change (fun a b : federateServer => LeaderLast a <? LeaderLast b) with ByLeaderLast in *.
  cbv zeta in *.
  destruct (first_other_spec _ _ _ _ Hfirst) as (i & p & Hi & Hp & Hne & Hmin).
  split.
  - rewrite <- Hperm. eapply list_elem_of_lookup_2; eauto.
  - intros other po Hin Hpo Hother.
    rewrite <- Hperm in Hin. apply list_elem_of_lookup in Hin as [j Hj].
    destruct (Nat.lt_trichotomy i j) as [Hlt|[->|Hgt]].
    + eapply Hord; eauto.
    + rewrite Hi in Hj. injection Hj as <-. lia.
    + exfalso. apply Hother. eapply Hmin; eauto.
Qed.

Lemma first_other_total h self l :
  roster_valid h l -> is_Some (first_other h self l).
Proof.
  induction 1 as [|fs l [p Hp] _ IH]; cbn; [eauto|].
  rewrite Hp. destruct (bool_decide _); eauto.
Qed.

Lemma first_other_None h self l fs p :
  first_other h self l = Some None -> fs ∈ l -> h !! Peer fs = Some p -> nodeID p = self.
Proof.
  induction l as [|f l IH]; cbn; intros H Hin Hp; [inversion Hin|].
  destruct (h !! Peer f) as [q|] eqn:Hq; [|discriminate].
  destruct (bool_decide_reflect (nodeID q <> self)) as [|Heq]; [discriminate|].
  apply elem_of_cons in Hin as [->|Hin].
  - rewrite Hp in Hq. injection Hq as <-.
    destruct (decide (nodeID p = self)); [assumption|contradiction].
  - now apply IH.
Qed.

Lemma partition_candidates_sublist h l nc c :
  partition_candidates h l = Some (nc, c) -> nc `sublist_of` l.
Proof.
  revert nc c. induction l as [|f l IH]; cbn; intros nc c.
  - intros [= <- <-]. constructor.
  - destruct (h !! Peer f) as [p|]; [|discriminate].
    destruct (partition_candidates h l) as [[nc' c']|]; [|discriminate].
    specialize (IH nc' c' eq_refl).
    destruct (peer_IsCandidate p); intros [= <- <-]; now constructor.
Qed.

Lemma ids_distinct_NoDup h l : roster_valid h l -> ids_distinct h l -> NoDup l.
Proof.
  intros Hv Hd. apply NoDup_alt. intros i j fs Hi Hj.
  destruct (proj1 (Forall_forall _ _) Hv fs) as [p Hp];
    [eapply list_elem_of_lookup_2; eauto|].
  eapply Hd; eauto.
Qed.

(** The non-candidate half of the partition has at most one entry when at
    most one slot of the roster holds a non-candidate. *)
Lemma one_slot_partition h l nc c :
  partition_candidates h l = Some (nc, c) ->
  (forall i j fi fj pi pj,
     l !! i = Some fi -> l !! j = Some fj ->
     h !! Peer fi = Some pi -> h !! Peer fj = Some pj ->
     nodeState pi <> NodeCandidate -> nodeState pj <> NodeCandidate -> i = j) ->
  (length nc <= 1)%nat.
Proof.
  revert nc c. induction l as [|f l IH]; cbn [partition_candidates]; intros nc c.
  - intros [= <- <-] _. cbn. lia.
  - destruct (h !! Peer f) as [p|] eqn:Hp; [|discriminate]. cbn.
    destruct (partition_candidates h l) as [[nc' c']|] eqn:Hpart; [|discriminate]. cbn.
    unfold peer_IsCandidate, has_state.
    destruct (bool_decide_reflect (nodeState p = NodeCandidate)) as [Hc|Hc];
      intros [= <- <-] Hone.
    + apply (IH nc' c' eq_refl). intros i j fi fj pi pj Hi Hj Hpi Hpj Hni Hnj.
      assert (S i = S j) by (apply (Hone (S i) (S j) fi fj pi pj); assumption). lia.
    + destruct nc' as [|g nc']; [cbn; lia|]. exfalso.
      destruct (partition_candidates_spec _ _ _ _ Hpart) as (Hnc & _ & _).
      destruct (Hnc g ltac:(left)) as (Hin & pg & Hpg & Hng).
      apply list_elem_of_lookup in Hin as [k Hk].
      assert (0 = S k)%nat by (apply (Hone 0%nat (S k) f g p pg); auto). lia.
Qed.

(** Two slots of the roster that hold non-candidates give the partition
    two entries. *)
Lemma two_slots_partition h l nc c i j fi fj pi pj :
  partition_candidates h l = Some (nc, c) ->
  (i < j)%nat -> l !! i = Some fi -> l !! j = Some fj ->
  h !! Peer fi = Some pi -> h !! Peer fj = Some pj ->
  nodeState pi <> NodeCandidate -> nodeState pj <> NodeCandidate ->
  (2 <= length nc)%nat.
Proof.
  revert nc c i j. induction l as [|f l IH]; cbn [partition_candidates];
    intros nc c i j Hpart Hij Hi Hj Hpi Hpj Hni Hnj; [now rewrite lookup_nil in Hi|].
  destruct (h !! Peer f) as [p|] eqn:Hp; [|discriminate]. cbn in Hpart.
  destruct (partition_candidates h l) as [[nc' c']|] eqn:Hrest; [|discriminate].
  cbn in Hpart. destruct j as [|j]; [lia|]. cbn in Hj.
  destruct i as [|i]; cbn in Hi.
  - injection Hi as ->. rewrite Hp in Hpi. injection Hpi as ->.
    unfold peer_IsCandidate, has_state in Hpart.
    rewrite bool_decide_eq_false_2 in Hpart by assumption.
    injection Hpart as <- <-.
    destruct (partition_candidates_spec _ _ _ _ Hrest) as (_ & _ & Hin).
    assert (Hfj : fj ∈ nc').
    { apply (Hin fj pj); [eapply list_elem_of_lookup_2; eauto|assumption|assumption]. }
    destruct nc' as [|g nc']; [inversion Hfj|]. cbn. lia.
  - assert (Hlen : (2 <= length nc')%nat).
    { apply (IH nc' c' i j eq_refl); [lia|assumption..]. }
    destruct (peer_IsCandidate p); injection Hpart as <- <-; cbn; lia.
Qed.

(** C3, as amended: what [selectNextLeader(h)] does on a roster whose
    entries all point at a peer, the sort being any sort by the key.
    - The caller is not the Leader: nothing changes, nothing is broadcast.
    - The caller is the Leader with policy [P]:
      - at most one slot of the roster holds a non-candidate (then it is
        this node's own): [P.StartDBHeight] becomes [h + 3], nothing else
        changes and nothing is broadcast;
      - some non-candidate of the roster carries another node ID: one
        [NextLeader] message (self, next, P.StartDBHeight + P.Term,
        sign(self || next)) is broadcast and [P.Notified] becomes true,
        nothing else changes; [next] is a non-candidate of the roster with
        another node ID and the least [LeaderLast] among those;
      - two slots hold non-candidates and every non-candidate carries this
        node's ID: the guard [next == nil] applies, nothing changes and
        nothing is broadcast.
    - On a roster with pairwise distinct node IDs the last case does not
      arise: of two slots that hold non-candidates one carries another
      node ID.
    The additions are those of [uint32]. *)
Theorem selectNextLeader_behaviour (s : server) (height : Z) :
  sort_contract X ->
  roster_valid (heap s) (federateServers s) ->
  (forall st, my_state s = Some st -> st <> NodeLeader ->
     selectNextLeader s height = Some s) /\
  (forall P,
     my_state s = Some NodeLeader -> myLeaderPolicy s = Some P ->
     ((forall i j fi fj pi pj,
         federateServers s !! i = Some fi -> federateServers s !! j = Some fj ->
         heap s !! Peer fi = Some pi -> heap s !! Peer fj = Some pj ->
         nodeState pi <> NodeCandidate -> nodeState pj <> NodeCandidate -> i = j) ->
      selectNextLeader s height
      = Some (mkServer (heap s) (s_nodeID s) (s_nodeType s) (shutdown s)
                (federateServers s)
                (Some (mkLeaderPolicy (NextLeader P) (add32 height 3) (Term P)
                                      (NotifyDBHeight P) (Notified P) (Confirmed P)))
                (leaderCrashed s) (prevConnected s) (trace s))) /\
     ((exists fs p, fs ∈ federateServers s /\ heap s !! Peer fs = Some p /\
                    nodeState p <> NodeCandidate /\ nodeID p <> s_nodeID s) ->
      exists next pn,
        next ∈ federateServers s /\ heap s !! Peer next = Some pn /\
        nodeState pn <> NodeCandidate /\ nodeID pn <> s_nodeID s /\
        (forall other po,
           other ∈ federateServers s -> heap s !! Peer other = Some po ->
           nodeState po <> NodeCandidate -> nodeID po <> s_nodeID s ->
           LeaderLast next <= LeaderLast other) /\
        selectNextLeader s height
        = Some (mkServer (heap s) (s_nodeID s) (s_nodeType s) (shutdown s)
                  (federateServers s)
                  (Some (mkLeaderPolicy (NextLeader P) (StartDBHeight P) (Term P)
                                        (NotifyDBHeight P) true (Confirmed P)))
                  (leaderCrashed s) (prevConnected s)
                  (trace s
                   ++ [EvBroadcast
                         (NextLeaderMsg (s_nodeID s) (nodeID pn)
                            (add32 (StartDBHeight P) (Term P))
                            (Sign X (s_nodeID s +:+ nodeID pn)))]))) /\
     ((forall fs p, fs ∈ federateServers s -> heap s !! Peer fs = Some p ->
                    nodeState p <> NodeCandidate -> nodeID p = s_nodeID s) ->
      (exists i j fi fj pi pj,
         (i < j)%nat /\
         federateServers s !! i = Some fi /\ federateServers s !! j = Some fj /\
         heap s !! Peer fi = Some pi /\ heap s !! Peer fj = Some pj /\
         nodeState pi <> NodeCandidate /\ nodeState pj <> NodeCandidate) ->
      selectNextLeader s height = Some s)) /\
  (ids_distinct (heap s) (federateServers s) ->
   forall i j fi fj pi pj,
     (i < j)%nat ->
     federateServers s !! i = Some fi -> federateServers s !! j = Some fj ->
     heap s !! Peer fi = Some pi -> heap s !! Peer fj = Some pj ->
     nodeState pi <> NodeCandidate -> nodeState pj <> NodeCandidate ->
     exists fs p, fs ∈ federateServers s /\ heap s !! Peer fs = Some p /\
                  nodeState p <> NodeCandidate /\ nodeID p <> s_nodeID s).
Proof.
  intros Hsort Hv. split; [|split].
  - intros st Hme Hne. destruct (my_state_flags s _ Hme) as (HL & _ & _).
    unfold selectNextLeader. rewrite HL.
    rewrite bool_decide_eq_false_2 by assumption. reflexivity.
  - intros P Hme HP.
    destruct (my_state_flags s _ Hme) as (HL & _ & _).
    destruct (my_state_spec s _ Hme) as (k & me & pme & _ & Hk & Hpme & Hid & Hst & _).
    destruct (partition_candidates_total _ _ Hv) as [[nc c] Hpart].
    destruct (partition_candidates_spec _ _ _ _ Hpart) as (Hnc & _ & Hin_nc).
    assert (Hmein : me ∈ nc).
    { apply (Hin_nc me pme); [eapply list_elem_of_lookup_2; eauto|assumption|].
      rewrite Hst. discriminate. }
    destruct (Hsort LeaderLast nc) as [Hperm _].
    change (fun a b : federateServer => LeaderLast a <? LeaderLast b)
      with ByLeaderLast in Hperm.
    cbv zeta in Hperm.
    assert (Hvs : roster_valid (heap s) (sort_by X ByLeaderLast nc)).
    { apply Forall_forall. intros fs Hfs. rewrite Hperm in Hfs.
      destruct (Hnc fs Hfs) as (_ & p & Hp & _). rewrite Hp. eauto. }
    unfold selectNextLeader. rewrite HL.
    rewrite (bool_decide_eq_true_2 (NodeLeader = NodeLeader)) by reflexivity.
    unfold nonCandidateServers. rewrite Hpart. cbn.
    split; [|split].
    + (* this node alone *)
      intros Hone. pose proof (one_slot_partition _ _ _ _ Hpart Hone) as Hlen.
      destruct nc as [|a [|b nc']]; [inversion Hmein| |cbn in Hlen; lia].
      apply list_elem_of_singleton in Hmein as <-.
      cbn. rewrite Hpme. cbn.
      rewrite bool_decide_eq_true_2 by assumption. rewrite HP. reflexivity.
    + (* a successor *)
      intros (other & po & Hoin & Hpo & Hno & Hoid).
      assert (Hother : other ∈ nc) by (apply (Hin_nc other po); assumption).
      assert (Halone : only_me s nc = Some false).
      { destruct nc as [|a [|b nc']]; [reflexivity| |reflexivity].
        apply list_elem_of_singleton in Hmein as <-.
        apply list_elem_of_singleton in Hother as ->.
        rewrite Hpme in Hpo. injection Hpo as <-. contradiction. }
      rewrite Halone.
      destruct (first_other_total (heap s) (s_nodeID s) _ Hvs) as [[next|] Hfirst].
      * destruct (first_other_spec _ _ _ _ Hfirst) as (_ & pn & _ & Hpn & Hnid & _).
        destruct (next_is_least s nc next Hsort Hfirst) as [Hnin Hleast].
        destruct (Hnc next Hnin) as (Hnroster & pn' & Hpn' & Hnn).
        rewrite Hpn in Hpn'. injection Hpn' as <-.
        exists next, pn. do 4 (split; [assumption|]). split.
        -- intros o q Ho Hq Hqn Hqid. apply (Hleast o q); [|assumption|assumption].
           apply (Hin_nc o q); assumption.
        -- rewrite Hfirst, HP. cbn. unfold id_of. rewrite Hpn. cbn. try rewrite HP.
           reflexivity.
      * exfalso. apply Hoid.
        apply (first_other_None _ _ _ other po Hfirst); [now rewrite Hperm|assumption].
    + (* the guard *)
      intros Hmine (i & j & fi & fj & pi & pj & Hij & Hi & Hj & Hpi & Hpj & Hni & Hnj).
      pose proof (two_slots_partition _ _ _ _ _ _ _ _ _ _ Hpart Hij Hi Hj Hpi Hpj Hni Hnj)
        as Hlen.
      assert (Halone : only_me s nc = Some false).
      { destruct nc as [|a [|b nc']]; [reflexivity|cbn in Hlen; lia|reflexivity]. }
      rewrite Halone.
      destruct (first_other_total (heap s) (s_nodeID s) _ Hvs) as [[next|] Hfirst].
      * exfalso.
        destruct (first_other_spec _ _ _ _ Hfirst) as (_ & pn & _ & Hpn & Hnid & _).
        destruct (next_is_least s nc next Hsort Hfirst) as [Hnin _].
        destruct (Hnc next Hnin) as (Hnroster & pn' & Hpn' & Hnn).
        rewrite Hpn in Hpn'. injection Hpn' as <-.
        apply Hnid. apply (Hmine next pn); assumption.
      * rewrite Hfirst. reflexivity.
  - intros Hd i j fi fj pi pj Hij Hi Hj Hpi Hpj Hni Hnj.
    destruct (decide (nodeID pi = s_nodeID s)) as [Hself|Hnot].
    + exists fj, pj. split; [eapply list_elem_of_lookup_2; eauto|].
      do 2 (split; [assumption|]). intros Hj'.
      assert (i = j) by (apply (Hd i j fi fj pi pj); congruence). lia.
    + exists fi, pi. split; [eapply list_elem_of_lookup_2; eauto|].
      do 2 (split; [assumption|]). exact Hnot.
Qed.

(* ===================================================================== *)
(** ** Properties: the role mutators *)
(* ===================================================================== *)

(** The heap after [p.nodeState = ns]. *)
Definition retag (h : gmap loc peer) (p : loc) (ns : NodeState) : gmap loc peer :=
  alter (fun pr => with_nodeState pr ns) p h.

Lemma set_nodeState_spec s p ns s' :
  set_nodeState s p ns = Some s' ->
  is_Some (heap s !! p) /\ s' = with_heap s (retag (heap s) p ns).
Proof.
  unfold set_nodeState, retag. destruct (heap s !! p) as [pr|] eqn:Hp; [|discriminate].
  intros [= <-]. split; [eauto|]. f_equal.
  apply map_eq. intros j. rewrite lookup_alter, lookup_insert.
  destruct (decide (p = j)) as [->|]; [now rewrite Hp|reflexivity].
Qed.

Lemma set_nodeState_total s p ns :
  is_Some (heap s !! p) -> set_nodeState s p ns = Some (with_heap s (retag (heap s) p ns)).
Proof.
  intros [pr Hp]. unfold set_nodeState. rewrite Hp. f_equal. f_equal.
  unfold retag. apply map_eq. intros j. rewrite lookup_alter, lookup_insert.
  destruct (decide (p = j)) as [->|]; [now rewrite Hp|reflexivity].
Qed.

Lemma retag_same h p ns pr :
  h !! p = Some pr -> retag h p ns !! p = Some (with_nodeState pr ns).
Proof. intros Hp. unfold retag. rewrite lookup_alter, decide_True by reflexivity. now rewrite Hp. Qed.

Lemma retag_other h p ns l : l <> p -> retag h p ns !! l = h !! l.
Proof. intros Hne. unfold retag. rewrite lookup_alter, decide_False by congruence. reflexivity. Qed.

Lemma retag_id h p ns l : nodeID <$> retag h p ns !! l = nodeID <$> h !! l.
Proof.
  destruct (decide (l = p)) as [->|Hne]; [|now rewrite retag_other].
  destruct (h !! p) as [pr|] eqn:Hp.
  - now rewrite (retag_same _ _ _ _ Hp).
  - unfold retag. rewrite lookup_alter, decide_True, Hp by reflexivity. reflexivity.
Qed.

Lemma retag_is_Some h p ns l : is_Some (retag h p ns !! l) <-> is_Some (h !! l).
Proof. rewrite <- !(fmap_is_Some nodeID), retag_id. reflexivity. Qed.

Lemma retag_valid h p ns l : roster_valid h l -> roster_valid (retag h p ns) l.
Proof.
  unfold roster_valid. intros H. eapply Forall_impl; [exact H|].
  intros fs. now rewrite retag_is_Some.
Qed.

(** A search of the roster only looks at the test's verdict on each slot. *)
Lemma find_peer_ext h h' test l :
  (forall fs, fs ∈ l -> test <$> h !! Peer fs = test <$> h' !! Peer fs) ->
  find_peer h test l = find_peer h' test l.
Proof.
  induction l as [|f l IH]; intros H; cbn; [reflexivity|].
  pose proof (H f ltac:(left)) as Hf.
  destruct (h !! Peer f) as [p|], (h' !! Peer f) as [p'|]; cbn in Hf; try discriminate;
    [|reflexivity].
  injection Hf as ->. rewrite IH; [reflexivity|]. intros fs Hin. apply H. now right.
Qed.

Lemma find_fed_ext h h' test l l' i :
  Peer <$> l = Peer <$> l' ->
  (forall fs, fs ∈ l -> test <$> h !! Peer fs = test <$> h' !! Peer fs) ->
  find_fed h test l i = find_fed h' test l' i.
Proof.
  revert l' i. induction l as [|f l IH]; intros [|f' l'] i Hl H; cbn in *;
    try discriminate; [reflexivity|].
  injection Hl as Hf Hl. rewrite <- Hf.
  pose proof (H f ltac:(left)) as Ht.
  destruct (h !! Peer f) as [p|], (h' !! Peer f) as [p'|]; cbn in Ht; try discriminate;
    [|reflexivity].
  injection Ht as ->. rewrite (IH l' (S i)); [reflexivity|assumption|].
  intros fs Hin. apply H. now right.
Qed.

(** Writing a role through one pointer leaves a search by node ID alone. *)
Lemma find_peer_id_retag h p ns pid l :
  find_peer (retag h p ns) (has_id pid) l = find_peer h (has_id pid) l.
Proof.
  apply find_peer_ext. intros fs _. unfold has_id.
  pose proof (retag_id h p ns (Peer fs)) as E.
  destruct (retag h p ns !! Peer fs), (h !! Peer fs); cbn in *; try discriminate;
    [injection E as E; now rewrite E|reflexivity].
Qed.

Lemma find_fed_id_retag h p ns pid l i :
  find_fed (retag h p ns) (has_id pid) l i = find_fed h (has_id pid) l i.
Proof.
  apply find_fed_ext; [reflexivity|]. intros fs _. unfold has_id.
  pose proof (retag_id h p ns (Peer fs)) as E.
  destruct (retag h p ns !! Peer fs), (h !! Peer fs); cbn in *; try discriminate;
    [injection E as E; now rewrite E|reflexivity].
Qed.

(** Writing role [a] over role [b] leaves a search for a third role alone. *)
Lemma find_peer_state_retag h p ns r l pr :
  h !! p = Some pr -> nodeState pr <> r -> ns <> r ->
  find_peer (retag h p ns) (has_state r) l = find_peer h (has_state r) l.
Proof.
  intros Hp Hold Hnew. apply find_peer_ext. intros fs _.
  destruct (decide (Peer fs = p)) as [->|Hne]; [|now rewrite retag_other].
  rewrite (retag_same _ _ _ _ Hp), Hp. cbn. unfold has_state. f_equal.
  rewrite !bool_decide_eq_false_2; auto.
Qed.

(** The six mutators are two schemes: demote whoever the roster shows in
    role [r_old] to [r_dem], then give [r_new] to a pointer, or to the peer
    found by node ID. *)
Definition reassign (r_old r_dem r_new : NodeState) (s : server) (p : loc)
    : option server :=
  let? old := GetPeer s r_old in
  let? s := demote s old r_dem in
  set_nodeState s p r_new.

Definition reassign_by_id (r_old r_dem r_new : NodeState) (s : server) (pid : string)
    : option server :=
  let? old := GetPeer s r_old in
  let? s := demote s old r_dem in
  let? found := GetPeerByID s pid in
  demote s found r_new.

Lemma mutators_are_reassignments :
  SetLeaderPeer = reassign NodeLeader NodeLeaderPrev NodeLeader /\
  setLeaderElect = reassign NodeLeaderElect NodeFollower NodeLeaderElect /\
  SetPrevLeaderPeer = reassign NodeLeaderPrev NodeFollower NodeLeaderPrev /\
  SetLeaderPeerByID = reassign_by_id NodeLeader NodeLeaderPrev NodeLeader /\
  setLeaderElectByID = reassign_by_id NodeLeaderElect NodeFollower NodeLeaderElect /\
  SetPrevLeaderByID = reassign_by_id NodeLeaderPrev NodeFollower NodeLeaderPrev.
Proof. repeat split. Qed.

(** The heap a mutator leaves, against the heap it found: the same node
    IDs everywhere and, away from the target [p], every peer untouched but
    the one the roster showed in role [r_old], which now has [r_dem]. *)
Definition demoted_only (s : server) (r_old r_dem : NodeState) (p : option loc)
    (h' : gmap loc peer) : Prop :=
  (forall x, nodeID <$> h' !! x = nodeID <$> heap s !! x) /\
  (forall x, Some x <> p ->
     h' !! x = if decide (GetPeer s r_old = Some (Some x))
               then (fun px => with_nodeState px r_dem) <$> heap s !! x
               else heap s !! x).

Lemma demoted_only_cases s r_old r_dem p h' x :
  demoted_only s r_old r_dem p h' -> Some x <> p ->
  h' !! x = heap s !! x \/
  exists px, heap s !! x = Some px /\ nodeState px = r_old /\
             GetPeer s r_old = Some (Some x) /\
             h' !! x = Some (with_nodeState px r_dem).
Proof.
  intros [_ H] Hx. specialize (H x Hx).
  destruct (decide (GetPeer s r_old = Some (Some x))) as [Hg|_]; [right|now left].
  destruct (find_peer_Some _ _ _ _ Hg) as (fq & pq & _ & _ & Hq & Hsq).
  apply bool_decide_eq_true in Hsq.
  exists pq. rewrite Hq in H. auto.
Qed.

Lemma demote_first s r_old r_dem :
  roster_valid (heap s) (federateServers s) ->
  exists h1, (let? old := GetPeer s r_old in demote s old r_dem) = Some (with_heap s h1) /\
             demoted_only s r_old r_dem None h1.
Proof.
  intros Hv.
  destruct (find_peer_total (heap s) (has_state r_old) _ Hv) as [[q|] Hold];
    fold (GetPeer s r_old) in Hold.
  - destruct (find_peer_Some _ _ _ _ Hold) as (fq & pq & _ & _ & Hq & Hsq).
    exists (retag (heap s) q r_dem). rewrite Hold. cbn.
    rewrite set_nodeState_total by eauto. split; [reflexivity|]. split.
    + intros x. apply retag_id.
    + intros x _. rewrite Hold.
      destruct (decide (Some (Some q) = Some (Some x))) as [[= <-]|Hne].
      * rewrite Hq. now apply retag_same.
      * apply retag_other. congruence.
  - exists (heap s). rewrite Hold. cbn. split; [now destruct s|]. split; auto.
    intros x _. rewrite Hold. now rewrite decide_False by discriminate.
Qed.

Lemma with_heap_twice s h1 h2 : with_heap (with_heap s h1) h2 = with_heap s h2.
Proof. reflexivity. Qed.

Lemma reassign_spec r_old r_dem r_new s p pp :
  roster_valid (heap s) (federateServers s) ->
  heap s !! p = Some pp ->
  exists h', reassign r_old r_dem r_new s p = Some (with_heap s h') /\
             h' !! p = Some (with_nodeState pp r_new) /\
             demoted_only s r_old r_dem (Some p) h'.
Proof.
  intros Hv Hp. unfold reassign.
  destruct (demote_first s r_old r_dem Hv) as (h1 & E1 & Hd1).
  pose proof Hd1 as [Hid1 Hch1].
  assert (Hold : exists old, GetPeer s r_old = Some old /\
                             demote s old r_dem = Some (with_heap s h1))
    by (destruct (GetPeer s r_old); [eauto|discriminate]).
  destruct Hold as (old & -> & ->).
  assert (Hp1 : exists pp1, h1 !! p = Some pp1 /\ with_nodeState pp1 r_new = with_nodeState pp r_new).
  { destruct (demoted_only_cases _ _ _ _ _ p Hd1 ltac:(discriminate)) as [E|(px & Hx & _ & _ & E)].
    - exists pp. split; [congruence|reflexivity].
    - exists (with_nodeState px r_dem). split; [assumption|].
      rewrite Hp in Hx. injection Hx as <-. reflexivity. }
  destruct Hp1 as (pp1 & Hpp1 & Hsame).
  exists (retag h1 p r_new).
  rewrite set_nodeState_total by (cbn; eauto). cbn. split; [reflexivity|]. split.
  - rewrite (retag_same _ _ _ _ Hpp1). now f_equal.
  - split.
    + intros x. rewrite retag_id. apply Hid1.
    + intros x Hx. assert (x <> p) by congruence.
      rewrite retag_other by assumption. apply Hch1. discriminate.
Qed.

Lemma reassign_by_id_spec r_old r_dem r_new s pid :
  roster_valid (heap s) (federateServers s) ->
  exists h' found,
    GetPeerByID s pid = Some found /\
    reassign_by_id r_old r_dem r_new s pid = Some (with_heap s h') /\
    (forall p pp, found = Some p -> heap s !! p = Some pp ->
       h' !! p = Some (with_nodeState pp r_new)) /\
    demoted_only s r_old r_dem found h'.
Proof.
  intros Hv. unfold reassign_by_id.
  destruct (demote_first s r_old r_dem Hv) as (h1 & E1 & Hd1).
  pose proof Hd1 as [Hid1 Hch1].
  assert (Hold : exists old, GetPeer s r_old = Some old /\
                             demote s old r_dem = Some (with_heap s h1))
    by (destruct (GetPeer s r_old); [eauto|discriminate]).
  destruct Hold as (old & -> & ->).
  destruct (find_peer_total (heap s) (has_id pid) _ Hv) as [found Hfound].
  assert (Hfound1 : GetPeerByID (with_heap s h1) pid = Some found).
  { unfold GetPeerByID. cbn. rewrite <- Hfound. apply find_peer_ext.
    intros fs _. unfold has_id. pose proof (Hid1 (Peer fs)) as E.
    destruct (h1 !! Peer fs), (heap s !! Peer fs); cbn in *; try discriminate;
      [injection E as E; now rewrite E|reflexivity]. }
  exists (match found with Some p => retag h1 p r_new | None => h1 end), found.
  split; [exact Hfound|]. rewrite Hfound1.
  destruct found as [p|]; cbn.
  - destruct (find_peer_Some _ _ _ _ Hfound) as (fp & pp & _ & _ & Hp & _).
    assert (Hp1 : exists pp1, h1 !! p = Some pp1 /\
                              with_nodeState pp1 r_new = with_nodeState pp r_new).
    { destruct (demoted_only_cases _ _ _ _ _ p Hd1 ltac:(discriminate)) as [E|(px & Hx & _ & _ & E)].
      - exists pp. split; [congruence|reflexivity].
      - exists (with_nodeState px r_dem). split; [assumption|].
        rewrite Hp in Hx. injection Hx as <-. reflexivity. }
    destruct Hp1 as (pp1 & Hpp1 & Hsame).
    rewrite set_nodeState_total by (cbn; eauto). cbn. split; [reflexivity|]. split.
    + intros p' pp' [= <-] Hpp'. rewrite (retag_same _ _ _ _ Hpp1).
      rewrite Hp in Hpp'. injection Hpp' as <-. now f_equal.
    + split.
      * intros x. rewrite retag_id. apply Hid1.
      * intros x Hx. assert (x <> p) by congruence.
        rewrite retag_other by assumption. apply Hch1. discriminate.
  - split; [reflexivity|]. split; [discriminate|]. split; auto.
Qed.

(* ===================================================================== *)
(** ** Properties: [handleNextLeader] *)
(* ===================================================================== *)

Lemma set_LeaderLast_spec s pid height i fs :
  GetFederateServerByID s pid = Some (Some i) ->
  federateServers s !! i = Some fs ->
  set_LeaderLast s pid height =
    Some (with_federateServers s (<[i := with_LeaderLast fs height]> (federateServers s))).
Proof. intros H1 H2. unfold set_LeaderLast. now rewrite H1, H2. Qed.

Lemma insert_LeaderLast_peers (l : list federateServer) i fs height :
  l !! i = Some fs -> Peer <$> <[i := with_LeaderLast fs height]> l = Peer <$> l.
Proof.
  intros H. rewrite list_fmap_insert. cbn. apply list_insert_id.
  rewrite list_lookup_fmap, H. reflexivity.
Qed.

(** C2 (as amended): the Leader, not in single-server mode, with policy [P],
    is handed the height [h = P.StartDBHeight + P.Term - 1]; the sum has
    not wrapped below [h], and [h] is not also the notification height
    [P.StartDBHeight + P.NotifyDBHeight - 1]. Then the call returns and
    afterwards this node is [LeaderPrev], the peer the roster showed as
    [LeaderElect] (if any) is [Leader], the policy is nil, and this node's
    own roster entry has [LeaderLast = h]. *)
Theorem regime_change_completes (s : server) (height : Z) (P : leaderPolicy) :
  roster_valid (heap s) (federateServers s) ->
  my_state s = Some NodeLeader ->
  isSingleServerMode s = false ->
  myLeaderPolicy s = Some P ->
  height = sub32 (add32 (StartDBHeight P) (Term P)) 1 ->
  height <= add32 (StartDBHeight P) (Term P) ->
  height <> sub32 (add32 (StartDBHeight P) (NotifyDBHeight P)) 1 ->
  exists s',
    handleNextLeader s height = Some s' /\
    my_state s' = Some NodeLeaderPrev /\
    (forall e, GetLeaderElect s = Some (Some e) ->
               nodeState <$> heap s' !! e = Some NodeLeader) /\
    myLeaderPolicy s' = None /\
    (exists i fs, GetMyFederateServer s' = Some (Some i) /\
                  federateServers s' !! i = Some fs /\ LeaderLast fs = height).
Proof.
  intros Hv Hme Hsingle HP Hh Hle Hnot.
  destruct (my_state_flags s _ Hme) as (HL & HE & _).
  destruct (my_state_spec s _ Hme) as (i & me & pme & Hmy & Hi & Hpme & Hid & Hst & Hbyid).
  unfold handleNextLeader. rewrite HL. cbn. rewrite Hsingle, HE, HP. cbn.
  destruct (Z.ltb_spec (add32 (StartDBHeight P) (Term P)) height) as [?|_]; [lia|].
  destruct (Z.eqb_spec height (sub32 (add32 (StartDBHeight P) (NotifyDBHeight P)) 1))
    as [?|_]; [contradiction|].
  destruct (Z.eqb_spec height (sub32 (add32 (StartDBHeight P) (Term P)) 1))
    as [_|?]; [|contradiction].
  (* s.SetPrevLeaderByID(s.nodeID) *)
  destruct (reassign_by_id_spec NodeLeaderPrev NodeFollower NodeLeaderPrev s (s_nodeID s) Hv)
    as (h2 & found & Hfound & E2 & Hat2 & Hd2).
  pose proof Hd2 as [Hid2 _].
  rewrite Hbyid in Hfound. injection Hfound as <-.
  change (reassign_by_id NodeLeaderPrev NodeFollower NodeLeaderPrev) with SetPrevLeaderByID in E2.
  rewrite E2. specialize (Hat2 _ _ eq_refl Hpme).
  assert (Hv2 : roster_valid h2 (federateServers s)).
  { eapply Forall_impl; [exact Hv|]. intros fs. cbn.
    rewrite <- !(fmap_is_Some nodeID), Hid2. auto. }
  (* the LeaderElect the roster shows is the one it showed before *)
  assert (Helect : GetLeaderElect (with_heap s h2) = GetLeaderElect s).
  { unfold GetLeaderElect, GetPeer. cbn. apply find_peer_ext. intros fs _.
    destruct (decide (Peer fs = Peer me)) as [->|Hne].
    - rewrite Hat2, Hpme. cbn. unfold has_state. rewrite Hst. reflexivity.
    - destruct (demoted_only_cases _ _ _ _ _ (Peer fs) Hd2 ltac:(congruence))
        as [->|(px & Hx & Hs & _ & ->)];
        [reflexivity|].
      rewrite Hx. cbn. unfold has_state. rewrite Hs. reflexivity. }
  rewrite Helect.
  destruct (find_peer_total (heap s) (has_state NodeLeaderElect) _ Hv) as [elect Hel].
  unfold GetLeaderElect at 1, GetPeer. rewrite Hel.
  (* s.SetLeaderPeer(elect), when there is one *)
  assert (Hstep : exists h4,
             match elect with
             | Some e => SetLeaderPeer (with_heap s h2) e
             | None => Some (with_heap s h2)
             end = Some (with_heap s h4) /\
             h4 !! Peer me = Some (with_nodeState pme NodeLeaderPrev) /\
             (forall x, nodeID <$> h4 !! x = nodeID <$> heap s !! x) /\
             (forall e, elect = Some e -> nodeState <$> h4 !! e = Some NodeLeader)).
  { destruct elect as [e|].
    - destruct (find_peer_Some _ _ _ _ Hel) as (fe & pe & _ & _ & Hpe & Hse).
      apply bool_decide_eq_true in Hse.
      assert (Hne : e <> Peer me) by (intros ->; congruence).
      assert (Hpe2 : exists pe2, h2 !! e = Some pe2).
      { apply (fmap_is_Some nodeID). rewrite Hid2, Hpe. cbn. eauto. }
      destruct Hpe2 as [pe2 Hpe2].
      destruct (reassign_spec NodeLeader NodeLeaderPrev NodeLeader (with_heap s h2) e pe2
                  Hv2 Hpe2) as (h4 & E4 & Hat4 & Hd4).
      pose proof Hd4 as [Hid4 _].
      exists h4. split; [exact E4|]. split; [|split].
      + destruct (demoted_only_cases _ _ _ _ _ (Peer me) Hd4 ltac:(congruence))
          as [->|(px & Hx & Hs & _ & _)];
          [exact Hat2|].
        cbn in Hx. rewrite Hat2 in Hx. injection Hx as <-. discriminate Hs.
      + intros x. rewrite Hid4. apply Hid2.
      + intros e' [= <-]. now rewrite Hat4.
    - exists h2. split; [reflexivity|]. split; [exact Hat2|]. split; [exact Hid2|].
      discriminate. }
  destruct Hstep as (h4 & -> & Hat4 & Hid4 & Hlead).
  (* s.myLeaderPolicy = nil; s.GetMyFederateServer().LeaderLast = height *)
  assert (Hmy4 : forall l', Peer <$> l' = Peer <$> federateServers s ->
                            find_fed h4 (has_id (s_nodeID s)) l' 0 = Some (Some i)).
  { intros l' Hl'. unfold GetMyFederateServer, GetFederateServerByID in Hmy.
    rewrite <- Hmy. symmetry. apply find_fed_ext; [now symmetry|].
    intros fs _. unfold has_id. pose proof (Hid4 (Peer fs)) as E.
    destruct (h4 !! Peer fs), (heap s !! Peer fs); cbn in *; try discriminate;
      [injection E as E; now rewrite E|reflexivity]. }
  erewrite set_LeaderLast_spec;
    [|unfold GetFederateServerByID; cbn; now apply Hmy4|cbn; exact Hi].
  eexists. split; [reflexivity|].
  assert (Hi' : <[i := with_LeaderLast me height]> (federateServers s) !! i
                = Some (with_LeaderLast me height)).
  { apply list_lookup_insert_eq. eapply lookup_lt_Some; eauto. }
  split; [|split; [|split]].
  - unfold my_state, GetMyFederateServer, GetFederateServerByID. cbn.
    rewrite Hmy4 by (now apply insert_LeaderLast_peers). rewrite Hi'. cbn.
    rewrite Hat4. reflexivity.
  - intros e He. cbn. apply Hlead. unfold GetLeaderElect, GetPeer in He. congruence.
  - reflexivity.
  - exists i, (with_LeaderLast me height).
    unfold GetMyFederateServer, GetFederateServerByID. cbn.
    rewrite Hmy4 by (now apply insert_LeaderLast_peers). auto.
Qed.

(* ===================================================================== *)
(** ** Properties: [handleAddPeerMsg] *)
(* ===================================================================== *)

Lemma duplicated_total h p l : roster_valid h l -> is_Some (duplicated h p l).
Proof.
  induction 1 as [|fs l [q Hq] _ IH]; cbn; [eauto|].
  rewrite Hq. destruct (_ || _); eauto.
Qed.

Lemma duplicated_false h p l fs q :
  duplicated h p l = Some false -> fs ∈ l -> h !! Peer fs = Some q ->
  addr q <> addr p /\ nodeID q <> nodeID p.
Proof.
  induction l as [|f l IH]; cbn; intros H Hin Hq; [inversion Hin|].
  destruct (h !! Peer f) as [q'|] eqn:Hq'; [|discriminate].
  destruct (bool_decide_reflect (addr q' = addr p)) as [?|Ha]; [discriminate|].
  destruct (bool_decide_reflect (nodeID q' = nodeID p)) as [?|Hn]; [discriminate|].
  cbn in H. apply elem_of_cons in Hin as [->|Hin].
  - rewrite Hq in Hq'. injection Hq' as <-. auto.
  - now apply IH.
Qed.

(** The peer [p] is one the manager turns away. *)
Definition unwelcome (now : Z) (s : server) (st : peerState) (pr : peer) : Prop :=
  shutdown s <> 0 \/
  (exists fs q, fs ∈ federateServers s /\ heap s !! Peer fs = Some q /\
                (addr q = addr pr \/ nodeID q = nodeID pr)) \/
  (exists host port banEnd, SplitHostPort X (addr pr) = Some (host, port) /\
                            banned st !! host = Some banEnd /\ now < banEnd) \/
  MaxPeers X <= Count st.

(** C5: a non-nil peer that arrives while the server shuts down, or that
    repeats the address or node ID of a federate server, or whose host is
    under a ban not yet over, or that finds the peer set full, is turned
    away: [handleAddPeerMsg] returns false, [p.Shutdown()] is called, and
    the three peer maps are as they were. *)
Theorem handleAddPeerMsg_refuses (now : Z) (s : server) (st : peerState)
    (p : loc) (pr : peer) :
  heap s !! p = Some pr ->
  roster_valid (heap s) (federateServers s) ->
  unwelcome now s st pr ->
  exists s' st',
    handleAddPeerMsg now s st (Some p) = Some (false, s', st') /\
    trace s' = trace s ++ [EvShutdown p] /\
    peers st' = peers st /\
    outboundPeers st' = outboundPeers st /\
    persistentPeers st' = persistentPeers st.
Proof.
  intros Hp Hv Hbad. unfold handleAddPeerMsg, refuse.
  destruct (Z.eqb_spec (shutdown s) 0) as [Hrun|Hdown]; cbn;
    [|eexists _, _; split; [reflexivity|]; repeat split].
  rewrite Hp.
  destruct (duplicated_total (heap s) pr _ Hv) as [dup Hdup]. rewrite Hdup.
  destruct dup; [eexists _, _; split; [reflexivity|]; repeat split|].
  destruct (SplitHostPort X (addr pr)) as [[host port]|] eqn:Hsplit;
    [|eexists _, _; split; [reflexivity|]; repeat split].
  assert (Hfull : forall st0, Count st0 = Count st -> banned st !! host = None \/
                    (exists e, banned st !! host = Some e /\ e <= now) ->
                    MaxPeers X <= Count st0).
  { intros st0 Hcount Hban.
    destruct Hbad as [?|[(fs & q & Hin & Hq & Hsame)|[(host' & port' & e & Hs & Hb & Hlt)|?]]].
    - contradiction.
    - destruct (duplicated_false _ _ _ _ _ Hdup Hin Hq). tauto.
    - rewrite Hsplit in Hs. injection Hs as <- <-.
      destruct Hban as [Hnone|(e' & He' & Hle)]; [congruence|].
      rewrite Hb in He'. injection He' as <-. lia.
    - lia. }
  destruct (banned st !! host) as [banEnd|] eqn:Hban.
  - destruct (Z.ltb_spec now banEnd) as [Hlt|Hge];
      [eexists _, _; split; [reflexivity|]; repeat split|].
    cbn. rewrite (proj2 (Z.leb_le _ _)) by (apply Hfull; [reflexivity|right; eauto]).
    eexists _, _. split; [reflexivity|].
    repeat split. now destruct (negb _).
  - cbn. rewrite (proj2 (Z.leb_le _ _)) by (apply Hfull; [reflexivity|left; auto]).
    eexists _, _. split; [reflexivity|].
    repeat split. now destruct (negb _).
Qed.

(* ===================================================================== *)
(** ** Properties: at most one holder of each leading role *)
(* ===================================================================== *)

(** At most one federate peer holds role [r]: two roster slots whose peers
    hold it point at the same peer. *)
Definition at_most_one (h : gmap loc peer) (l : list federateServer) (r : NodeState)
    : Prop :=
  forall fa fb pa pb,
    fa ∈ l -> fb ∈ l -> h !! Peer fa = Some pa -> h !! Peer fb = Some pb ->
    nodeState pa = r -> nodeState pb = r -> Peer fa = Peer fb.

Definition roles_unique (s : server) : Prop :=
  at_most_one (heap s) (federateServers s) NodeLeader /\
  at_most_one (heap s) (federateServers s) NodeLeaderElect /\
  at_most_one (heap s) (federateServers s) NodeLeaderPrev.

(** The roster peers that hold role [r], slot by slot. *)
Definition holders (s : server) (r : NodeState) : list loc :=
  Peer <$> List.filter
             (fun fs => match heap s !! Peer fs with
                        | Some p => has_state r p
                        | None => false
                        end)
             (federateServers s).

Lemma at_most_one_after s r_old r_dem r_new target h' r :
  roster_valid (heap s) (federateServers s) ->
  demoted_only s r_old r_dem target h' ->
  (forall p pp', target = Some p -> h' !! p = Some pp' -> nodeState pp' = r_new) ->
  at_most_one (heap s) (federateServers s) r ->
  (r = r_old /\ r_dem <> r) \/ (r <> r_new /\ r <> r_dem) ->
  at_most_one h' (federateServers s) r.
Proof.
  intros Hv Hd Htarget Hone Hcase.
  assert (Hkept : forall fs p', fs ∈ federateServers s -> h' !! Peer fs = Some p' ->
                    nodeState p' = r -> Some (Peer fs) <> target ->
                    heap s !! Peer fs = Some p' /\ (r = r_old -> False)).
  { intros fs p' Hin Hp' Hr Hnt.
    destruct Hd as [_ Hd]. specialize (Hd _ Hnt). rewrite Hd in Hp'.
    destruct (decide (GetPeer s r_old = Some (Some (Peer fs)))) as [Hg|Hg].
    - exfalso. destruct (heap s !! Peer fs) as [px|]; cbn in Hp'; [|discriminate].
      injection Hp' as <-. cbn in Hr.
      destruct Hcase as [[_ Hdem]|[_ Hdem]]; congruence.
    - split; [exact Hp'|]. intros ->.
      destruct (find_peer_total (heap s) (has_state r_old) _ Hv) as [[q|] Hq].
      + destruct (find_peer_Some _ _ _ _ Hq) as (fq & pq & Hinq & Hfq & Hpq & Hsq).
        apply bool_decide_eq_true in Hsq. subst q.
        assert (Heq : Peer fq = Peer fs) by (eapply Hone; eauto).
        apply Hg. unfold GetPeer. now rewrite Hq, Heq.
      + pose proof (find_peer_None _ _ _ _ _ Hq Hin Hp') as Hf.
        unfold has_state in Hf. apply bool_decide_eq_false in Hf. contradiction. }
  intros fa fb pa pb Ha Hb Hpa Hpb Hra Hrb.
  destruct (decide (Some (Peer fa) = target)) as [Hta|Hta],
           (decide (Some (Peer fb) = target)) as [Htb|Htb].
  - congruence.
  - destruct (Hkept fb pb Hb Hpb Hrb Htb) as [Hb0 Hnb].
    destruct Hcase as [[-> _]|[Hnew _]]; [now destruct Hnb|].
    symmetry in Hta. pose proof (Htarget _ _ Hta Hpa). congruence.
  - destruct (Hkept fa pa Ha Hpa Hra Hta) as [Ha0 Hna].
    destruct Hcase as [[-> _]|[Hnew _]]; [now destruct Hna|].
    symmetry in Htb. pose proof (Htarget _ _ Htb Hpb). congruence.
  - destruct (Hkept fa pa Ha Hpa Hra Hta) as [Ha0 _].
    destruct (Hkept fb pb Hb Hpb Hrb Htb) as [Hb0 _].
    eapply Hone; eauto.
Qed.

Lemma reassign_target_valid r_old r_dem r_new s p s' :
  reassign r_old r_dem r_new s p = Some s' -> is_Some (heap s !! p).
Proof.
  unfold reassign. destruct (GetPeer s r_old) as [[q|]|]; cbn; try discriminate.
  - destruct (set_nodeState s q r_dem) as [s1|] eqn:E1; [|discriminate].
    intros H. apply set_nodeState_spec in E1 as [_ ->].
    apply set_nodeState_spec in H as [Hp _]. cbn in Hp. now apply retag_is_Some in Hp.
  - intros H. now apply set_nodeState_spec in H as [? _].
Qed.

Lemma reassign_keeps s s' r_old r_dem r_new p r :
  roster_valid (heap s) (federateServers s) ->
  reassign r_old r_dem r_new s p = Some s' ->
  at_most_one (heap s) (federateServers s) r ->
  (r = r_old /\ r_dem <> r) \/ (r <> r_new /\ r <> r_dem) ->
  at_most_one (heap s') (federateServers s') r.
Proof.
  intros Hv Hrun Hone Hcase.
  destruct (reassign_target_valid _ _ _ _ _ _ Hrun) as [pp Hpp].
  destruct (reassign_spec r_old r_dem r_new s p pp Hv Hpp) as (h' & E & Hat & Hd).
  rewrite E in Hrun. injection Hrun as <-. cbn.
  eapply at_most_one_after; eauto.
  intros p0 pp' [= <-] Hp0. rewrite Hat in Hp0. now injection Hp0 as <-.
Qed.

Lemma reassign_by_id_keeps s s' r_old r_dem r_new pid r :
  roster_valid (heap s) (federateServers s) ->
  reassign_by_id r_old r_dem r_new s pid = Some s' ->
  at_most_one (heap s) (federateServers s) r ->
  (r = r_old /\ r_dem <> r) \/ (r <> r_new /\ r <> r_dem) ->
  at_most_one (heap s') (federateServers s') r.
Proof.
  intros Hv Hrun Hone Hcase.
  destruct (reassign_by_id_spec r_old r_dem r_new s pid Hv)
    as (h' & found & Hfound & E & Hat & Hd).
  rewrite E in Hrun. injection Hrun as <-. cbn.
  eapply at_most_one_after; eauto.
  intros p0 pp' -> Hp0.
  destruct (find_peer_Some _ _ _ _ Hfound) as (fp & pp & _ & _ & Hp & _).
  rewrite (Hat _ _ eq_refl Hp) in Hp0. now injection Hp0 as <-.
Qed.

(** X13: the four mutators of [LeaderElect] and [LeaderPrev]
    ([setLeaderElect], [setLeaderElectByID], [SetPrevLeaderPeer],
    [SetPrevLeaderByID]) keep every leading role with at most one holder:
    on a valid roster where no two federate peers share the role [Leader],
    [LeaderElect] or [LeaderPrev], the same holds after the call. *)
Lemma elect_and_prev_mutators_keep_roles_unique s s' p pid :
  roster_valid (heap s) (federateServers s) ->
  roles_unique s ->
  setLeaderElect s p = Some s' \/ setLeaderElectByID s pid = Some s' \/
  SetPrevLeaderPeer s p = Some s' \/ SetPrevLeaderByID s pid = Some s' ->
  roles_unique s'.
Proof.
  intros Hv (HL & HE & HP) [H|[H|[H|H]]]; repeat split;
    first [ eapply (reassign_keeps s s'); [exact Hv|exact H|assumption|]
          | eapply (reassign_by_id_keeps s s'); [exact Hv|exact H|assumption|] ];
    first [ left; split; [reflexivity|discriminate]
          | right; split; discriminate ].
Qed.

(** X14: the two mutators of [Leader] ([SetLeaderPeer],
    [SetLeaderPeerByID]) keep [Leader] and [LeaderElect] with at most one
    holder each, on a valid roster where each leading role had at most one
    holder before the call. *)
Lemma leader_mutators_keep_leader_and_elect_unique s s' p pid :
  roster_valid (heap s) (federateServers s) ->
  roles_unique s ->
  SetLeaderPeer s p = Some s' \/ SetLeaderPeerByID s pid = Some s' ->
  at_most_one (heap s') (federateServers s') NodeLeader /\
  at_most_one (heap s') (federateServers s') NodeLeaderElect.
Proof.
  intros Hv (HL & HE & HP) [H|H]; split;
    first [ eapply (reassign_keeps s s'); [exact Hv|exact H|assumption|]
          | eapply (reassign_by_id_keeps s s'); [exact Hv|exact H|assumption|] ];
    first [ left; split; [reflexivity|discriminate]
          | right; split; discriminate ].
Qed.

(* ===================================================================== *)
(** ** Properties: reading a role back *)
(* ===================================================================== *)

Lemma same_ids_valid (h h' : gmap loc peer) (l : list federateServer) :
  (forall x, nodeID <$> h' !! x = nodeID <$> h !! x) ->
  roster_valid h l -> roster_valid h' l.
Proof.
  intros Hid Hv. eapply Forall_impl; [exact Hv|]. intros fs. cbn.
  rewrite <- !(fmap_is_Some nodeID), Hid. auto.
Qed.

(** On a valid roster where at most one peer holds [r], the search for [r]
    finds the peer [p] as soon as [p] is on the roster and holds [r]. *)
Lemma GetPeer_unique_holder (s : server) (r : NodeState) (p : loc) (pp : peer)
    (fs : federateServer) :
  roster_valid (heap s) (federateServers s) ->
  at_most_one (heap s) (federateServers s) r ->
  fs ∈ federateServers s -> Peer fs = p ->
  heap s !! p = Some pp -> nodeState pp = r ->
  GetPeer s r = Some (Some p).
Proof.
  intros Hv Hone Hin Hfs Hp Hr. unfold GetPeer.
  destruct (find_peer_total (heap s) (has_state r) _ Hv) as [[q|] Hq]; rewrite Hq.
  - destruct (find_peer_Some _ _ _ _ Hq) as (fq & pq & Hinq & Hfq & Hpq & Hsq).
    apply bool_decide_eq_true in Hsq. subst q p.
    do 2 f_equal. eapply Hone; eauto.
  - subst p. pose proof (find_peer_None _ _ _ _ _ Hq Hin Hp) as Hf.
    apply bool_decide_eq_false in Hf. contradiction.
Qed.

Lemma reassign_then_get (r r_dem : NodeState) (s : server) (p : loc)
    (fs : federateServer) :
  roster_valid (heap s) (federateServers s) ->
  at_most_one (heap s) (federateServers s) r ->
  r_dem <> r -> fs ∈ federateServers s -> Peer fs = p ->
  exists s', reassign r r_dem r s p = Some s' /\ GetPeer s' r = Some (Some p).
Proof.
  intros Hv Hone Hdem Hin Hfs.
  destruct (proj1 (Forall_forall _ _) Hv fs Hin) as [pp Hpp]. rewrite Hfs in Hpp.
  destruct (reassign_spec r r_dem r s p pp Hv Hpp) as (h' & E & Hat & Hd).
  exists (with_heap s h'). split; [exact E|].
  eapply (GetPeer_unique_holder (with_heap s h') r p _ fs); cbn; eauto.
  - destruct Hd as [Hid _]. eapply same_ids_valid; eauto.
  - apply (reassign_keeps s (with_heap s h') r r_dem r p r Hv E Hone). left. auto.
Qed.

Lemma reassign_by_id_then_get (r r_dem : NodeState) (s : server) (pid : string) :
  roster_valid (heap s) (federateServers s) ->
  at_most_one (heap s) (federateServers s) r ->
  r_dem <> r ->
  exists s' found,
    GetPeerByID s pid = Some found /\
    reassign_by_id r r_dem r s pid = Some s' /\ GetPeer s' r = Some found.
Proof.
  intros Hv Hone Hdem.
  destruct (reassign_by_id_spec r r_dem r s pid Hv) as (h' & found & Hfound & E & Hat & Hd).
  exists (with_heap s h'), found. split; [exact Hfound|]. split; [exact E|].
  pose proof Hd as [Hid Hch].
  assert (Hv' : roster_valid h' (federateServers s)) by (eapply same_ids_valid; eauto).
  assert (Hone' : at_most_one h' (federateServers s) r).
  { apply (reassign_by_id_keeps s (with_heap s h') r r_dem r pid r Hv E Hone). left. auto. }
  destruct found as [p|].
  - destruct (find_peer_Some _ _ _ _ Hfound) as (fp & pp & Hin & Hfp & Hp & _).
    eapply (GetPeer_unique_holder (with_heap s h') r p _ fp); cbn; eauto.
  - unfold GetPeer. cbn.
    destruct (find_peer_total h' (has_state r) _ Hv') as [[q|] Hq]; rewrite Hq;
      [exfalso|reflexivity].
    destruct (find_peer_Some _ _ _ _ Hq) as (fq & pq & Hinq & Hfq & Hpq & Hsq).
    apply bool_decide_eq_true in Hsq.
    destruct (demoted_only_cases _ _ _ _ _ q Hd ltac:(discriminate))
      as [Esame|(px & Hx & Hs & Hg & Enew)].
    + rewrite Esame in Hpq.
      assert (Hg : GetPeer s r = Some (Some q))
        by (eapply (GetPeer_unique_holder s r q pq fq); eauto).
      specialize (Hch q ltac:(discriminate)).
      rewrite decide_True in Hch by exact Hg.
      rewrite Esame, Hpq in Hch. cbn in Hch. injection Hch as Hch.
      apply (f_equal nodeState) in Hch. cbn in Hch. congruence.
    + rewrite Enew in Hpq. injection Hpq as <-. cbn in Hsq. congruence.
Qed.

(** X15: a role written is the role read back. On a valid roster where
    each leading role has at most one holder, each of the six mutators
    returns, and the matching getter then gives the peer that was set:
    the pointer passed, when it is on the roster, or the first peer with
    the node ID passed. When no federate server has that node ID the by-ID
    mutators still demote the current holder, and the getter then gives
    nil: the role is vacant. *)
Theorem getters_read_back_setters (s : server) (p : loc) (fs : federateServer)
    (pid : string) :
  roster_valid (heap s) (federateServers s) ->
  roles_unique s ->
  fs ∈ federateServers s -> Peer fs = p ->
  (exists s', SetLeaderPeer s p = Some s' /\ GetLeaderPeer s' = Some (Some p)) /\
  (exists s', setLeaderElect s p = Some s' /\ GetLeaderElect s' = Some (Some p)) /\
  (exists s', SetPrevLeaderPeer s p = Some s' /\ GetPrevLeaderPeer s' = Some (Some p)) /\
  (exists s' found, GetPeerByID s pid = Some found /\
     SetLeaderPeerByID s pid = Some s' /\ GetLeaderPeer s' = Some found) /\
  (exists s' found, GetPeerByID s pid = Some found /\
     setLeaderElectByID s pid = Some s' /\ GetLeaderElect s' = Some found) /\
  (exists s' found, GetPeerByID s pid = Some found /\
     SetPrevLeaderByID s pid = Some s' /\ GetPrevLeaderPeer s' = Some found).
Proof.
  intros Hv (HL & HE & HP) Hin Hfs.
  split; [|split; [|split; [|split; [|split]]]].
  - apply (reassign_then_get NodeLeader NodeLeaderPrev s p fs); auto; discriminate.
  - apply (reassign_then_get NodeLeaderElect NodeFollower s p fs); auto; discriminate.
  - apply (reassign_then_get NodeLeaderPrev NodeFollower s p fs); auto; discriminate.
  - apply (reassign_by_id_then_get NodeLeader NodeLeaderPrev s pid); auto; discriminate.
  - apply (reassign_by_id_then_get NodeLeaderElect NodeFollower s pid); auto; discriminate.
  - apply (reassign_by_id_then_get NodeLeaderPrev NodeFollower s pid); auto; discriminate.
Qed.

(* ===================================================================== *)
(** ** Properties: outbound replenishment *)
(* ===================================================================== *)

(** An address tried less than ten minutes ago, in a group with no outbound
    peer, on the default port, is dialled at once, however few candidates
    were skipped before it. *)
Lemma recent_address_is_dialled (now : Z) (st : peerState) (tries : Z) (a : KnownAddress) :
  default 0 (outboundGroups st !! GroupKey X (ka_na a)) = 0 ->
  tries < 100 ->
  now < ka_lastAttempt a + 600 ->
  Itoa X (na_Port (ka_na a)) = DefaultPort X ->
  peerHandler_examine now st tries (Some a) = Connect (NetAddressKey X (ka_na a)).
Proof.
  intros Hgroup Htries Hrecent Hport. unfold peerHandler_examine.
  rewrite Hgroup. cbn.
  destruct (Z.ltb_spec 100 (tries + 1)); [lia|].
  destruct (Z.ltb_spec (ka_lastAttempt a + 600) now); [lia|]. cbn.
  rewrite bool_decide_eq_true_2 by assumption. reflexivity.
Qed.

(** An address last tried more than ten minutes ago is the one skipped,
    for the first 29 candidates of a burst. *)
Lemma stale_address_is_skipped (now : Z) (st : peerState) (tries : Z) (a : KnownAddress) :
  default 0 (outboundGroups st !! GroupKey X (ka_na a)) = 0 ->
  tries + 1 < 30 ->
  ka_lastAttempt a + 600 < now ->
  peerHandler_examine now st tries (Some a) = Skip (tries + 1).
Proof.
  intros Hgroup Htries Hstale. unfold peerHandler_examine.
  rewrite Hgroup. cbn.
  destruct (Z.ltb_spec 100 (tries + 1)); [lia|].
  destruct (Z.ltb_spec (ka_lastAttempt a + 600) now); [|lia].
  destruct (Z.ltb_spec (tries + 1) 30); [|lia]. reflexivity.
Qed.

(* ===================================================================== *)
(** ** Properties: what [randomUint16Number] returns *)
(* ===================================================================== *)

(** When every read succeeds the loop over reads is the loop over
    samples. *)
Lemma reads_all_succeed (max : Z) (samples : list Z) :
  randomUint16Number_reads max (map Some samples)
  = match randomUint16Number max samples with
    | Drawn v rest => Returned v (map Some rest)
    | DivideByZero => Panics
    | Starved => Exhausted
    end.
Proof.
  unfold randomUint16Number_reads, randomUint16Number.
  destruct (max =? 0); [reflexivity|].
  generalize 0 as x. induction samples as [|y samples IH]; intros x; [reflexivity|].
  cbn [map read_loop sample_loop].
  destruct (y <? limitRange max); [reflexivity|]. apply IH.
Qed.

(** What was read when the loop returns: the reads before the last one
    gave only samples at or above the limit, and the last one gave a sample
    below it, or failed with [randomNumber] still below it and nothing read
    before. *)
Lemma read_loop_Returned (max limit x : Z) (reads : list (option Z)) (v : Z)
    (unread : list (option Z)) :
  read_loop max limit x reads = Returned v unread ->
  exists before r,
    reads = before ++ r :: unread /\
    Forall (fun o => forall y, o = Some y -> limit <= y) before /\
    match r with
    | Some y => y < limit /\ v = y mod max
    | None => before = [] /\ x < limit /\ v = x mod max
    end.
Proof.
  revert x. induction reads as [|o reads IH]; intros x; cbn [read_loop]; [discriminate|].
  destruct (Z.ltb_spec (match o with Some y => y | None => x end) limit) as [Hlt|Hge].
  - intros [= <- <-]. exists [], o. split; [reflexivity|]. split; [constructor|].
    destruct o as [y|]; auto.
  - intros H. destruct (IH _ H) as (before & r & -> & Hall & Hr).
    exists (o :: before), r. split; [reflexivity|].
    destruct r as [y|].
    + split; [|exact Hr]. constructor; [|exact Hall].
      intros y0 ->. exact Hge.
    + destruct Hr as (_ & Hx & _). lia.
Qed.

(** X6: whatever the random source does, a value returned by
    [randomUint16Number(max)] lies in [0, max): it is never [max] itself.
    It is the remainder of the sample last read, which lay below
    [(65535 / max) * max], every sample read before lay at or above that
    limit, and nothing after it was read; or else it is 0, returned without
    any sample when the very first read fails, because the error of
    [binary.Read] is dropped and [randomNumber] is still 0. *)
Theorem randomUint16Number_in_range (max : Z) (reads : list (option Z)) (v : Z)
    (unread : list (option Z)) :
  1 <= max <= 65535 ->
  randomUint16Number_reads max reads = Returned v unread ->
  0 <= v < max /\
  exists before r,
    reads = before ++ r :: unread /\
    Forall (fun o => forall y, o = Some y -> (65535 / max) * max <= y) before /\
    match r with
    | Some x => x < (65535 / max) * max /\ v = x mod max
    | None => before = [] /\ v = 0
    end.
Proof.
  intros Hmax. unfold randomUint16Number_reads.
  destruct (Z.eqb_spec max 0) as [->|_]; [lia|].
  rewrite limitRange_exact by assumption. intros H.
  destruct (read_loop_Returned _ _ _ _ _ _ H) as (before & r & E & Hall & Hr).
  assert (Hv : 0 <= v < max).
  { destruct r as [x|]; [destruct Hr as [_ ->]|destruct Hr as (_ & _ & ->)];
      apply Z.mod_pos_bound; lia. }
  split; [exact Hv|]. exists before, r. split; [exact E|]. split; [exact Hall|].
  destruct r as [x|]; [exact Hr|].
  destruct Hr as (Hb & _ & ->). split; [exact Hb|]. apply Z.mod_0_l. lia.
Qed.

(** The samples of a [uint16] for which one call with a single sample
    returns [r]. *)
Definition samples_giving (max r : Z) : list Z :=
  List.filter
    (fun x => match randomUint16Number max [x] with
              | Drawn v _ => v =? r
              | _ => false
              end)
    (seqZ 0 65536).

Lemma filter_none {A : Type} (f : A -> bool) (l : list A) :
  Forall (fun x => f x = false) l -> List.filter f l = [].
Proof.
  induction 1 as [|x l Hx _ IH]; [reflexivity|]. cbn. now rewrite Hx.
Qed.

Lemma filter_same {A : Type} (f g : A -> bool) (l : list A) :
  Forall (fun x => f x = g x) l -> List.filter f l = List.filter g l.
Proof.
  induction 1 as [|x l Hx _ IH]; [reflexivity|]. cbn. now rewrite Hx, IH.
Qed.

(** One block of [max] consecutive samples holds each remainder once. *)
Lemma one_per_block (max r q : Z) :
  0 <= r < max -> 0 <= q ->
  List.filter (fun x => x mod max =? r) (seqZ (q * max) max) = [q * max + r].
Proof.
  intros Hr Hq.
  replace max with (r + (1 + (max - r - 1))) at 2 by lia.
  rewrite seqZ_app, seqZ_app by lia.
  rewrite !List.filter_app.
  rewrite (filter_none _ (seqZ (q * max) r)), (filter_none _ (seqZ _ (max - r - 1))).
  - change (seqZ (q * max + r) 1) with [q * max + r]. cbn.
    replace ((q * max + r) mod max) with r; [now rewrite Z.eqb_refl|].
    rewrite Z.add_comm, Z.mod_add by lia. now rewrite Z.mod_small.
  - apply Forall_forall. intros x Hx. apply elem_of_seqZ in Hx.
    apply Z.eqb_neq. replace x with ((x - q * max) + q * max) by lia.
    rewrite Z.mod_add by lia. rewrite Z.mod_small; lia.
  - apply Forall_forall. intros x Hx. apply elem_of_seqZ in Hx.
    apply Z.eqb_neq. replace x with ((x - q * max) + q * max) by lia.
    rewrite Z.mod_add by lia. rewrite Z.mod_small; lia.
Qed.

Lemma one_per_block_each (max r : Z) (q : nat) :
  0 <= r < max ->
  length (List.filter (fun x => x mod max =? r) (seqZ 0 (Z.of_nat q * max))) = q.
Proof.
  intros Hr. induction q as [|q IH]; [reflexivity|].
  replace (Z.of_nat (S q) * max) with (Z.of_nat q * max + max) by lia.
  rewrite seqZ_app by nia. rewrite List.filter_app, length_app, IH.
  rewrite Z.add_0_l, one_per_block by lia. cbn. lia.
Qed.

(** X7: no modulo bias. Of the 65536 values a sample can take, exactly
    [65535 / max] make [randomUint16Number(max)] return [r], the same number
    for every [r] in [0, max). *)
Theorem randomUint16Number_unbiased (max r : Z) :
  1 <= max <= 65535 -> 0 <= r < max ->
  Z.of_nat (length (samples_giving max r)) = 65535 / max.
Proof.
  intros Hmax Hr. unfold samples_giving.
  set (q := 65535 / max).
  assert (Hq : 0 <= q) by (apply Z.div_pos; lia).
  assert (Hqm : q * max <= 65535) by (unfold q; rewrite Z.mul_comm; apply Z.mul_div_le; lia).
  rewrite (filter_same _ (fun x => (x <? q * max) && (x mod max =? r))).
  2:{ apply Forall_forall. intros x _. unfold randomUint16Number.
      destruct (Z.eqb_spec max 0) as [?|_]; [lia|].
      rewrite limitRange_exact by assumption. cbn [sample_loop]. fold q.
      destruct (x <? q * max); reflexivity. }
  replace 65536 with (q * max + (65536 - q * max)) by lia.
  rewrite seqZ_app by lia. rewrite List.filter_app, length_app.
  rewrite (filter_none _ (seqZ _ (65536 - q * max))).
  2:{ apply Forall_forall. intros x Hx. apply elem_of_seqZ in Hx.
      destruct (Z.ltb_spec x (q * max)); [lia|reflexivity]. }
  rewrite (filter_same _ (fun x => x mod max =? r)).
  2:{ apply Forall_forall. intros x Hx. apply elem_of_seqZ in Hx.
      destruct (Z.ltb_spec x (q * max)); [reflexivity|lia]. }
  cbn [length]. rewrite Nat.add_0_r.
  rewrite <- (Z2Nat.id q) at 1 by assumption.
  rewrite one_per_block_each by assumption. now rewrite Z2Nat.id.
Qed.

(* ===================================================================== *)
(** ** [dynamicTickDuration] *)
(* ===================================================================== *)

(** [time.Duration] counts nanoseconds. *)
Definition Second : Z := 1000000000.
Definition Minute : Z := 60 * Second.
Definition Hour : Z := 60 * Minute.

Definition dynamicTickDuration (remaining : Z) : Z :=
  if remaining <=? Second * 5 then Second
  else if remaining <=? Second * 15 then Second * 5
  else if remaining <=? Minute then Second * 15
  else if remaining <=? Minute * 5 then Minute
  else if remaining <=? Minute * 15 then Minute * 5
  else if remaining <=? Hour then Minute * 15
  else Hour.

Ltac tick_cases r :=
  unfold dynamicTickDuration, Hour, Minute, Second in *;
  repeat match goal with
         | |- context [?a <=? ?b] => destruct (Z.leb_spec a b) as [?|?]
         end;
  try lia.

(** X8: the warning tick chosen by [dynamicTickDuration] lies between one
    second and one hour, never exceeds the time that remains once a second
    or more remains, is at least a fifth of it up to one hour, and does not
    shrink when more time remains. *)
Theorem dynamicTickDuration_bounds (remaining : Z) :
  Second <= dynamicTickDuration remaining <= Hour /\
  (Second <= remaining -> dynamicTickDuration remaining <= remaining) /\
  (remaining <= Hour -> remaining <= 5 * dynamicTickDuration remaining) /\
  (forall more, remaining <= more ->
     dynamicTickDuration remaining <= dynamicTickDuration more).
Proof.
  split; [|split; [|split]].
  - tick_cases remaining.
  - intros H. tick_cases remaining.
  - intros H. tick_cases remaining.
  - intros more H. tick_cases remaining.
Qed.

(* ===================================================================== *)
(** ** Properties: admission, capacity and bans *)
(* ===================================================================== *)

Lemma size_add_le (p : loc) (S : gset loc) :
  Z.of_nat (size S) <= Z.of_nat (size ({[p]} ∪ S)) <= Z.of_nat (size S) + 1.
Proof.
  destruct (decide (p ∈ S)) as [Hin|Hout].
  - rewrite (subseteq_union_1_L {[p]} S) by (now apply singleton_subseteq_l). lia.
  - rewrite size_union by (now apply disjoint_singleton_l).
    rewrite size_singleton. lia.
Qed.

Lemma with_banned_same (st : peerState) : with_banned st (banned st) = st.
Proof. now destruct st. Qed.

(** What the state is after an admission: the ban on [host], over by now,
    is dropped, and the peer is put in the map of its kind. *)
Definition admitted (st : peerState) (p : loc) (pr : peer) (host : string) : peerState :=
  let st := with_banned st (delete host (banned st)) in
  if inbound pr then add_inbound st p
  else add_outbound st p (GroupKey X (na pr)) (persistent pr).

Lemma Count_with_banned st b : Count (with_banned st b) = Count st.
Proof. reflexivity. Qed.

Lemma OutboundCount_with_banned st b : OutboundCount (with_banned st b) = OutboundCount st.
Proof. reflexivity. Qed.

Lemma admitted_counts st p pr host :
  Count st <= Count (admitted st p pr host) <= Count st + 1 /\
  OutboundCount st <= OutboundCount (admitted st p pr host) <= OutboundCount st + 1 /\
  maxOutboundPeers (admitted st p pr host) = maxOutboundPeers st.
Proof.
  unfold admitted, add_inbound, add_outbound, Count, OutboundCount.
  destruct (inbound pr); [|destruct (persistent pr)]; cbn;
    match goal with
    | |- context [size ({[p]} ∪ ?S)] => pose proof (size_add_le p S)
    end; lia.
Qed.

(** Every way [handleAddPeerMsg] can return: a refusal, which leaves the
    peer maps and the group counts alone, or an admission. *)
Ltac refused_case :=
  intros [= <- <- <-]; do 3 (split; [reflexivity|]); left; split; reflexivity.

Lemma handleAddPeerMsg_cases now s st p b s' st' :
  handleAddPeerMsg now s st p = Some (b, s', st') ->
  heap s' = heap s /\ federateServers s' = federateServers s /\
  shutdown s' = shutdown s /\
  ((b = false /\ st' = st) \/
   (b = false /\ exists host, st' = with_banned st (delete host (banned st))) \/
   (b = true /\ Count st < MaxPeers X /\
    exists q pr host port,
      p = Some q /\ heap s !! q = Some pr /\
      SplitHostPort X (addr pr) = Some (host, port) /\
      st' = admitted st q pr host)).
Proof.
  unfold handleAddPeerMsg, refuse. destruct p as [q|]; [|refused_case].
  destruct (negb (shutdown s =? 0)); [refused_case|].
  destruct (heap s !! q) as [pr|] eqn:Hq; [|discriminate].
  destruct (duplicated (heap s) pr (federateServers s)) as [[|]|]; try discriminate;
    [refused_case|].
  destruct (SplitHostPort X (addr pr)) as [[host port]|] eqn:Hsplit;
    [|refused_case].
  assert (Hafter : forall st0 : peerState,
            Count st0 = Count st ->
            st0 = with_banned st (delete host (banned st)) ->
            (let peerCount := Count st0 in
             let s0 := if negb (prevConnected s =? peerCount)
                       then with_prevConnected s peerCount else s in
             if MaxPeers X <=? Count st0
             then Some (false, emit s0 (EvShutdown q), st0)
             else if inbound pr
                  then Some (true, emit s0 (EvStart q), add_inbound st0 q)
                  else Some (true, s0, add_outbound st0 q (GroupKey X (na pr))
                                                    (persistent pr)))
            = Some (b, s', st') ->
            heap s' = heap s /\ federateServers s' = federateServers s /\
            shutdown s' = shutdown s /\
            ((b = false /\ st' = st) \/
             (b = false /\ exists host, st' = with_banned st (delete host (banned st))) \/
             (b = true /\ Count st < MaxPeers X /\
              exists q0 pr0 host0 port0,
                Some q = Some q0 /\ heap s !! q0 = Some pr0 /\
                SplitHostPort X (addr pr0) = Some (host0, port0) /\
                st' = admitted st q0 pr0 host0))).
  { intros st0 Hc Hst0. cbv zeta. rewrite Hc.
    destruct (Z.leb_spec (MaxPeers X) (Count st)) as [Hfull|Hroom].
    - intros [= <- <- <-].
      repeat split; try (destruct (negb _); reflexivity). right. left. eauto.
    - destruct (inbound pr) eqn:Hin; intros [= <- <- <-];
        (repeat split; try (destruct (negb _); reflexivity));
        right; right; (split; [reflexivity|]); (split; [assumption|]);
        exists q, pr, host, port; repeat split; auto;
        unfold admitted; rewrite Hin, Hst0; reflexivity. }
  destruct (banned st !! host) as [banEnd|] eqn:Hban.
  - destruct (now <? banEnd); [refused_case|].
    apply Hafter; reflexivity.
  - intros H. apply (Hafter st); [reflexivity| |exact H].
    rewrite delete_id by assumption. symmetry. apply with_banned_same.
Qed.

(** X10: [handleAddPeerMsg] never takes the peer count above [cfg.MaxPeers]:
    a call adds at most one peer, adds none when it returns false, and adds
    one only while the count is below the limit. The roster, the heap of
    peers and the outbound limit are left as they were. *)
Theorem handleAddPeerMsg_respects_capacity now s st p b s' st' :
  handleAddPeerMsg now s st p = Some (b, s', st') ->
  (Count st <= MaxPeers X -> Count st' <= MaxPeers X) /\
  Count st <= Count st' <= Count st + 1 /\
  OutboundCount st <= OutboundCount st' <= OutboundCount st + 1 /\
  (b = false -> Count st' = Count st /\ OutboundCount st' = OutboundCount st) /\
  maxOutboundPeers st' = maxOutboundPeers st /\
  heap s' = heap s /\ federateServers s' = federateServers s.
Proof.
  intros H. destruct (handleAddPeerMsg_cases _ _ _ _ _ _ _ H)
    as (Hh & Hf & _ & [(-> & ->)|[(-> & host & ->)|(-> & Hroom & q & pr & host & port & _ & _ & _ & ->)]]).
  - repeat split; auto; lia.
  - rewrite Count_with_banned, OutboundCount_with_banned. repeat split; auto; lia.
  - destruct (admitted_counts st q pr host) as (Hc & Ho & Hm).
    repeat split; auto; try lia; discriminate.
Qed.

(** The server as [handleAddPeerMsg] leaves it on an admission. *)
Definition counted (s : server) (st : peerState) : server :=
  if negb (prevConnected s =? Count st) then with_prevConnected s (Count st) else s.

Definition started (s : server) (p : loc) (pr : peer) : server :=
  if inbound pr then emit s (EvStart p) else s.

Lemma handleAddPeerMsg_admission (now : Z) (s : server) (st : peerState)
    (p : loc) (pr : peer) (host port : string) :
  heap s !! p = Some pr ->
  roster_valid (heap s) (federateServers s) ->
  SplitHostPort X (addr pr) = Some (host, port) ->
  ~ unwelcome now s st pr ->
  handleAddPeerMsg now s st (Some p)
  = Some (true, started (counted s st) p pr, admitted st p pr host).
Proof.
  intros Hp Hv Hsplit Hok. unfold handleAddPeerMsg.
  assert (Hrun : shutdown s = 0).
  { destruct (Z.eq_dec (shutdown s) 0); [assumption|]. exfalso. apply Hok. now left. }
  rewrite Hrun, Hp. cbn [Z.eqb negb].
  destruct (duplicated_total (heap s) pr _ Hv) as [dup Hdup]. rewrite Hdup.
  assert (dup = false) as ->.
  { destruct dup; [|reflexivity]. exfalso. apply Hok. right. left.
    clear Hok Hv. revert Hdup. generalize (federateServers s) as l.
    induction l as [|f l IH]; cbn; [discriminate|].
    destruct (heap s !! Peer f) as [q|] eqn:Hq; [|discriminate].
    destruct (bool_decide_reflect (addr q = addr pr)) as [Ha|Ha].
    { intros _. exists f, q. split; [left|]. auto. }
    destruct (bool_decide_reflect (nodeID q = nodeID pr)) as [Hn|Hn].
    { intros _. exists f, q. split; [left|]. auto. }
    cbn. intros H. destruct (IH H) as (fs & q' & Hin & ?).
    exists fs, q'. split; [now right|assumption]. }
  rewrite Hsplit.
  assert (Hroom : Count st < MaxPeers X).
  { destruct (Z.lt_ge_cases (Count st) (MaxPeers X)); [assumption|].
    exfalso. apply Hok. right. right. right. lia. }
  assert (Hafter : forall st0 : peerState,
            Count st0 = Count st ->
            st0 = with_banned st (delete host (banned st)) ->
            (let peerCount := Count st0 in
             let s0 := if negb (prevConnected s =? peerCount)
                       then with_prevConnected s peerCount else s in
             if MaxPeers X <=? Count st0
             then refuse s0 st0 p
             else if inbound pr
                  then Some (true, emit s0 (EvStart p), add_inbound st0 p)
                  else Some (true, s0, add_outbound st0 p (GroupKey X (na pr))
                                                    (persistent pr)))
            = Some (true, started (counted s st) p pr, admitted st p pr host)).
  { intros st0 Hc Hst0. cbv zeta. rewrite Hc.
    destruct (Z.leb_spec (MaxPeers X) (Count st)); [lia|].
    unfold admitted, started, counted. rewrite <- Hst0.
    destruct (inbound pr); reflexivity. }
  destruct (banned st !! host) as [banEnd|] eqn:Hban.
  - destruct (Z.ltb_spec now banEnd) as [Hlt|Hge].
    + exfalso. apply Hok. right. right. left. exists host, port, banEnd. auto.
    + apply Hafter; reflexivity.
  - apply (Hafter st); [reflexivity|].
    rewrite delete_id by assumption. symmetry. apply with_banned_same.
Qed.

(** X9: a peer the manager has no reason to turn away is admitted. When
    the server is not shutting down, the peer repeats neither the address
    nor the node ID of a federate server, its address splits into host and
    port, its host is under no running ban and the peer set is not full,
    [handleAddPeerMsg] returns true. Afterwards an inbound peer is in
    [peers] and [p.Start()] was called; an outbound one is in
    [persistentPeers] if it is persistent and in [outboundPeers] if not, and
    the count of its group has gone up by one; the other maps are as they
    were. The table of bans has lost the entry of the host, if it had one,
    and [prevConnected] holds the count found. *)
Theorem handleAddPeerMsg_admits (now : Z) (s : server) (st : peerState)
    (p : loc) (pr : peer) (host port : string) :
  heap s !! p = Some pr ->
  roster_valid (heap s) (federateServers s) ->
  SplitHostPort X (addr pr) = Some (host, port) ->
  ~ unwelcome now s st pr ->
  exists s' st',
    handleAddPeerMsg now s st (Some p) = Some (true, s', st') /\
    trace s' = trace s ++ (if inbound pr then [EvStart p] else []) /\
    prevConnected s' = Count st /\
    heap s' = heap s /\ federateServers s' = federateServers s /\
    peers st' = (if inbound pr then {[p]} ∪ peers st else peers st) /\
    persistentPeers st'
    = (if negb (inbound pr) && persistent pr then {[p]} ∪ persistentPeers st
       else persistentPeers st) /\
    outboundPeers st'
    = (if negb (inbound pr) && negb (persistent pr) then {[p]} ∪ outboundPeers st
       else outboundPeers st) /\
    outboundGroups st'
    = (if inbound pr then outboundGroups st
       else <[GroupKey X (na pr) :=
                default 0 (outboundGroups st !! GroupKey X (na pr)) + 1]>
              (outboundGroups st)) /\
    banned st' !! host = None /\
    (forall other, other <> host -> banned st' !! other = banned st !! other) /\
    maxOutboundPeers st' = maxOutboundPeers st.
Proof.
  intros Hp Hv Hsplit Hok.
  exists (started (counted s st) p pr), (admitted st p pr host).
  split; [now apply (handleAddPeerMsg_admission now s st p pr host port)|].
  assert (Hserver : trace (started (counted s st) p pr)
                    = trace s ++ (if inbound pr then [EvStart p] else []) /\
                    prevConnected (started (counted s st) p pr) = Count st /\
                    heap (started (counted s st) p pr) = heap s /\
                    federateServers (started (counted s st) p pr) = federateServers s).
  { unfold started, counted.
    destruct (inbound pr), (Z.eqb_spec (prevConnected s) (Count st)) as [E|E]; cbn;
      rewrite ?app_nil_r; auto. }
  destruct Hserver as (Htrace & Hprev & Hheap & Hfed).
  do 4 (split; [assumption|]).
  unfold admitted, add_inbound, add_outbound.
  destruct (inbound pr), (persistent pr); cbn;
    (do 4 (split; [reflexivity|]); split; [apply lookup_delete_eq|];
     split; [|reflexivity]; intros other Hne; now apply lookup_delete_ne).
Qed.

(** X11: the replenishment loop of [peerHandler] respects both limits.
    From a state within [cfg.MaxPeers] and within [maxOutboundPeers], however
    many addresses the address manager hands out and whatever they are, the
    state it leaves is within both; the loop only ever adds peers and does
    not touch the roster of federate servers. *)
Theorem peerHandler_replenish_respects_limits
    (answers : list (Z * option KnownAddress)) (s : server) (st : peerState)
    (tries : Z) (s' : server) (st' : peerState) :
  peerHandler_replenish answers s st tries = Some (s', st') ->
  Count st <= MaxPeers X -> OutboundCount st <= maxOutboundPeers st ->
  Count st' <= MaxPeers X /\ OutboundCount st' <= maxOutboundPeers st' /\
  maxOutboundPeers st' = maxOutboundPeers st /\
  federateServers s' = federateServers s /\
  Count st <= Count st'.
Proof.
  revert s st tries s' st'.
  induction answers as [|[now a] rest IH]; intros s st tries s' st';
    cbn [peerHandler_replenish].
  - intros [= <- <-]. intros. repeat split; auto; lia.
  - destruct (NeedMoreOutbound st && (shutdown s =? 0)) eqn:Hneed;
      [|intros [= <- <-]; intros; repeat split; auto; lia].
    apply andb_true_iff in Hneed as [Hneed _].
    unfold NeedMoreOutbound in Hneed. apply andb_true_iff in Hneed as [Ho Hc].
    apply Z.ltb_lt in Ho, Hc.
    destruct (peerHandler_examine now st tries a) as [|tries'|addrStr].
    + intros [= <- <-]. intros. repeat split; auto; lia.
    + intros H. eapply IH; eauto.
    + destruct (newOutboundPeer s addrStr false 0) as [p s1] eqn:Hnew.
      destruct (handleAddPeerMsg now s1 st p) as [[[b s2] st2]|] eqn:Hadd; [|discriminate].
      intros H Hcount Hout.
      destruct (handleAddPeerMsg_cases _ _ _ _ _ _ _ Hadd) as (_ & Hfed & _ & Hcase).
      assert (Hst2 : Count st <= Count st2 <= Count st + 1 /\
                     OutboundCount st2 <= OutboundCount st + 1 /\
                     maxOutboundPeers st2 = maxOutboundPeers st).
      { destruct Hcase as [(_ & ->)|[(_ & host & ->)|(_ & _ & q & pr & host & port & _ & _ & _ & ->)]].
        - repeat split; lia.
        - rewrite Count_with_banned, OutboundCount_with_banned. repeat split; lia.
        - destruct (admitted_counts st q pr host) as (? & ? & ?). repeat split; lia. }
      destruct Hst2 as (Hc2 & Ho2 & Hm2).
      destruct (IH _ _ _ _ _ H) as (A & B & C & D & E); [lia|lia|].
      assert (Hs1 : federateServers s1 = federateServers s).
      { unfold newOutboundPeer in Hnew. destruct (newPeer X addrStr false 0);
          injection Hnew as <- <-; reflexivity. }
      repeat split; auto; try lia; congruence.
Qed.


(** [cfg.BanDuration], in the unit of the clock. *)
Variable BanDuration : Z.

(** [handleBanPeerMsg]; [now] is what [time.Now()] reads. A nil [p]
    panics; an address that does not split leaves the state alone. *)
Definition handleBanPeerMsg (now : Z) (s : server) (st : peerState) (p : loc)
    : option peerState :=
  let? pr := heap s !! p in
  match SplitHostPort X (addr pr) with
  | None => Some st
  | Some (host, _) => Some (with_banned st (<[host := now + BanDuration]> (banned st)))
  end.

(** X12: a ban holds for [cfg.BanDuration] and no longer. After
    [handleBanPeerMsg] on a peer of host [host] at time [t0], the peer maps
    are as they were (the banned peer itself is not disconnected by the
    call); every peer of that host that asks for admission before
    [t0 + BanDuration] is shut down and refused; and one that asks at or
    after that time, with nothing else against it, is admitted, the ban
    being deleted. *)
Theorem ban_lasts_BanDuration (t0 now : Z) (s : server) (st : peerState)
    (q p : loc) (qr pr : peer) (host port0 port : string) :
  heap s !! q = Some qr -> SplitHostPort X (addr qr) = Some (host, port0) ->
  heap s !! p = Some pr -> SplitHostPort X (addr pr) = Some (host, port) ->
  roster_valid (heap s) (federateServers s) ->
  exists st1,
    handleBanPeerMsg t0 s st q = Some st1 /\
    peers st1 = peers st /\ outboundPeers st1 = outboundPeers st /\
    persistentPeers st1 = persistentPeers st /\
    (now < t0 + BanDuration ->
       exists s', handleAddPeerMsg now s st1 (Some p) = Some (false, s', st1) /\
                  trace s' = trace s ++ [EvShutdown p]) /\
    (t0 + BanDuration <= now ->
     shutdown s = 0 -> duplicated (heap s) pr (federateServers s) = Some false ->
     Count st < MaxPeers X ->
       exists s' st', handleAddPeerMsg now s st1 (Some p) = Some (true, s', st') /\
                      banned st' !! host = None /\ Count st <= Count st').
Proof.
  intros Hq Hsq Hp Hsp Hv. unfold handleBanPeerMsg. rewrite Hq, Hsq.
  eexists. split; [reflexivity|]. cbn [peers outboundPeers persistentPeers with_banned].
  do 3 (split; [reflexivity|]).
  set (st1 := with_banned st (<[host := t0 + BanDuration]> (banned st))).
  assert (Hb : banned st1 !! host = Some (t0 + BanDuration)).
  { unfold st1. cbn. now rewrite lookup_insert_eq. }
  split.
  - intros Hlt. unfold handleAddPeerMsg, refuse.
    destruct (negb (shutdown s =? 0)); [eauto|]. rewrite Hp.
    destruct (duplicated_total (heap s) pr _ Hv) as [dup ->].
    destruct dup; [eauto|]. rewrite Hsp, Hb.
    destruct (Z.ltb_spec now (t0 + BanDuration)); [eauto|lia].
  - intros Hge Hrun Hdup Hroom.
    destruct (handleAddPeerMsg now s st1 (Some p)) as [[[b s'] st']|] eqn:Hadd.
    + unfold handleAddPeerMsg in Hadd.
      rewrite Hrun, Hp, Hdup, Hsp, Hb in Hadd. cbn [Z.eqb negb] in Hadd.
      destruct (Z.ltb_spec now (t0 + BanDuration)); [lia|].
      cbv zeta in Hadd. rewrite Count_with_banned in Hadd.
      change (Count st1) with (Count st) in Hadd.
      destruct (Z.leb_spec (MaxPeers X) (Count st)); [lia|].
      destruct (inbound pr); injection Hadd as <- <- <-; eexists _, _;
        (split; [reflexivity|]).
      * split; [cbn; apply lookup_delete_eq|].
        unfold add_inbound, Count; cbn.
        pose proof (size_add_le p (peers st)). lia.
      * split.
        { unfold add_outbound. destruct (persistent pr); cbn; apply lookup_delete_eq. }
        unfold add_outbound, Count. destruct (persistent pr); cbn;
          match goal with
          | |- context [size ({[p]} ∪ ?S)] => pose proof (size_add_le p S)
          end; lia.
    + exfalso. unfold handleAddPeerMsg in Hadd.
      rewrite Hrun, Hp, Hdup, Hsp, Hb in Hadd. cbn [Z.eqb negb] in Hadd.
      destruct (now <? t0 + BanDuration); [discriminate|].
      cbv zeta in Hadd. unfold refuse in Hadd.
      destruct (MaxPeers X <=? _); [discriminate|].
      destruct (inbound pr); discriminate.
Qed.

(* ===================================================================== *)
(** ** Properties: taking the lead *)
(* ===================================================================== *)

(** [if leaderCrashed { resetLeaderState() }]. *)
Definition reset_if_crashed (s : server) : server :=
  if leaderCrashed s then emit s EvResetLeaderState else s.

Lemma my_state_same (s1 s2 : server) :
  heap s1 = heap s2 -> federateServers s1 = federateServers s2 ->
  s_nodeID s1 = s_nodeID s2 -> my_state s1 = my_state s2.
Proof.
  intros Hh Hf Hn. unfold my_state, GetMyFederateServer, GetFederateServerByID.
  now rewrite Hh, Hf, Hn.
Qed.

Lemma GetPeer_same (s1 s2 : server) (r : NodeState) :
  heap s1 = heap s2 -> federateServers s1 = federateServers s2 ->
  GetPeer s1 r = GetPeer s2 r.
Proof. intros Hh Hf. unfold GetPeer. now rewrite Hh, Hf. Qed.

Lemma find_fed_same_ids (h h' : gmap loc peer) (pid : string)
    (l l' : list federateServer) (i : nat) :
  (forall x, nodeID <$> h' !! x = nodeID <$> h !! x) ->
  Peer <$> l' = Peer <$> l ->
  find_fed h' (has_id pid) l' i = find_fed h (has_id pid) l i.
Proof.
  intros Hid Hl. apply find_fed_ext; [exact Hl|].
  intros fs _. unfold has_id. pose proof (Hid (Peer fs)) as E.
  destruct (h' !! Peer fs), (h !! Peer fs); cbn in *; try discriminate;
    [injection E as E; now rewrite E|reflexivity].
Qed.

(** The state [sendCurrentLeaderMsg] leaves, in terms of the heap [h']
    that [SetLeaderPeerByID(s.nodeID)] leaves. *)
Lemma sendCurrentLeaderMsg_spec (s : server) (dead new src : string) (h : Z)
    (st : NodeState) :
  roster_valid (heap s) (federateServers s) ->
  my_state s = Some st ->
  exists i me pme h',
    GetMyFederateServer s = Some (Some i) /\
    federateServers s !! i = Some me /\ heap s !! Peer me = Some pme /\
    nodeState pme = st /\
    sendCurrentLeaderMsg s dead new src h =
      Some (reset_if_crashed
              (emit (with_policy (with_heap s h')
                       (Some (mkLeaderPolicy (Peer me) h defaultLeaderTerm
                                             defaultNotifyDBHeight false false)))
                    (EvBroadcast (CurrentLeaderMsg dead new src h
                                    (Sign X (dead +:+ new +:+ src +:+ Itoa X h)))))) /\
    h' !! Peer me = Some (with_nodeState pme NodeLeader) /\
    demoted_only s NodeLeader NodeLeaderPrev (Some (Peer me)) h'.
Proof.
  intros Hv Hme.
  destruct (my_state_spec s _ Hme) as (i & me & pme & Hmy & Hi & Hpme & Hid & Hst & Hbyid).
  destruct (reassign_by_id_spec NodeLeader NodeLeaderPrev NodeLeader s (s_nodeID s) Hv)
    as (h' & found & Hfound & E & Hat & Hd).
  rewrite Hbyid in Hfound. injection Hfound as <-.
  change (reassign_by_id NodeLeader NodeLeaderPrev NodeLeader) with SetLeaderPeerByID in E.
  exists i, me, pme, h'. do 4 (split; [assumption|]).
  split; [|split; [now apply Hat|exact Hd]].
  unfold sendCurrentLeaderMsg. rewrite E.
  assert (Hmy' : GetMyFederateServer (with_heap s h') = Some (Some i)).
  { rewrite <- Hmy. unfold GetMyFederateServer, GetFederateServerByID. cbn.
    apply find_fed_same_ids; [apply Hd|reflexivity]. }
  rewrite Hmy'. cbn [federateServers with_heap]. rewrite Hi. reflexivity.
Qed.

(** What [sendCurrentLeaderMsg] leaves, as the callers need it. *)
Lemma sendCurrentLeaderMsg_effect (s : server) (dead new src : string)
    (h : Z) (st : NodeState) :
  roster_valid (heap s) (federateServers s) ->
  my_state s = Some st ->
  exists s' i me,
    GetMyFederateServer s = Some (Some i) /\ federateServers s !! i = Some me /\
    sendCurrentLeaderMsg s dead new src h = Some s' /\
    my_state s' = Some NodeLeader /\
    myLeaderPolicy s' = Some (mkLeaderPolicy (Peer me) h defaultLeaderTerm
                                              defaultNotifyDBHeight false false) /\
    trace s' = trace s
               ++ EvBroadcast (CurrentLeaderMsg dead new src h
                                 (Sign X (dead +:+ new +:+ src +:+ Itoa X h)))
               :: (if leaderCrashed s then [EvResetLeaderState] else []) /\
    federateServers s' = federateServers s /\
    leaderCrashed s' = leaderCrashed s /\
    (forall q, GetLeaderPeer s = Some (Some q) -> q <> Peer me ->
               nodeState <$> heap s' !! q = Some NodeLeaderPrev).
Proof.
  intros Hv Hme.
  destruct (sendCurrentLeaderMsg_spec s dead new src h st Hv Hme)
    as (i & me & pme & h' & Hmy & Hi & Hpme & Hst & E & Hat & Hd).
  eexists _, i, me. do 2 (split; [assumption|]). split; [exact E|].
  assert (Hheap : forall t, heap (reset_if_crashed t) = heap t)
    by (intros t; unfold reset_if_crashed; now destruct (leaderCrashed t)).
  assert (Hfed : forall t, federateServers (reset_if_crashed t) = federateServers t)
    by (intros t; unfold reset_if_crashed; now destruct (leaderCrashed t)).
  assert (Hnid : forall t, s_nodeID (reset_if_crashed t) = s_nodeID t)
    by (intros t; unfold reset_if_crashed; now destruct (leaderCrashed t)).
  split; [|split; [|split; [|split; [|split]]]].
  - rewrite (my_state_same _ (with_heap s h')) by (rewrite ?Hheap, ?Hfed, ?Hnid; reflexivity).
    unfold my_state.
    assert (Hmy' : GetMyFederateServer (with_heap s h') = Some (Some i)).
    { rewrite <- Hmy. unfold GetMyFederateServer, GetFederateServerByID. cbn.
      apply find_fed_same_ids; [apply Hd|reflexivity]. }
    rewrite Hmy'. cbn [federateServers heap with_heap]. rewrite Hi, Hat. reflexivity.
  - unfold reset_if_crashed. cbn. now destruct (leaderCrashed s).
  - unfold reset_if_crashed. cbn. destruct (leaderCrashed s); cbn;
      now rewrite <- ?app_assoc.
  - now rewrite Hfed.
  - unfold reset_if_crashed. cbn. destruct (leaderCrashed s) eqn:Hc; cbn; exact Hc.
  - intros q Hq Hne. rewrite Hheap. cbn [heap emit with_policy with_heap].
    destruct Hd as [_ Hch]. rewrite (Hch q) by congruence.
    unfold GetLeaderPeer in Hq. rewrite decide_True by exact Hq.
    destruct (find_peer_Some _ _ _ _ Hq) as (fq & pq & _ & _ & Hpq & _).
    rewrite Hpq. reflexivity.
Qed.

(** X16: [sendCurrentLeaderMsg] makes the caller the Leader. Called on a
    node that is on its own roster, it returns; afterwards the node's own
    role is [Leader], whoever the roster showed as Leader before is
    [LeaderPrev], the policy is a fresh one (next leader: this node, start
    height [h], default term and notification height, not notified, not
    confirmed), exactly one [CurrentLeader] message was broadcast, signed
    over dead + new + source + itoa(h), and the processor's leader state is
    reset when, and only when, [leaderCrashed] is set. The roster itself
    is not changed, and no peer other than this node and that previous
    Leader is written to. *)
Theorem sendCurrentLeaderMsg_installs_leader (s : server) (dead new src : string)
    (h : Z) (st : NodeState) :
  roster_valid (heap s) (federateServers s) ->
  my_state s = Some st ->
  exists s' i me,
    GetMyFederateServer s = Some (Some i) /\ federateServers s !! i = Some me /\
    sendCurrentLeaderMsg s dead new src h = Some s' /\
    my_state s' = Some NodeLeader /\
    myLeaderPolicy s' = Some (mkLeaderPolicy (Peer me) h defaultLeaderTerm
                                              defaultNotifyDBHeight false false) /\
    trace s' = trace s
               ++ EvBroadcast (CurrentLeaderMsg dead new src h
                                 (Sign X (dead +:+ new +:+ src +:+ Itoa X h)))
               :: (if leaderCrashed s then [EvResetLeaderState] else []) /\
    federateServers s' = federateServers s /\
    leaderCrashed s' = leaderCrashed s /\
    (forall q, GetLeaderPeer s = Some (Some q) -> q <> Peer me ->
               nodeState <$> heap s' !! q = Some NodeLeaderPrev) /\
    (forall x, x <> Peer me -> GetLeaderPeer s <> Some (Some x) ->
               heap s' !! x = heap s !! x).
Proof.
  intros Hv Hme.
  destruct (sendCurrentLeaderMsg_effect s dead new src h st Hv Hme)
    as (s' & i & me & Hmy & Hi & E & Hme' & Hpol & Htr & Hfed & Hcr & Hold).
  exists s', i, me. do 9 (split; [assumption|]).
  intros x Hx Hnot.
  destruct (sendCurrentLeaderMsg_spec s dead new src h st Hv Hme)
    as (i2 & me2 & pme & h' & Hmy2 & Hi2 & _ & _ & E2 & _ & [_ Hch]).
  rewrite Hmy in Hmy2. injection Hmy2 as <-.
  rewrite Hi in Hi2. injection Hi2 as <-.
  rewrite E in E2. injection E2 as ->.
  assert (Hheap : forall t, heap (reset_if_crashed t) = heap t)
    by (intros t; unfold reset_if_crashed; now destruct (leaderCrashed t)).
  rewrite Hheap. cbn [heap emit with_policy with_heap].
  rewrite (Hch x) by congruence.
  unfold GetLeaderPeer in Hnot. now rewrite decide_False by exact Hnot.
Qed.

Lemma only_me_total (s : server) (nc : list federateServer) :
  roster_valid (heap s) nc -> is_Some (only_me s nc).
Proof.
  intros Hv. destruct nc as [|a [|b nc]]; cbn; eauto.
  apply Forall_cons in Hv as [[p ->] _]. eauto.
Qed.

Lemma leader_id_or_empty_total (s : server) :
  roster_valid (heap s) (federateServers s) ->
  exists prevID, leader_id_or_empty s = Some prevID /\
    match GetLeaderPeer s with
    | Some (Some q) => nodeID <$> heap s !! q = Some prevID
    | _ => prevID = EmptyString
    end.
Proof.
  intros Hv. unfold leader_id_or_empty, GetLeaderPeer, GetPeer.
  destruct (find_peer_total (heap s) (has_state NodeLeader) _ Hv) as [[q|] Hq]; rewrite Hq.
  - destruct (find_peer_Some _ _ _ _ Hq) as (fq & pq & _ & _ & Hpq & _).
    unfold id_of. rewrite Hpq. eauto.
  - eauto.
Qed.

Lemma partition_valid (h : gmap loc peer) (l nc c : list federateServer) :
  partition_candidates h l = Some (nc, c) -> roster_valid h nc.
Proof.
  intros Hpart. destruct (partition_candidates_spec _ _ _ _ Hpart) as (Hnc & _ & _).
  apply Forall_forall. intros fs Hin. destruct (Hnc fs Hin) as (_ & p & -> & _). eauto.
Qed.

(** [selectCurrentleader] on the LeaderElect, as the callers need it. *)
Lemma selectCurrentleader_elect (s : server) (height : Z) :
  roster_valid (heap s) (federateServers s) ->
  my_state s = Some NodeLeaderElect ->
  exists s' prevID,
    selectCurrentleader s height = Some s' /\
    leader_id_or_empty s = Some prevID /\
    my_state s' = Some NodeLeader /\
    StartDBHeight <$> myLeaderPolicy s' = Some (add32 height 1) /\
    trace s' = trace s
               ++ EvBroadcast (CurrentLeaderMsg prevID (s_nodeID s) (s_nodeID s)
                    (add32 height 1)
                    (Sign X (prevID +:+ s_nodeID s +:+ s_nodeID s
                             +:+ Itoa X (add32 height 1))))
               :: (if leaderCrashed s then [EvResetLeaderState] else []) /\
    federateServers s' = federateServers s /\
    leaderCrashed s' = leaderCrashed s.
Proof.
  intros Hv Hme.
  destruct (my_state_flags s _ Hme) as (HL & HE & HC).
  destruct (my_state_spec s _ Hme) as (i & me & pme & _ & Hi & Hpme & _ & Hst & _).
  destruct (leader_id_or_empty_total s Hv) as (prevID & Hprev & _).
  destruct (sendCurrentLeaderMsg_effect s prevID (s_nodeID s) (s_nodeID s)
              (add32 height 1) _ Hv Hme)
    as (s' & i' & me' & _ & _ & E & Hme' & Hpol & Htr & Hfed & Hcr & _).
  exists s', prevID.
  split; [|split; [exact Hprev|split; [exact Hme'|split; [now rewrite Hpol|
           split; [exact Htr|split; [exact Hfed|exact Hcr]]]]]].
  unfold selectCurrentleader. rewrite HL. cbn [bool_decide decide_rel].
  rewrite bool_decide_eq_false_2 by discriminate.
  unfold nonCandidateServers.
  destruct (partition_candidates_total _ _ Hv) as [[nc c] Hpart]. rewrite Hpart.
  destruct (partition_candidates_spec _ _ _ _ Hpart) as (_ & _ & Hin_nc).
  assert (Hmein : me ∈ nc).
  { eapply Hin_nc; eauto; [eapply list_elem_of_lookup_2; eauto|congruence]. }
  rewrite (bool_decide_eq_false_2 (nc = [])) by (intros ->; inversion Hmein).
  cbn [andb]. rewrite HC, HE.
  rewrite (bool_decide_eq_false_2 (NodeLeaderElect = NodeCandidate)) by discriminate.
  rewrite (bool_decide_eq_true_2 (NodeLeaderElect = NodeLeaderElect)) by reflexivity.
  cbn [negb].
  destruct (only_me_total s nc (partition_valid _ _ _ _ Hpart)) as [alone ->].
  cbn [orb]. rewrite Hprev. exact E.
Qed.

(** X17: the LeaderElect answers a vacancy. When [selectCurrentleader] runs
    on a node whose own role is [LeaderElect], the node makes itself
    Leader: it broadcasts one [CurrentLeader] message naming itself as new
    leader and as source, for height [height + 1], with as dead leader the
    node ID of the Leader the roster shows, or the empty string when it
    shows none, and it starts a fresh policy at [height + 1]. *)
Theorem selectCurrentleader_elect_takes_over (s : server) (height : Z) :
  roster_valid (heap s) (federateServers s) ->
  my_state s = Some NodeLeaderElect ->
  exists s' prevID,
    selectCurrentleader s height = Some s' /\
    match GetLeaderPeer s with
    | Some (Some q) => nodeID <$> heap s !! q = Some prevID
    | _ => prevID = EmptyString
    end /\
    my_state s' = Some NodeLeader /\
    StartDBHeight <$> myLeaderPolicy s' = Some (add32 height 1) /\
    trace s' = trace s
               ++ EvBroadcast (CurrentLeaderMsg prevID (s_nodeID s) (s_nodeID s)
                    (add32 height 1)
                    (Sign X (prevID +:+ s_nodeID s +:+ s_nodeID s
                             +:+ Itoa X (add32 height 1))))
               :: (if leaderCrashed s then [EvResetLeaderState] else []) /\
    federateServers s' = federateServers s /\
    leaderCrashed s' = leaderCrashed s.
Proof.
  intros Hv Hme.
  destruct (selectCurrentleader_elect s height Hv Hme)
    as (s' & prevID & E & Hprev & Rest).
  exists s', prevID. split; [exact E|]. split; [|exact Rest].
  destruct (leader_id_or_empty_total s Hv) as (prevID' & Hprev' & Hshape).
  rewrite Hprev in Hprev'. injection Hprev' as <-. exact Hshape.
Qed.

(** X18: while the roster shows a LeaderElect, nobody else claims the lead.
    On a node whose own role is neither [Leader] nor [LeaderElect], with a
    peer on the roster in role [LeaderElect], [selectCurrentleader] changes
    nothing and broadcasts nothing. *)
Theorem selectCurrentleader_defers_to_elect (s : server) (height : Z)
    (st : NodeState) (e : loc) :
  roster_valid (heap s) (federateServers s) ->
  my_state s = Some st -> st <> NodeLeader -> st <> NodeLeaderElect ->
  GetLeaderElect s = Some (Some e) ->
  selectCurrentleader s height = Some s.
Proof.
  intros Hv Hme HnL HnE Helect.
  destruct (my_state_flags s _ Hme) as (HL & HE & HC).
  destruct (my_state_spec s _ Hme) as (i & me & pme & _ & Hi & Hpme & _ & Hst & _).
  unfold selectCurrentleader. rewrite HL.
  rewrite (bool_decide_eq_false_2 (st = NodeLeader)) by assumption.
  unfold nonCandidateServers.
  destruct (partition_candidates_total _ _ Hv) as [[nc c] Hpart]. rewrite Hpart.
  destruct (bool_decide (nc = []) && bool_decide (c <> [])); [reflexivity|].
  rewrite HC, HE.
  rewrite (bool_decide_eq_false_2 (st = NodeLeaderElect)) by assumption.
  assert (Honly : (if negb (bool_decide (st = NodeCandidate))
                   then only_me s nc else Some false) = Some false).
  { destruct (bool_decide_reflect (st = NodeCandidate)) as [|Hnc]; [reflexivity|].
    cbn [negb].
    destruct (partition_candidates_spec _ _ _ _ Hpart) as (_ & _ & Hin_nc).
    assert (Hmein : me ∈ nc).
    { eapply Hin_nc; eauto; [eapply list_elem_of_lookup_2; eauto|congruence]. }
    destruct (find_peer_Some _ _ _ _ Helect) as (fe & pe & Hine & Hfe & Hpe & Hse).
    apply bool_decide_eq_true in Hse.
    assert (Hein : fe ∈ nc).
    { apply (Hin_nc fe pe); [exact Hine|now rewrite Hfe|].
      rewrite Hse. discriminate. }
    assert (Hdiff : fe <> me).
    { intros ->. rewrite Hfe, Hpe in Hpme. injection Hpme as <-. congruence. }
    destruct nc as [|a [|b nc]]; [inversion Hmein| |reflexivity].
    apply list_elem_of_singleton in Hmein, Hein. congruence. }
  rewrite Honly. cbn [orb negb]. rewrite Helect. reflexivity.
Qed.

Lemma find_fed_of_peer (h : gmap loc peer) (test : peer -> bool)
    (l : list federateServer) (i : nat) (q : loc) :
  find_peer h test l = Some (Some q) ->
  exists j fs, find_fed h test l i = Some (Some j) /\ l !! (j - i)%nat = Some fs.
Proof.
  intros H.
  assert (E : exists j, find_fed h test l i = Some (Some j)).
  { revert i H. induction l as [|f l IH]; intros i; cbn; [discriminate|].
    destruct (h !! Peer f) as [p|]; [|discriminate].
    destruct (test p); [eauto|]. intros H. apply IH. exact H. }
  destruct E as [j Hj]. destruct (find_fed_spec _ _ _ _ _ Hj) as (fs & _ & _ & Hl & _).
  eauto.
Qed.

Lemma roster_valid_same_peers (h : gmap loc peer) (l l' : list federateServer) :
  Peer <$> l' = Peer <$> l -> roster_valid h l -> roster_valid h l'.
Proof.
  intros Hl Hv. unfold roster_valid in *.
  apply (Forall_fmap Peer (fun p => is_Some (h !! p))).
  rewrite Hl. now apply Forall_fmap.
Qed.

Lemma my_state_same_peers (s1 s2 : server) :
  heap s1 = heap s2 -> s_nodeID s1 = s_nodeID s2 ->
  Peer <$> federateServers s1 = Peer <$> federateServers s2 ->
  my_state s1 = my_state s2.
Proof.
  intros Hh Hn Hl. unfold my_state, GetMyFederateServer, GetFederateServerByID.
  rewrite Hh, Hn.
  rewrite (find_fed_ext (heap s2) (heap s2) _ (federateServers s1) (federateServers s2) 0 Hl)
    by reflexivity.
  destruct (find_fed _ _ _ _) as [[i|]|]; try reflexivity.
  pose proof (f_equal (fun l => l !! i) Hl) as Hi. cbn in Hi.
  rewrite !list_lookup_fmap in Hi.
  destruct (federateServers s1 !! i), (federateServers s2 !! i); cbn in Hi;
    try discriminate; [|reflexivity].
  injection Hi as ->. reflexivity.
Qed.

(** X19: the LeaderElect takes office one block before its start height.
    On a node whose own role is [LeaderElect], not in single-server mode,
    with policy [P], [handleNextLeader(P.StartDBHeight - 1)] makes the node
    the Leader: the roster entry of the outgoing Leader, if the roster
    shows one, gets [LeaderLast = height], one [CurrentLeader] message naming
    the outgoing Leader (or the empty string) as dead and this node as new
    leader is broadcast for [height + 1], and a fresh policy starts at
    [height + 1]. *)
Theorem handleNextLeader_elect_takes_office (s : server) (height : Z)
    (P : leaderPolicy) :
  roster_valid (heap s) (federateServers s) ->
  my_state s = Some NodeLeaderElect ->
  isSingleServerMode s = false ->
  myLeaderPolicy s = Some P ->
  height = sub32 (StartDBHeight P) 1 ->
  height <= StartDBHeight P ->
  exists s' leaderID,
    handleNextLeader s height = Some s' /\
    leader_id_or_empty s = Some leaderID /\
    my_state s' = Some NodeLeader /\
    StartDBHeight <$> myLeaderPolicy s' = Some (add32 height 1) /\
    trace s' = trace s
               ++ EvBroadcast (CurrentLeaderMsg leaderID (s_nodeID s) (s_nodeID s)
                    (add32 height 1)
                    (Sign X (leaderID +:+ s_nodeID s +:+ s_nodeID s
                             +:+ Itoa X (add32 height 1))))
               :: (if leaderCrashed s then [EvResetLeaderState] else []) /\
    (forall q, GetLeaderPeer s = Some (Some q) ->
       exists j fj, GetFederateServerByID s leaderID = Some (Some j) /\
                    federateServers s' !! j = Some fj /\ LeaderLast fj = height).
Proof.
  intros Hv Hme Hsingle HP Hh Hle.
  destruct (my_state_flags s _ Hme) as (HL & HE & _).
  unfold handleNextLeader. rewrite HL.
  rewrite (bool_decide_eq_false_2 (NodeLeaderElect = NodeLeader)) by discriminate.
  rewrite HE. rewrite (bool_decide_eq_true_2 (NodeLeaderElect = NodeLeaderElect)) by reflexivity.
  cbn [negb andb]. rewrite Hsingle, HP.
  destruct (Z.ltb_spec (StartDBHeight P) height) as [?|_]; [lia|].
  destruct (Z.eqb_spec height (sub32 (StartDBHeight P) 1)) as [_|?]; [|contradiction].
  unfold leader_id_or_empty.
  destruct (find_peer_total (heap s) (has_state NodeLeader) _ Hv) as [[q|] Hq];
    unfold GetLeaderPeer, GetPeer; rewrite Hq.
  - destruct (find_peer_Some _ _ _ _ Hq) as (fq & pq & Hinq & Hfq & Hpq & _).
    unfold id_of. rewrite Hpq.
    assert (Hbyid : exists q', find_peer (heap s) (has_id (nodeID pq)) (federateServers s)
                               = Some (Some q')).
    { destruct (find_peer_total (heap s) (has_id (nodeID pq)) _ Hv) as [[q'|] Hq']; [eauto|].
      rewrite <- Hfq in Hpq. pose proof (find_peer_None _ _ _ _ _ Hq' Hinq Hpq) as Hf.
      unfold has_id in Hf. apply bool_decide_eq_false in Hf. now destruct Hf. }
    destruct Hbyid as [q' Hq'].
    destruct (find_fed_of_peer _ _ _ 0%nat _ Hq') as (j & fj & Hj & Hlj).
    rewrite Nat.sub_0_r in Hlj.
    rewrite (set_LeaderLast_spec s (nodeID pq) height j fj Hj Hlj).
    set (s1 := with_federateServers s (<[j:=with_LeaderLast fj height]> (federateServers s))).
    assert (Hpeers : Peer <$> federateServers s1 = Peer <$> federateServers s)
      by (apply insert_LeaderLast_peers; exact Hlj).
    assert (Hv1 : roster_valid (heap s1) (federateServers s1))
      by (eapply roster_valid_same_peers; eauto).
    assert (Hme1 : my_state s1 = Some NodeLeaderElect)
      by (rewrite <- Hme; apply my_state_same_peers; auto).
    destruct (sendCurrentLeaderMsg_effect s1 (nodeID pq) (s_nodeID s1) (s_nodeID s1)
                (add32 height 1) _ Hv1 Hme1)
      as (s' & i' & me' & _ & _ & E & Hme' & Hpol & Htr & Hfed & _ & _).
    exists s', (nodeID pq). split; [exact E|]. split; [reflexivity|].
    split; [exact Hme'|]. split; [now rewrite Hpol|]. split; [exact Htr|].
    intros q0 _. exists j, (with_LeaderLast fj height).
    split; [exact Hj|]. split; [|reflexivity].
    rewrite Hfed. apply list_lookup_insert_eq. eapply lookup_lt_Some; eauto.
  - destruct (sendCurrentLeaderMsg_effect s EmptyString (s_nodeID s) (s_nodeID s)
                (add32 height 1) _ Hv Hme)
      as (s' & i' & me' & _ & _ & E & Hme' & Hpol & Htr & _ & _ & _).
    exists s', EmptyString. split; [exact E|]. split; [reflexivity|].
    split; [exact Hme'|]. split; [now rewrite Hpol|]. split; [exact Htr|].
    discriminate.
Qed.

(* ===================================================================== *)
(** ** [handleDonePeerMsg] *)
(* ===================================================================== *)

Definition with_leaderCrashed (s : server) (b : bool) : server :=
  mkServer (heap s) (s_nodeID s) (s_nodeType s) (shutdown s) (federateServers s)
           (myLeaderPolicy s) b (prevConnected s) (trace s).

Definition with_outboundGroups (st : peerState) (g : gmap string Z) : peerState :=
  mkPeerState (peers st) (outboundPeers st) (persistentPeers st) (banned st) g
              (maxOutboundPeers st).

(** Modelled from the spec: [peer.IsLeader] and [peer.IsLeaderElect] are
    declared in [peer.go], which is not among the sources; by the
    specification they test the peer's role, as [peer.IsCandidate] does. *)
Definition peer_IsLeader (p : peer) : bool := has_state NodeLeader p.
Definition peer_IsLeaderElect (p : peer) : bool := has_state NodeLeaderElect p.

(** The map that [list] names: [state.persistentPeers] for a persistent
    peer, else [state.peers] for an inbound one, else
    [state.outboundPeers]. *)
Inductive which_list : Type := ListPersistent | ListPeers | ListOutbound.

Definition list_of (pr : peer) : which_list :=
  if persistent pr then ListPersistent
  else if inbound pr then ListPeers
  else ListOutbound.

Definition get_list (st : peerState) (w : which_list) : gset loc :=
  match w with
  | ListPersistent => persistentPeers st
  | ListPeers => peers st
  | ListOutbound => outboundPeers st
  end.

Definition set_list (st : peerState) (w : which_list) (l : gset loc) : peerState :=
  match w with
  | ListPersistent =>
      mkPeerState (peers st) (outboundPeers st) l (banned st) (outboundGroups st)
                  (maxOutboundPeers st)
  | ListPeers =>
      mkPeerState l (outboundPeers st) (persistentPeers st) (banned st)
                  (outboundGroups st) (maxOutboundPeers st)
  | ListOutbound =>
      mkPeerState (peers st) l (persistentPeers st) (banned st) (outboundGroups st)
                  (maxOutboundPeers st)
  end.

(** What the first half of [handleDonePeerMsg] leaves. [d_nil_stored] tells
    that [newOutboundPeer] returned nil and that the nil pointer was put
    into [list] as a key; [peerState] has no room for that key, so it is
    recorded here. *)
Record done_maps : Type := mkDoneMaps {
  d_server : server;
  d_state : peerState;
  d_nil_stored : bool
}.

(** [for e := range list { if e == p { ... break } }]: the body runs once
    when [p] is a key of [list], and not at all otherwise. *)
Definition handleDonePeerMsg_maps (s : server) (st : peerState) (p : loc) (pr : peer)
    : done_maps :=
  let w := list_of pr in
  if decide (p ∈ get_list st w) then
    if negb (inbound pr) && persistent pr && (shutdown s =? 0) then
      let '(e, s) := newOutboundPeer s (addr pr) true (retryCount pr + 1) in
      match e with
      | Some e => mkDoneMaps s (set_list st w ({[e]} ∪ (get_list st w ∖ {[p]}))) false
      | None => mkDoneMaps s (set_list st w (get_list st w ∖ {[p]})) true
      end
    else
      let st :=
        if negb (inbound pr)
        then let key := GroupKey X (na pr) in
             with_outboundGroups st
               (<[key := default 0 (outboundGroups st !! key) - 1]> (outboundGroups st))
        else st in
      mkDoneMaps s (set_list st w (get_list st w ∖ {[p]})) false
  else mkDoneMaps s st false.

(** [for i, fedServer := range s.federateServers { if fedServer.Peer == p
    { s.federateServers = append(s.federateServers[:i],
    s.federateServers[i+1:]...) ... return } }]: the roster without the
    first slot that points at [p]; [None] when no slot does. *)
Fixpoint remove_slot (p : loc) (l : list federateServer) : option (list federateServer) :=
  match l with
  | [] => None
  | fs :: rest =>
      if decide (Peer fs = p) then Some rest
      else match remove_slot p rest with
           | Some rest' => Some (fs :: rest')
           | None => None
           end
  end.

(** The second half of [handleDonePeerMsg]; [newestHeight] is what
    [db.FetchBlockHeightCache()] returns. The list [s.clientPeers], which
    the other branch edits, is not part of the state modelled. *)
Definition handleDonePeerMsg_roster (newestHeight : Z) (s : server) (pr : peer)
    (p : loc) : option server :=
  if bool_decide (SERVER_NODE X = nodeType pr) then
    match remove_slot p (federateServers s) with
    | None => Some s
    | Some l =>
        let s := with_federateServers s l in
        let? isLeader := IsLeader s in
        if isLeader && peer_IsLeaderElect pr
        then selectNextLeader s (wrap 32 newestHeight)
        else if peer_IsLeader pr
             then selectCurrentleader (with_leaderCrashed s true) (wrap 32 newestHeight)
             else Some s
    end
  else Some s.

(** [handleDonePeerMsg]; a nil [p] panics at [p.persistent]. *)
Definition handleDonePeerMsg (newestHeight : Z) (s : server) (st : peerState) (p : loc)
    : option done_maps :=
  let? pr := heap s !! p in
  let d := handleDonePeerMsg_maps s st p pr in
  let? s := handleDonePeerMsg_roster newestHeight (d_server d) pr p in
  Some (mkDoneMaps s (d_state d) (d_nil_stored d)).

Lemma remove_slot_spec (p : loc) (l l' : list federateServer) :
  remove_slot p l = Some l' ->
  exists l1 fp l2, l = l1 ++ fp :: l2 /\ l' = l1 ++ l2 /\ Peer fp = p /\
                   Forall (fun f => Peer f <> p) l1.
Proof.
  revert l'. induction l as [|f l IH]; intros l'; cbn; [discriminate|].
  destruct (decide (Peer f = p)) as [Hp|Hp].
  - intros [= <-]. exists [], f, l. repeat split; auto.
  - destruct (remove_slot p l) as [rest|]; [|discriminate].
    intros [= <-]. destruct (IH rest eq_refl) as (l1 & fp & l2 & -> & -> & Hfp & Hall).
    exists (f :: l1), fp, l2. repeat split; auto.
Qed.

Lemma remove_slot_None (p : loc) (l : list federateServer) :
  Forall (fun f => Peer f <> p) l -> remove_slot p l = None.
Proof.
  induction 1 as [|f l Hf _ IH]; [reflexivity|]. cbn.
  rewrite decide_False by assumption. now rewrite IH.
Qed.

(** A search that the departed peer fails gives the same answer on the
    roster without its slot. *)
Lemma find_peer_without (h : gmap loc peer) (test : peer -> bool)
    (l1 l2 : list federateServer) (fp : federateServer) (pr : peer) :
  h !! Peer fp = Some pr -> test pr = false ->
  find_peer h test (l1 ++ l2) = find_peer h test (l1 ++ fp :: l2).
Proof.
  intros Hp Ht. induction l1 as [|f l1 IH]; cbn.
  - now rewrite Hp, Ht.
  - destruct (h !! Peer f) as [q|]; [|reflexivity]. destruct (test q); auto.
Qed.

Lemma find_fed_peer_None (h : gmap loc peer) (test : peer -> bool)
    (l : list federateServer) (i : nat) :
  (find_fed h test l i = None <-> find_peer h test l = None) /\
  (find_fed h test l i = Some None <-> find_peer h test l = Some None).
Proof.
  revert i. induction l as [|f l IH]; intros i; cbn; [split; split; auto|].
  destruct (h !! Peer f) as [q|]; [|split; split; auto].
  destruct (test q); [split; split; discriminate|]. apply IH.
Qed.

(** The node's own role, read through the search by pointer. *)
Lemma my_state_via_peer (s : server) :
  my_state s =
    (let? o := GetPeerByID s (s_nodeID s) in
     let? q := o in
     let? pq := heap s !! q in
     Some (nodeState pq)).
Proof.
  unfold my_state, GetMyFederateServer, GetFederateServerByID, GetPeerByID.
  destruct (find_fed (heap s) (has_id (s_nodeID s)) (federateServers s) 0)
    as [[j|]|] eqn:Hj.
  - destruct (find_fed_spec _ _ _ _ _ Hj) as (fs & p & _ & Hl & Hp & _ & Hfp & _).
    rewrite Nat.sub_0_r in Hl. now rewrite Hfp, Hl.
  - apply find_fed_peer_None in Hj. now rewrite Hj.
  - apply find_fed_peer_None in Hj. now rewrite Hj.
Qed.

Lemma roster_valid_app (h : gmap loc peer) (l1 l2 : list federateServer)
    (fp : federateServer) :
  roster_valid h (l1 ++ fp :: l2) -> roster_valid h (l1 ++ l2).
Proof.
  unfold roster_valid. rewrite !Forall_app, Forall_cons. tauto.
Qed.

(** The second half of [handleDonePeerMsg] when the peer that left is the
    Leader and this node the LeaderElect. *)
Lemma leader_crash_roster (newestHeight : Z) (s : server) (p : loc)
    (pr : peer) :
  roster_valid (heap s) (federateServers s) ->
  ids_distinct (heap s) (federateServers s) ->
  at_most_one (heap s) (federateServers s) NodeLeader ->
  heap s !! p = Some pr ->
  nodeType pr = SERVER_NODE X -> nodeState pr = NodeLeader ->
  nodeID pr <> s_nodeID s ->
  my_state s = Some NodeLeaderElect ->
  (exists fp, fp ∈ federateServers s /\ Peer fp = p) ->
  exists s' l1 fp l2,
    handleDonePeerMsg_roster newestHeight s pr p = Some s' /\
    federateServers s = l1 ++ fp :: l2 /\ Peer fp = p /\
    federateServers s' = l1 ++ l2 /\
    leaderCrashed s' = true /\
    my_state s' = Some NodeLeader /\
    trace s' = trace s
               ++ [EvBroadcast
                     (CurrentLeaderMsg EmptyString (s_nodeID s) (s_nodeID s)
                        (add32 (wrap 32 newestHeight) 1)
                        (Sign X (EmptyString +:+ s_nodeID s +:+ s_nodeID s
                                 +:+ Itoa X (add32 (wrap 32 newestHeight) 1))));
                   EvResetLeaderState].
Proof.
  intros Hv Hd Hone Hp Htype Hst Hother Hme (fp0 & Hin0 & Hfp0).
  unfold handleDonePeerMsg_roster.
  rewrite bool_decide_eq_true_2 by (symmetry; exact Htype).
  destruct (remove_slot p (federateServers s)) as [l'|] eqn:Hrm.
  2:{ exfalso. clear -Hrm Hin0 Hfp0. induction (federateServers s) as [|f l IH];
        [inversion Hin0|]. cbn in Hrm.
      destruct (decide (Peer f = p)); [discriminate|].
      destruct (remove_slot p l); [discriminate|].
      apply elem_of_cons in Hin0 as [->|Hin0]; [contradiction|]. now apply IH. }
  destruct (remove_slot_spec _ _ _ Hrm) as (l1 & fp & l2 & Hl & -> & Hfp & Hbefore).
  set (s1 := with_federateServers s (l1 ++ l2)).
  assert (Hpfp : heap s !! Peer fp = Some pr) by (now rewrite Hfp).
  assert (Hv1 : roster_valid (heap s1) (federateServers s1)).
  { cbn. rewrite Hl in Hv. eapply roster_valid_app; eauto. }
  assert (Hme1 : my_state s1 = Some NodeLeaderElect).
  { rewrite <- Hme, !my_state_via_peer. unfold GetPeerByID. cbn. rewrite Hl.
    erewrite (find_peer_without _ _ l1 l2 fp pr); eauto.
    unfold has_id. now apply bool_decide_eq_false_2. }
  destruct (my_state_flags s1 _ Hme1) as (HL1 & _ & _).
  rewrite HL1.
  rewrite (bool_decide_eq_false_2 (NodeLeaderElect = NodeLeader)) by discriminate.
  cbn [andb]. unfold peer_IsLeader, has_state.
  rewrite bool_decide_eq_true_2 by assumption.
  set (s2 := with_leaderCrashed s1 true).
  assert (Hv2 : roster_valid (heap s2) (federateServers s2)) by exact Hv1.
  assert (Hme2 : my_state s2 = Some NodeLeaderElect)
    by (rewrite <- Hme1; now apply my_state_same).
  destruct (selectCurrentleader_elect s2 (wrap 32 newestHeight) Hv2 Hme2)
    as (s' & prevID & E & Hprev & Hme' & Hpol & Htr & Hf' & Hc').
  (* nobody on the roster is Leader once the slot is gone *)
  assert (Hnone : GetLeaderPeer s2 = Some None).
  { unfold GetLeaderPeer, GetPeer. cbn.
    destruct (find_peer_total (heap s) (has_state NodeLeader) _ Hv1) as [[q|] Hq];
      [exfalso|exact Hq].
    destruct (find_peer_Some _ _ _ _ Hq) as (fq & pq & Hinq & Hfq & Hpq & Hsq).
    apply bool_decide_eq_true in Hsq. rewrite <- Hfq in Hpq.
    assert (Hinl : fq ∈ federateServers s).
    { rewrite Hl. apply elem_of_app in Hinq as [?|?]; apply elem_of_app;
        [now left|right; now right]. }
    assert (Hfpl : fp ∈ federateServers s).
    { rewrite Hl. apply elem_of_app. right. left. }
    assert (Hsame : Peer fq = Peer fp) by (eapply Hone; eauto).
    (* two slots of the roster for one peer: the node IDs are not distinct *)
    apply elem_of_app in Hinq as [Hq1|Hq2].
    - apply list_elem_of_lookup in Hq1 as [a Ha].
      assert (a = length l1).
      { eapply (Hd a (length l1) fq fp pq pr); eauto.
        - rewrite Hl. apply lookup_app_l_Some. exact Ha.
        - rewrite Hl. now rewrite list_lookup_middle.
        - rewrite Hsame, Hpfp in Hpq. now injection Hpq as <-. }
      apply lookup_lt_Some in Ha. lia.
    - apply list_elem_of_lookup in Hq2 as [b Hb].
      assert (S (length l1 + b) = length l1)%nat; [|lia].
      eapply (Hd (S (length l1 + b)) (length l1) fq fp pq pr); eauto.
      + rewrite Hl. rewrite lookup_app_r by lia.
        replace (S (length l1 + b) - length l1)%nat with (S b) by lia. exact Hb.
      + rewrite Hl. now rewrite list_lookup_middle.
      + rewrite Hsame, Hpfp in Hpq. now injection Hpq as <-. }
  assert (prevID = EmptyString) as ->.
  { unfold leader_id_or_empty in Hprev. rewrite Hnone in Hprev. now injection Hprev. }
  exists s', l1, fp, l2.
  split; [exact E|]. split; [exact Hl|]. split; [exact Hfp|].
  split; [exact Hf'|]. split; [exact Hc'|].
  split; [exact Hme'|]. exact Htr.
Qed.

(** The two heaps show the same peer behind every slot of the roster. *)
Definition agree_on (h h' : gmap loc peer) (l : list federateServer) : Prop :=
  forall fs, fs ∈ l -> h' !! Peer fs = h !! Peer fs.

Lemma agree_valid h h' l : agree_on h h' l -> roster_valid h l -> roster_valid h' l.
Proof.
  intros Ha Hv. apply Forall_forall. intros fs Hin. rewrite (Ha fs Hin).
  exact (proj1 (Forall_forall _ _) Hv fs Hin).
Qed.

Lemma agree_ids_distinct h h' l :
  agree_on h h' l -> ids_distinct h l -> ids_distinct h' l.
Proof.
  intros Ha Hd i j fi fj pi pj Hi Hj Hpi Hpj.
  rewrite (Ha fi) in Hpi by (eapply list_elem_of_lookup_2; eauto).
  rewrite (Ha fj) in Hpj by (eapply list_elem_of_lookup_2; eauto).
  eapply Hd; eauto.
Qed.

Lemma agree_at_most_one h h' l r :
  agree_on h h' l -> at_most_one h l r -> at_most_one h' l r.
Proof.
  intros Ha Hone fa fb pa pb Hina Hinb Hpa Hpb.
  rewrite (Ha fa Hina) in Hpa. rewrite (Ha fb Hinb) in Hpb. eapply Hone; eauto.
Qed.

Lemma agree_find_peer h h' l test :
  agree_on h h' l -> find_peer h' test l = find_peer h test l.
Proof. intros Ha. apply find_peer_ext. intros fs Hin. now rewrite (Ha fs Hin). Qed.

Lemma agree_my_state (s s' : server) :
  agree_on (heap s) (heap s') (federateServers s) ->
  federateServers s' = federateServers s -> s_nodeID s' = s_nodeID s ->
  my_state s' = my_state s.
Proof.
  intros Ha Hf Hn. rewrite !my_state_via_peer. unfold GetPeerByID.
  rewrite Hf, Hn, (agree_find_peer _ _ _ _ Ha).
  destruct (find_peer (heap s) _ _) as [[q|]|] eqn:Hq; try reflexivity.
  destruct (find_peer_Some _ _ _ _ Hq) as (fq & pq & Hin & <- & _).
  now rewrite (Ha fq Hin).
Qed.

(** The first half of [handleDonePeerMsg] leaves the roster and what the
    heap shows behind it alone; at most one peer is built. *)
Lemma handleDonePeerMsg_maps_server (s : server) (st : peerState) (p : loc) (pr : peer) :
  roster_valid (heap s) (federateServers s) ->
  let s' := d_server (handleDonePeerMsg_maps s st p pr) in
  agree_on (heap s) (heap s') (federateServers s) /\
  federateServers s' = federateServers s /\ s_nodeID s' = s_nodeID s /\
  leaderCrashed s' = leaderCrashed s /\
  (forall x px, heap s !! x = Some px -> heap s' !! x = Some px) /\
  (trace s' = trace s \/ exists l, trace s' = trace s ++ [EvNewOutbound l]).
Proof.
  intros Hv. cbv zeta. unfold handleDonePeerMsg_maps.
  assert (Hsame : agree_on (heap s) (heap s) (federateServers s) /\
                  federateServers s = federateServers s /\ s_nodeID s = s_nodeID s /\
                  leaderCrashed s = leaderCrashed s /\
                  (forall x px, heap s !! x = Some px -> heap s !! x = Some px) /\
                  (trace s = trace s \/ exists l, trace s = trace s ++ [EvNewOutbound l])).
  { repeat split; auto. }
  destruct (decide (p ∈ get_list st (list_of pr))); [|exact Hsame].
  destruct (negb (inbound pr) && persistent pr && (shutdown s =? 0)); [|exact Hsame].
  unfold newOutboundPeer. destruct (newPeer X (addr pr) true (retryCount pr + 1)) as [pr'|];
    [|exact Hsame].
  cbn [d_server heap emit with_heap federateServers s_nodeID leaderCrashed trace].
  assert (Hfresh : forall x px, heap s !! x = Some px ->
                     <[fresh (dom (heap s)) := pr']> (heap s) !! x = Some px).
  { intros x px Hx. rewrite lookup_insert_ne; [exact Hx|].
    intros <-. apply (is_fresh (dom (heap s))). apply elem_of_dom. eauto. }
  repeat split; auto.
  - intros fs Hin. destruct (proj1 (Forall_forall _ _) Hv fs Hin) as [q Hq].
    rewrite Hq. now apply Hfresh.
  - right. eauto.
Qed.

(** X20: when the Leader's connection is lost, the LeaderElect takes over,
    and the message it sends names no dead leader. On a node whose own role
    is [LeaderElect], with a roster of pairwise distinct node IDs that shows
    one Leader, [handleDonePeerMsg] for that Leader (a server node, not
    this node) removes the Leader's slot from the roster, sets
    [leaderCrashed], makes this node the Leader and resets the processor's
    leader state. The [CurrentLeader] message broadcast carries the empty
    string as dead leader: the Leader's slot is gone from the roster by the
    time its node ID is looked up. *)
Theorem leader_crash_promotes_elect (newestHeight : Z) (s : server) (st : peerState)
    (p : loc) (pr : peer) :
  roster_valid (heap s) (federateServers s) ->
  ids_distinct (heap s) (federateServers s) ->
  at_most_one (heap s) (federateServers s) NodeLeader ->
  heap s !! p = Some pr ->
  nodeType pr = SERVER_NODE X -> nodeState pr = NodeLeader ->
  nodeID pr <> s_nodeID s ->
  my_state s = Some NodeLeaderElect ->
  (exists fp, fp ∈ federateServers s /\ Peer fp = p) ->
  exists r l1 fp l2 pre,
    handleDonePeerMsg newestHeight s st p = Some r /\
    federateServers s = l1 ++ fp :: l2 /\ Peer fp = p /\
    federateServers (d_server r) = l1 ++ l2 /\
    leaderCrashed (d_server r) = true /\
    my_state (d_server r) = Some NodeLeader /\
    (pre = [] \/ exists l, pre = [EvNewOutbound l]) /\
    trace (d_server r)
    = (trace s ++ pre)
      ++ [EvBroadcast
            (CurrentLeaderMsg EmptyString (s_nodeID s) (s_nodeID s)
               (add32 (wrap 32 newestHeight) 1)
               (Sign X (EmptyString +:+ s_nodeID s +:+ s_nodeID s
                        +:+ Itoa X (add32 (wrap 32 newestHeight) 1))));
          EvResetLeaderState].
Proof.
  intros Hv Hd Hone Hp Htype Hst Hother Hme Hslot.
  unfold handleDonePeerMsg. rewrite Hp.
  destruct (handleDonePeerMsg_maps_server s st p pr Hv) as (Ha & Hf & Hn & Hc & Hkeep & Htr).
  set (d := handleDonePeerMsg_maps s st p pr) in *.
  set (s0 := d_server d) in *.
  assert (Hv0 : roster_valid (heap s0) (federateServers s0))
    by (rewrite Hf; eapply agree_valid; eauto).
  assert (Hd0 : ids_distinct (heap s0) (federateServers s0))
    by (rewrite Hf; eapply agree_ids_distinct; eauto).
  assert (Hone0 : at_most_one (heap s0) (federateServers s0) NodeLeader)
    by (rewrite Hf; eapply agree_at_most_one; eauto).
  assert (Hme0 : my_state s0 = Some NodeLeaderElect)
    by (rewrite <- Hme; now apply agree_my_state).
  assert (Hslot0 : exists fp, fp ∈ federateServers s0 /\ Peer fp = p) by (now rewrite Hf).
  destruct (leader_crash_roster newestHeight s0 p pr Hv0 Hd0 Hone0 (Hkeep _ _ Hp) Htype Hst
              ltac:(now rewrite Hn) Hme0 Hslot0)
    as (s' & l1 & fp & l2 & E & Hl & Hfp & Hl' & Hcr & Hme' & Htr').
  rewrite E. rewrite Hn in Htr'.
  assert (Hpre : exists pre, (pre = [] \/ exists l, pre = [EvNewOutbound l]) /\
                             trace s0 = trace s ++ pre).
  { destruct Htr as [Htr|[l Htr]]; [exists []|exists [EvNewOutbound l]];
      (split; [eauto|]); rewrite Htr, ?app_nil_r; reflexivity. }
  destruct Hpre as (pre & Hpre & Htr0). rewrite Htr0 in Htr'.
  eexists _, l1, fp, l2, pre. cbn [d_server].
  split; [reflexivity|]. split; [now rewrite <- Hf|]. split; [exact Hfp|].
  split; [exact Hl'|]. split; [exact Hcr|]. split; [exact Hme'|].
  split; [exact Hpre|exact Htr'].
Qed.

Lemma without_added (p : loc) (S : gset loc) : p ∉ S -> ({[p]} ∪ S) ∖ {[p]} = S.
Proof.
  intros Hp. apply set_eq. intros x.
  rewrite elem_of_difference, elem_of_union, elem_of_singleton.
  split; [intros [[->|?] ?]; [contradiction|assumption]|].
  intros Hx. split; [now right|]. intros ->. contradiction.
Qed.

(** X21: a peer that comes and goes leaves no mark on the peer maps. When
    [handleAddPeerMsg] admits a peer that is not persistent and was in none
    of the maps, and [handleDonePeerMsg] is then called for it, the three
    peer maps are what they were before the two calls, every outbound
    group has the count it had, and the roster is untouched. *)
Theorem add_then_done_restores_maps (now newestHeight : Z) (s : server)
    (st : peerState) (p : loc) (pr : peer) (host port : string) :
  heap s !! p = Some pr ->
  roster_valid (heap s) (federateServers s) ->
  SplitHostPort X (addr pr) = Some (host, port) ->
  ~ unwelcome now s st pr ->
  persistent pr = false ->
  p ∉ peers st -> p ∉ outboundPeers st ->
  exists s1 r,
    handleAddPeerMsg now s st (Some p) = Some (true, s1, admitted st p pr host) /\
    handleDonePeerMsg newestHeight s1 (admitted st p pr host) p = Some r /\
    d_nil_stored r = false /\
    peers (d_state r) = peers st /\
    outboundPeers (d_state r) = outboundPeers st /\
    persistentPeers (d_state r) = persistentPeers st /\
    (forall key, default 0 (outboundGroups (d_state r) !! key)
                 = default 0 (outboundGroups st !! key)) /\
    federateServers (d_server r) = federateServers s.
Proof.
  intros Hp Hv Hsplit Hok Hpers Hnp Hno.
  pose proof (handleAddPeerMsg_admission now s st p pr host port Hp Hv Hsplit Hok) as Hadd.
  set (s1 := started (counted s st) p pr) in *.
  assert (Hheap : heap s1 = heap s).
  { unfold s1, started, counted. now destruct (inbound pr), (negb _). }
  assert (Hfed : federateServers s1 = federateServers s).
  { unfold s1, started, counted. now destruct (inbound pr), (negb _). }
  exists s1. unfold handleDonePeerMsg. rewrite Hheap, Hp.
  assert (Hgone : remove_slot p (federateServers s1) = None).
  { rewrite Hfed. apply remove_slot_None. apply Forall_forall. intros fs Hin Hfs.
    apply Hok. right. left. exists fs, pr. rewrite Hfs. auto. }
  assert (Hroster : forall t, federateServers t = federateServers s1 ->
                              handleDonePeerMsg_roster newestHeight t pr p = Some t).
  { intros t Ht. unfold handleDonePeerMsg_roster. rewrite Ht, Hgone.
    now destruct (bool_decide _). }
  revert Hadd. unfold handleDonePeerMsg_maps, list_of, admitted. rewrite Hpers.
  destruct (inbound pr) eqn:Hin; cbn [negb andb get_list add_inbound add_outbound peers
                                       outboundPeers with_banned]; intros Hadd.
  - rewrite decide_True by (apply elem_of_union; left; now apply elem_of_singleton).
    cbn [d_server d_state d_nil_stored]. rewrite Hroster by reflexivity.
    eexists. split; [exact Hadd|]. split; [reflexivity|].
    cbn. rewrite without_added by assumption. repeat split; auto.
  - rewrite decide_True by (apply elem_of_union; left; now apply elem_of_singleton).
    cbn [d_server d_state d_nil_stored]. rewrite Hroster by reflexivity.
    eexists. split; [exact Hadd|]. split; [reflexivity|].
    cbn. rewrite without_added by assumption. repeat split; auto.
    intros key. destruct (decide (key = GroupKey X (na pr))) as [->|Hne].
    + rewrite !lookup_insert_eq. cbn. lia.
    + rewrite !lookup_insert_ne by congruence. reflexivity.
Qed.

Lemma single_server_step (t : server) (Q : leaderPolicy) (h : Z) (st : NodeState) :
  my_state t = Some st -> st = NodeLeader \/ st = NodeLeaderElect ->
  isSingleServerMode t = true ->
  myLeaderPolicy t = Some Q ->
  handleNextLeader t h
  = Some (with_policy t (Some (with_StartDBHeight Q (add32 h 1)))).
Proof.
  intros Ht Hst Hs HQ.
  destruct (my_state_flags t _ Ht) as (HL & HE & _).
  unfold handleNextLeader. rewrite HL.
  destruct Hst as [-> | ->].
  - rewrite (bool_decide_eq_true_2 (NodeLeader = NodeLeader)) by reflexivity.
    cbn [negb andb]. now rewrite Hs, HQ.
  - rewrite (bool_decide_eq_false_2 (NodeLeaderElect = NodeLeader)) by discriminate.
    rewrite HE.
    rewrite (bool_decide_eq_true_2 (NodeLeaderElect = NodeLeaderElect)) by reflexivity.
    cbn [negb andb]. now rewrite Hs, HQ.
Qed.

(* ===================================================================== *)
(** ** [nextLeaderHandler]: a run of block heights *)
(* ===================================================================== *)

(** [for { select { case h := <-s.latestDBHeight: s.handleNextLeader(h);
    case <-s.quit: break out } }], on the heights received before the
    server quits. *)
Fixpoint nextLeaderHandler (heights : list Z) (s : server) : option server :=
  match heights with
  | [] => Some s
  | h :: rest =>
      let? s := handleNextLeader s h in
      nextLeaderHandler rest s
  end.

Lemma nextLeaderHandler_fixed (s : server) (heights : list Z) :
  Forall (fun h => handleNextLeader s h = Some s) heights ->
  nextLeaderHandler heights s = Some s.
Proof.
  induction 1 as [|h rest Hh _ IH]; [reflexivity|].
  cbn [nextLeaderHandler]. now rewrite Hh.
Qed.

(** X27: heights that the policy does not expect are ignored, and an
    overrun policy is never refreshed. Over a whole run of heights the
    server is left exactly as it was, with nothing broadcast, in each of
    three cases: the node is neither Leader nor LeaderElect; the node is
    the Leader, not in single-server mode, and every height lies above
    [StartDBHeight + Term]; the node is the LeaderElect, not in
    single-server mode, and every height lies above [StartDBHeight].
    Heights only grow, so a Leader that has missed the end of its term
    keeps the lead for good, and a LeaderElect that has missed its start
    height never takes office. *)
Theorem unexpected_heights_change_nothing (s : server) (heights : list Z) :
  (forall st, my_state s = Some st -> st <> NodeLeader -> st <> NodeLeaderElect ->
     nextLeaderHandler heights s = Some s) /\
  (forall P, my_state s = Some NodeLeader -> isSingleServerMode s = false ->
     myLeaderPolicy s = Some P ->
     Forall (fun h => add32 (StartDBHeight P) (Term P) < h) heights ->
     nextLeaderHandler heights s = Some s) /\
  (forall P, my_state s = Some NodeLeaderElect -> isSingleServerMode s = false ->
     myLeaderPolicy s = Some P ->
     Forall (fun h => StartDBHeight P < h) heights ->
     nextLeaderHandler heights s = Some s).
Proof.
  split; [|split].
  - intros st Hme HnL HnE. apply nextLeaderHandler_fixed.
    apply Forall_forall. intros h _.
    destruct (my_state_flags s _ Hme) as (HL & HE & _).
    unfold handleNextLeader. rewrite HL.
    rewrite (bool_decide_eq_false_2 (st = NodeLeader)) by assumption.
    rewrite HE. rewrite (bool_decide_eq_false_2 (st = NodeLeaderElect)) by assumption.
    reflexivity.
  - intros P Hme Hsingle HP Hall. apply nextLeaderHandler_fixed.
    eapply Forall_impl; [exact Hall|]. intros h Hh. cbv beta in Hh.
    destruct (my_state_flags s _ Hme) as (HL & HE & _).
    unfold handleNextLeader. rewrite HL.
    rewrite (bool_decide_eq_true_2 (NodeLeader = NodeLeader)) by reflexivity.
    cbn [negb andb]. rewrite Hsingle, HE.
    rewrite (bool_decide_eq_false_2 (NodeLeader = NodeLeaderElect)) by discriminate.
    rewrite HP.
    destruct (Z.ltb_spec (add32 (StartDBHeight P) (Term P)) h); [reflexivity|lia].
  - intros P Hme Hsingle HP Hall. apply nextLeaderHandler_fixed.
    eapply Forall_impl; [exact Hall|]. intros h Hh. cbv beta in Hh.
    destruct (my_state_flags s _ Hme) as (HL & HE & _).
    unfold handleNextLeader. rewrite HL.
    rewrite (bool_decide_eq_false_2 (NodeLeaderElect = NodeLeader)) by discriminate.
    rewrite HE.
    rewrite (bool_decide_eq_true_2 (NodeLeaderElect = NodeLeaderElect)) by reflexivity.
    cbn [negb andb]. rewrite Hsingle, HP.
    destruct (Z.ltb_spec (StartDBHeight P) h); [reflexivity|lia].
Qed.

(** X28: a server on its own keeps the lead. In single-server mode, on a
    node that is Leader or LeaderElect and holds a policy, each height [h]
    only moves the policy's start height to [h + 1]: after a run of
    heights the start height is the last height plus one, every other field
    of the policy and of the server is as before, and nothing was
    broadcast. *)
Theorem single_server_slides_its_policy (s : server) (heights : list Z) (last : Z)
    (P : leaderPolicy) (st : NodeState) :
  my_state s = Some st -> st = NodeLeader \/ st = NodeLeaderElect ->
  isSingleServerMode s = true ->
  myLeaderPolicy s = Some P ->
  nextLeaderHandler (heights ++ [last]) s
  = Some (mkServer (heap s) (s_nodeID s) (s_nodeType s) (shutdown s)
            (federateServers s)
            (Some (mkLeaderPolicy (NextLeader P) (add32 last 1) (Term P)
                                  (NotifyDBHeight P) (Notified P) (Confirmed P)))
            (leaderCrashed s) (prevConnected s) (trace s)).
Proof.
  intros Hme Hst Hsingle HP.
  enough (Hrun : nextLeaderHandler (heights ++ [last]) s
                 = Some (with_policy s (Some (with_StartDBHeight P (add32 last 1)))))
    by exact Hrun.
  assert (Hstep : forall (t : server) (Q : leaderPolicy) (h : Z),
            my_state t = Some st -> isSingleServerMode t = true ->
            myLeaderPolicy t = Some Q ->
            handleNextLeader t h
            = Some (with_policy t (Some (with_StartDBHeight Q (add32 h 1)))))
    by (intros t Q h Ht Hs HQ; now apply (single_server_step t Q h st)).
  revert s P Hme Hsingle HP.
  induction heights as [|h rest IH]; intros s P Hme Hsingle HP; cbn [app nextLeaderHandler].
  - now rewrite (Hstep s P last Hme Hsingle HP).
  - rewrite (Hstep s P h Hme Hsingle HP).
    rewrite (IH (with_policy s (Some (with_StartDBHeight P (add32 h 1))))
                (with_StartDBHeight P (add32 h 1))); [reflexivity| | |reflexivity].
    + rewrite <- Hme. now apply my_state_same.
    + exact Hsingle.
Qed.

(* ===================================================================== *)
(** ** [newServer]: the roster a node starts with *)
(* ===================================================================== *)

(** [factomConfig.App], as far as [newServer] reads it. *)
Record app_config : Type := mkAppConfig {
  NodeID : string;
  NodeMode : string;
  InitLeader : bool
}.

(** The peer that [newServer] builds for the node itself: the fields not
    named in the literal have their zero values (the nil [na] is shown as
    an empty address; nothing below reads it). *)
Definition self_peer (cfg : app_config) (ns : NodeState) : peer :=
  mkPeer EmptyString (NodeID cfg) (NodeMode cfg) ns false false
         (mkNetAddress EmptyString 0) 0.

(** The end of [newServer], from [s.startTime = time.Now().Unix()] on:
    the server's identity, and the roster with the node's own entry when
    it is a server node. [startTime] is the clock reading, [newestHeight]
    what [db.FetchBlockHeightCache()] returns; the new peer object is put
    at location 0 of an empty heap. The package variable [blockSyncing],
    set for a candidate, is not part of the state modelled. *)
Definition newServer_roster (cfg : app_config) (startTime newestHeight : Z) : server :=
  let newestHeight := if newestHeight <? 0 then 0 else newestHeight in
  let h := wrap 32 newestHeight in
  let s := mkServer ∅ (NodeID cfg) (NodeMode cfg) 0 [] None false 0 [] in
  if bool_decide (SERVER_NODE X = s_nodeType s) then
    let p : loc := 0%nat in
    let fedServer := mkFederateServer p startTime 0 0 0 0 in
    if InitLeader cfg then
      let fedServer :=
        mkFederateServer p startTime h 0 0 (add32 h 1) in
      let policy := mkLeaderPolicy p (add32 h 2) defaultLeaderTerm
                                   defaultNotifyDBHeight false false in
      mkServer {[p := self_peer cfg NodeLeader]} (NodeID cfg) (NodeMode cfg) 0
               [fedServer] (Some policy) false 0 []
    else
      mkServer {[p := self_peer cfg NodeCandidate]} (NodeID cfg) (NodeMode cfg) 0
               [fedServer] None false 0 []
  else s.



(* ===================================================================== *)
(** ** [handleQuery]: disconnecting a node *)
(* ===================================================================== *)

(** The order in which [for peer := range peerList] visits the keys of a
    map. Go leaves it unspecified; what is assumed of it is a hypothesis
    where it is needed. *)
Variable range_keys : gset loc -> list loc.

(** What a loop that is given fuel can come to. *)
Inductive run (A : Type) : Type :=
| Done (a : A)
| Panicked
| OutOfFuel.
#[global] Arguments Done {A} a.
#[global] Arguments Panicked {A}.
#[global] Arguments OutOfFuel {A}.

(** [msg.reply <- nil] and [msg.reply <- errors.New(text)]. *)
Inductive reply : Type :=
| ReplyNil
| ReplyError (text : string).

(** [for peer := range peerList { if compareFunc(peer) { ... return true } }
    return false]: the first key, in the order of the range, that
    [compareFunc] accepts. *)
Fixpoint first_match (h : gmap loc peer) (cmp : peer -> bool) (keys : list loc)
    : option (option loc) :=
  match keys with
  | [] => Some None
  | k :: rest =>
      let? pr := h !! k in
      if cmp pr then Some (Some k) else first_match h cmp rest
  end.

(** [state.outboundGroups[addrmgr.GroupKey(p.na)]--], the callback that
    [handleQuery] passes for outbound peers. *)
Definition dec_group (pr : peer) (st : peerState) : peerState :=
  let key := GroupKey X (na pr) in
  with_outboundGroups st
    (<[key := default 0 (outboundGroups st !! key) - 1]> (outboundGroups st)).

(** [disconnectPeer] on the map [w] of the state. The result is what it
    returns, the state, and the peers on which [Disconnect()] was
    called. *)
Definition disconnectPeer (s : server) (st : peerState) (w : which_list)
    (compareFunc : peer -> bool) (whenFound : option (peer -> peerState -> peerState))
    : option (bool * peerState * list loc) :=
  let? found := first_match (heap s) compareFunc (range_keys (get_list st w)) in
  match found with
  | None => Some (false, st, [])
  | Some p =>
      let? pr := heap s !! p in
      let st := match whenFound with
                | Some f => f pr st
                | None => st
                end in
      Some (true, set_list st w (get_list st w ∖ {[p]}), [p])
  end.

(** [for found { found = disconnectPeer(state.outboundPeers, msg.cmp,
    ...) }], [fuel] rounds at most. *)
Fixpoint disconnect_more (fuel : nat) (s : server) (st : peerState)
    (cmp : peer -> bool) (gone : list loc) : run (peerState * list loc) :=
  match fuel with
  | O => OutOfFuel
  | S k =>
      match disconnectPeer s st ListOutbound cmp (Some dec_group) with
      | None => Panicked
      | Some (true, st, d) => disconnect_more k s st cmp (gone ++ d)
      | Some (false, st, _) => Done (st, gone)
      end
  end.

(** [handleQuery] on a [disconnectNodeMsg]. *)
Definition handleQuery_disconnectNode (fuel : nat) (s : server) (st : peerState)
    (cmp : peer -> bool) : run (reply * peerState * list loc) :=
  match disconnectPeer s st ListPeers cmp None with
  | None => Panicked
  | Some (true, st, d) => Done (ReplyNil, st, d)
  | Some (false, st, _) =>
      match disconnectPeer s st ListOutbound cmp (Some dec_group) with
      | None => Panicked
      | Some (true, st, d) =>
          match disconnect_more fuel s st cmp d with
          | Done (st, gone) => Done (ReplyNil, st, gone)
          | Panicked => Panicked
          | OutOfFuel => OutOfFuel
          end
      | Some (false, st, _) => Done (ReplyError "peer not found", st, [])
      end
  end.

(** The peer behind [p] is one that [cmp] accepts. *)
Definition targeted (h : gmap loc peer) (cmp : peer -> bool) (p : loc) : bool :=
  match h !! p with
  | Some pr => cmp pr
  | None => false
  end.

(** How many of the peers in [gone] belong to the group [key]. *)
Definition in_group (h : gmap loc peer) (key : string) (gone : list loc) : Z :=
  Z.of_nat (length (List.filter
                      (fun p => match h !! p with
                                | Some pr => bool_decide (GroupKey X (na pr) = key)
                                | None => false
                                end) gone)).

Definition range_is_complete : Prop :=
  forall (S : gset loc) (x : loc), x ∈ range_keys S <-> x ∈ S.

Lemma first_match_spec (h : gmap loc peer) (cmp : peer -> bool) (keys : list loc) :
  Forall (fun k => is_Some (h !! k)) keys ->
  (exists p, first_match h cmp keys = Some (Some p) /\ p ∈ keys /\ targeted h cmp p = true) \/
  (first_match h cmp keys = Some None /\ Forall (fun k => targeted h cmp k = false) keys).
Proof.
  induction 1 as [|k keys [pr Hk] _ IH]; cbn [first_match].
  - right. split; [reflexivity|constructor].
  - rewrite Hk. destruct (cmp pr) eqn:Hc.
    + left. exists k. split; [reflexivity|]. split; [left|].
      unfold targeted. now rewrite Hk.
    + destruct IH as [(p & -> & Hin & Ht)|(-> & Hall)].
      * left. exists p. split; [reflexivity|]. split; [now right|exact Ht].
      * right. split; [reflexivity|]. constructor; [|exact Hall].
        unfold targeted. now rewrite Hk.
Qed.

Lemma in_group_app h key a b : in_group h key (a ++ b) = in_group h key a + in_group h key b.
Proof. unfold in_group. rewrite List.filter_app, length_app. lia. Qed.

(** One call of [disconnectPeer] on the outbound peers. *)
Lemma disconnectPeer_outbound (s : server) (st : peerState) (cmp : peer -> bool) :
  range_is_complete ->
  (forall p, p ∈ outboundPeers st -> is_Some (heap s !! p)) ->
  (exists p pr,
     p ∈ outboundPeers st /\ heap s !! p = Some pr /\ cmp pr = true /\
     disconnectPeer s st ListOutbound cmp (Some dec_group)
     = Some (true,
             set_list (dec_group pr st) ListOutbound (outboundPeers st ∖ {[p]}),
             [p])) \/
  ((forall p, p ∈ outboundPeers st -> targeted (heap s) cmp p = false) /\
   disconnectPeer s st ListOutbound cmp (Some dec_group) = Some (false, st, [])).
Proof.
  intros Hrange Hheap. unfold disconnectPeer. cbn [get_list].
  destruct (first_match_spec (heap s) cmp (range_keys (outboundPeers st)))
    as [(p & -> & Hin & Ht)|(-> & Hall)].
  - apply Forall_forall. intros k Hk. apply Hheap. now apply Hrange.
  - left. apply Hrange in Hin. unfold targeted in Ht.
    destruct (heap s !! p) as [pr|] eqn:Hp; [|discriminate].
    exists p, pr. repeat split; auto.
  - right. split; [|reflexivity]. intros p Hp.
    apply (proj1 (Forall_forall _ _) Hall). now apply Hrange.
Qed.

Lemma size_without (S : gset loc) (p : loc) :
  p ∈ S -> (size S = 1 + size (S ∖ {[p]}))%nat.
Proof.
  intros Hp. rewrite size_difference by (now apply singleton_subseteq_l).
  rewrite size_singleton.
  assert (size S <> 0)%nat; [|lia].
  intros Hz. apply size_empty_inv in Hz. apply (Hz p) in Hp. now apply elem_of_empty in Hp.
Qed.

(** When no outbound peer is the target, nothing is dropped. *)
Lemma nothing_to_drop (s : server) (st : peerState) (cmp : peer -> bool) :
  (forall p, p ∈ outboundPeers st -> targeted (heap s) cmp p = false) ->
  (forall x, x ∈ outboundPeers st <->
             x ∈ outboundPeers st /\ targeted (heap s) cmp x = false) /\
  (forall x, x ∈ [] <-> x ∈ outboundPeers st /\ targeted (heap s) cmp x = true) /\
  NoDup (@nil loc) /\
  (forall key, default 0 (outboundGroups st !! key)
               = default 0 (outboundGroups st !! key) - in_group (heap s) key []).
Proof.
  intros Hnone. split; [|split; [|split]].
  - intros x. split; [|now intros [? _]]. intros Hx. split; [exact Hx|now apply Hnone].
  - intros x. split; [intros Hx; inversion Hx|].
    intros [Hx Ht]. rewrite (Hnone x Hx) in Ht. discriminate.
  - constructor.
  - intros key. unfold in_group. cbn. lia.
Qed.

(** Dropping the target [p] first, and then all that the rest of the loop
    drops, is dropping all the targets. *)
Lemma one_more_dropped (s : server) (st : peerState) (cmp : peer -> bool)
    (p : loc) (pr : peer) (st' : peerState) (more : list loc) :
  p ∈ outboundPeers st -> heap s !! p = Some pr -> cmp pr = true ->
  let st1 := set_list (dec_group pr st) ListOutbound (outboundPeers st ∖ {[p]}) in
  (forall x, x ∈ outboundPeers st' <->
             x ∈ outboundPeers st1 /\ targeted (heap s) cmp x = false) ->
  (forall x, x ∈ more <-> x ∈ outboundPeers st1 /\ targeted (heap s) cmp x = true) ->
  NoDup more ->
  (forall key, default 0 (outboundGroups st' !! key)
               = default 0 (outboundGroups st1 !! key) - in_group (heap s) key more) ->
  (forall x, x ∈ outboundPeers st' <->
             x ∈ outboundPeers st /\ targeted (heap s) cmp x = false) /\
  (forall x, x ∈ p :: more <-> x ∈ outboundPeers st /\ targeted (heap s) cmp x = true) /\
  NoDup (p :: more) /\
  (forall key, default 0 (outboundGroups st' !! key)
               = default 0 (outboundGroups st !! key) - in_group (heap s) key (p :: more)).
Proof.
  intros Hin Hp Hc st1 Hleft Hgone Hnd Hgr.
  assert (Hout1 : outboundPeers st1 = outboundPeers st ∖ {[p]}) by reflexivity.
  assert (Htp : targeted (heap s) cmp p = true) by (unfold targeted; now rewrite Hp).
  split; [|split; [|split]].
  - intros x. rewrite Hleft, Hout1, elem_of_difference, elem_of_singleton.
    split; [tauto|]. intros [Hx Hf]. split; [split; [exact Hx|]|exact Hf].
    intros ->. congruence.
  - intros x. rewrite elem_of_cons, Hgone, Hout1, elem_of_difference, elem_of_singleton.
    split.
    + intros [->|[[Hx _] Ht]]; split; assumption.
    + intros [Hx Ht]. destruct (decide (x = p)) as [->|Hne]; [now left|right].
      split; [split|]; assumption.
  - constructor; [|exact Hnd]. rewrite Hgone, Hout1, elem_of_difference, elem_of_singleton.
    intros [[_ Hne] _]. now apply Hne.
  - intros key. rewrite Hgr. change (p :: more) with ([p] ++ more).
    rewrite in_group_app. unfold st1, dec_group, in_group at 2. cbn.
    rewrite Hp. destruct (bool_decide_reflect (GroupKey X (na pr) = key)) as [<-|Hne].
    + rewrite lookup_insert_eq. cbn. lia.
    + rewrite lookup_insert_ne by assumption. cbn. lia.
Qed.

(** The loop that empties the outbound peers of the targets. *)
Lemma disconnect_more_spec (s : server) (cmp : peer -> bool) (fuel : nat) :
  range_is_complete ->
  forall (st : peerState) (gone : list loc),
    (forall p, p ∈ outboundPeers st -> is_Some (heap s !! p)) ->
    (size (outboundPeers st) < fuel)%nat ->
    exists st' more,
      disconnect_more fuel s st cmp gone = Done (st', gone ++ more) /\
      peers st' = peers st /\ persistentPeers st' = persistentPeers st /\
      banned st' = banned st /\ maxOutboundPeers st' = maxOutboundPeers st /\
      (forall x, x ∈ outboundPeers st' <->
                 x ∈ outboundPeers st /\ targeted (heap s) cmp x = false) /\
      (forall x, x ∈ more <-> x ∈ outboundPeers st /\ targeted (heap s) cmp x = true) /\
      NoDup more /\
      (forall key, default 0 (outboundGroups st' !! key)
                   = default 0 (outboundGroups st !! key) - in_group (heap s) key more).
Proof.
  intros Hrange. induction fuel as [|fuel IH]; intros st gone Hheap Hfuel; [lia|].
  cbn [disconnect_more].
  destruct (disconnectPeer_outbound s st cmp Hrange Hheap)
    as [(p & pr & Hin & Hp & Hc & ->)|(Hnone & ->)].
  - set (st1 := set_list (dec_group pr st) ListOutbound (outboundPeers st ∖ {[p]})).
    assert (Hout1 : outboundPeers st1 = outboundPeers st ∖ {[p]}) by reflexivity.
    destruct (IH st1 (gone ++ [p])) as (st' & more & E & Hpe & Hpp & Hb & Hm & Hleft & Hgone & Hnd & Hgr).
    + intros x Hx. rewrite Hout1 in Hx. apply Hheap.
      now apply elem_of_difference in Hx as [Hx _].
    + rewrite Hout1. pose proof (size_without (outboundPeers st) p Hin). lia.
    + exists st', (p :: more). rewrite E, <- app_assoc. split; [reflexivity|].
      split; [exact Hpe|]. split; [exact Hpp|]. split; [exact Hb|]. split; [exact Hm|].
      now apply (one_more_dropped s st cmp p pr st').
  - exists st, []. rewrite app_nil_r. split; [reflexivity|].
    do 4 (split; [reflexivity|]). now apply nothing_to_drop.
Qed.

(** X30: disconnecting a node that is only connected outbound drops every
    outbound connection to it, and nothing else. Let no inbound peer be the
    target, and let every key of the inbound and of the outbound map be a
    live peer. Then,
    whatever the order in which the map is ranged over, [handleQuery] on a
    [disconnectNodeMsg] returns (with as many rounds of fuel as there are
    outbound peers); afterwards the outbound peers are those that were not
    the target, [Disconnect()] was called once on each outbound peer that
    was, each outbound group count has gone down by the number of its peers
    dropped, the inbound and the persistent peers are untouched, and the
    reply is nil when some peer was dropped and the error [peer not found]
    when none was. *)
Theorem disconnectNode_drops_every_outbound_target (s : server) (st : peerState)
    (cmp : peer -> bool) :
  range_is_complete ->
  (forall p, p ∈ peers st -> is_Some (heap s !! p)) ->
  (forall p, p ∈ outboundPeers st -> is_Some (heap s !! p)) ->
  (forall p, p ∈ peers st -> targeted (heap s) cmp p = false) ->
  exists st' gone,
    handleQuery_disconnectNode (size (outboundPeers st)) s st cmp
    = Done (if bool_decide (gone = []) then ReplyError "peer not found" else ReplyNil,
            st', gone) /\
    peers st' = peers st /\ persistentPeers st' = persistentPeers st /\
    (forall x, x ∈ outboundPeers st' <->
               x ∈ outboundPeers st /\ targeted (heap s) cmp x = false) /\
    (forall x, x ∈ gone <-> x ∈ outboundPeers st /\ targeted (heap s) cmp x = true) /\
    NoDup gone /\
    (forall key, default 0 (outboundGroups st' !! key)
                 = default 0 (outboundGroups st !! key) - in_group (heap s) key gone).
Proof.
  intros Hrange Hin Hout Hnone. unfold handleQuery_disconnectNode.
  (* the inbound peers: nobody is found *)
  assert (Hinbound : disconnectPeer s st ListPeers cmp None = Some (false, st, [])).
  { unfold disconnectPeer. cbn [get_list].
    destruct (first_match_spec (heap s) cmp (range_keys (peers st)))
      as [(p & _ & Hp & Ht)|(-> & _)]; [| |reflexivity].
    - apply Forall_forall. intros k Hk. apply Hin. now apply Hrange.
    - apply Hrange in Hp. rewrite (Hnone p Hp) in Ht. discriminate. }
  rewrite Hinbound.
  destruct (disconnectPeer_outbound s st cmp Hrange Hout)
    as [(p & pr & Hp & Hpr & Hc & ->)|(Hno & ->)].
  - set (st1 := set_list (dec_group pr st) ListOutbound (outboundPeers st ∖ {[p]})).
    assert (Hout1 : outboundPeers st1 = outboundPeers st ∖ {[p]}) by reflexivity.
    destruct (disconnect_more_spec s cmp (size (outboundPeers st)) Hrange st1 [p])
      as (st' & more & E & Hpe & Hpp & _ & _ & Hleft & Hgone & Hnd & Hgr).
    + intros x Hx. rewrite Hout1 in Hx. apply Hout.
      now apply elem_of_difference in Hx as [Hx _].
    + rewrite Hout1. pose proof (size_without (outboundPeers st) p Hp). lia.
    + exists st', (p :: more). rewrite E. cbn [app].
      rewrite bool_decide_eq_false_2 by discriminate. split; [reflexivity|].
      split; [exact Hpe|]. split; [exact Hpp|].
      now apply (one_more_dropped s st cmp p pr st').
  - exists st, []. rewrite bool_decide_eq_true_2 by reflexivity.
    split; [reflexivity|]. do 2 (split; [reflexivity|]). now apply nothing_to_drop.
Qed.

End WithExternals.
End Server.

(* ===================================================================== *)
(** * The server at concrete rosters *)
(* ===================================================================== *)

Module Scenario.
Import Mach Server.

(** A stand-in for [sort.Sort]: insertion sort. *)
Fixpoint insert_by (less : federateServer -> federateServer -> bool)
    (x : federateServer) (l : list federateServer) : list federateServer :=
  match l with
  | [] => [x]
  | y :: rest => if less x y then x :: y :: rest else y :: insert_by less x rest
  end.

Fixpoint isort (less : federateServer -> federateServer -> bool)
    (l : list federateServer) : list federateServer :=
  match l with
  | [] => []
  | x :: rest => insert_by less x (isort less rest)
  end.

(** A stand-in for [net.SplitHostPort]: the text before and after the
    first colon. *)
Fixpoint split_colon (a : string) : option (string * string) :=
  match a with
  | EmptyString => None
  | String c rest =>
      if Ascii.eqb c (Ascii.ascii_of_nat 58) then Some (EmptyString, rest)
      else match split_colon rest with
           | Some (host, port) => Some (String c host, port)
           | None => None
           end
  end.

Definition host_of (a : string) : string :=
  match split_colon a with
  | Some (host, _) => host
  | None => a
  end.

Definition X0 : externals := {|
  SERVER_NODE := "SERVER";
  Sign := String.list_byte_of_string;
  Itoa := pretty;
  sort_by := isort;
  SplitHostPort := split_colon;
  GroupKey := na_IP;
  NetAddressKey := fun a => na_IP a +:+ ":" +:+ pretty (na_Port a);
  newPeer := fun a persist retry =>
               Some (mkPeer a EmptyString EmptyString NodeCandidate false persist
                            (mkNetAddress (host_of a) 8108) retry);
  MaxPeers := 125;
  SimNet := false;
  ConnectPeers := [];
  DefaultPort := "8108"
|}.

Definition fed_peer (id : string) (st : NodeState) : peer :=
  mkPeer (id +:+ ".example:8108") id "SERVER" st true false
         (mkNetAddress (id +:+ ".example") 8108) 0.

Definition fed (p : loc) (start leaderLast : Z) : federateServer :=
  mkFederateServer p start 0 0 0 leaderLast.

Definition roster (self : string) (h : gmap loc peer) (l : list federateServer)
    (P : option leaderPolicy) : server :=
  mkServer h self "SERVER" 0 l P false 0 [].

Definition no_peers : peerState := mkPeerState ∅ ∅ ∅ ∅ ∅ defaultMaxOutbound.

(** {A = Leader, B = LeaderPrev, C = Follower}, seen from A. *)
Definition three_roles : server :=
  roster "A"
    (<[0%nat := fed_peer "A" NodeLeader]>
       (<[1%nat := fed_peer "B" NodeLeaderPrev]>
          (<[2%nat := fed_peer "C" NodeFollower]> ∅)))
    [fed 0%nat 100 5; fed 1%nat 200 3; fed 2%nat 300 0]
    None.

(** Scenario 1 of the specification: {A = Leader, B, C}, A's policy
    (StartDBHeight 2, Term 2, NotifyDBHeight 1). *)
Definition hand_off_policy : leaderPolicy := mkLeaderPolicy 0%nat 2 2 1 false false.

Definition hand_off (b : NodeState) : server :=
  roster "A"
    (<[0%nat := fed_peer "A" NodeLeader]>
       (<[1%nat := fed_peer "B" b]>
          (<[2%nat := fed_peer "C" NodeFollower]> ∅)))
    [fed 0%nat 100 1; fed 1%nat 200 0; fed 2%nat 300 2]
    (Some hand_off_policy).

(** The same roster under a policy whose notification lead equals its
    term. *)
Definition late_notice_policy : leaderPolicy := mkLeaderPolicy 0%nat 2 2 2 false false.

Definition late_notice : server :=
  roster "A"
    (<[0%nat := fed_peer "A" NodeLeader]> (<[1%nat := fed_peer "B" NodeFollower]> ∅))
    [fed 0%nat 100 1; fed 1%nat 200 0]
    (Some late_notice_policy).

(** {F = Follower, K = Candidate}, seen from K, the leader gone. *)
Definition orphaned_candidate : server :=
  roster "K"
    (<[0%nat := fed_peer "F" NodeFollower]> (<[1%nat := fed_peer "K" NodeCandidate]> ∅))
    [fed 0%nat 100 0; fed 1%nat 200 0]
    None.

(** A federate roster of one, and a newcomer from a banned host. *)
Definition newcomer : peer :=
  mkPeer "10.0.0.1:8108" "N" "SERVER" NodeCandidate true false
         (mkNetAddress "10.0.0.1" 8108) 0.

Definition with_newcomer : server :=
  roster "A"
    (<[0%nat := fed_peer "A" NodeLeader]> (<[7%nat := newcomer]> ∅))
    [fed 0%nat 100 1]
    None.

Definition one_ban : peerState :=
  mkPeerState ∅ ∅ ∅ {[ "10.0.0.1" := 2000 ]} ∅ defaultMaxOutbound.

(** An address the manager tried a minute before the clock reads 1000. *)
Definition tried_a_minute_ago : KnownAddress :=
  mkKnownAddress (mkNetAddress "10.0.0.9" 8108) 940.

Definition tried_an_hour_ago : KnownAddress :=
  mkKnownAddress (mkNetAddress "10.0.0.9" 8108) (-2600).

Definition lone_server : server := roster "A" ∅ [] None.

(* ----- The stand-in sort meets the contract --------------------------- *)

Lemma insert_by_perm less x l : Permutation (insert_by less x l) (x :: l).
Proof.
  induction l as [|y l IH]; cbn; [reflexivity|].
  destruct (less x y); [reflexivity|].
  rewrite IH. apply perm_swap.
Qed.

Lemma isort_perm less l : Permutation (isort less l) l.
Proof.
  induction l as [|x l IH]; cbn; [reflexivity|].
  rewrite insert_by_perm. now constructor.
Qed.

Lemma insert_by_sorted (key : federateServer -> Z) x l :
  StronglySorted (fun a b => key a <= key b) l ->
  StronglySorted (fun a b => key a <= key b) (insert_by (fun a b => key a <? key b) x l).
Proof.
  induction 1 as [|y l Hs IH Hy]; cbn.
  - constructor; constructor.
  - destruct (Z.ltb_spec (key x) (key y)) as [Hlt|Hge].
    + constructor; [now constructor|]. constructor; [lia|].
      eapply Forall_impl; [exact Hy|]. cbn. intros; lia.
    + constructor; [exact IH|].
      rewrite insert_by_perm. constructor; [lia|exact Hy].
Qed.

Lemma isort_sorted (key : federateServer -> Z) l :
  StronglySorted (fun a b => key a <= key b) (isort (fun a b => key a <? key b) l).
Proof. induction l; cbn; [constructor|now apply insert_by_sorted]. Qed.

Lemma strongly_sorted_lookup (key : federateServer -> Z) l i j a b :
  StronglySorted (fun a b => key a <= key b) l ->
  (i < j)%nat -> l !! i = Some a -> l !! j = Some b -> key a <= key b.
Proof.
  intros Hs. revert i j. induction Hs as [|x l Hs IH Hx]; intros i j Hij Hi Hj.
  - now rewrite lookup_nil in Hi.
  - destruct j as [|j]; [lia|]. cbn in Hj. destruct i as [|i]; cbn in Hi.
    + injection Hi as <-. rewrite Forall_forall in Hx. apply Hx.
      eapply list_elem_of_lookup_2; eauto.
    + apply (IH i j); auto. lia.
Qed.

Lemma X0_sort_contract : sort_contract X0.
Proof.
  intros key l. cbn. split; [apply isort_perm|].
  intros i j a b. apply strongly_sorted_lookup, isort_sorted.
Qed.

Lemma roster_valid_three_roles :
  roster_valid (heap three_roles) (federateServers three_roles).
Proof. repeat constructor; vm_compute; eauto. Qed.

(** C1: a roster with one [Leader], no [LeaderElect] and one [LeaderPrev]
    meets the premise; [SetLeaderPeer] on its follower C returns, and
    afterwards two peers, A and B, are [LeaderPrev]. *)
Theorem SetLeaderPeer_leaves_two_LeaderPrev :
  roles_unique three_roles /\
  holders three_roles NodeLeaderPrev = [1%nat] /\
  exists s',
    SetLeaderPeer three_roles 2%nat = Some s' /\
    holders s' NodeLeader = [2%nat] /\
    holders s' NodeLeaderPrev = [0%nat; 1%nat] /\
    ~ at_most_one (heap s') (federateServers s') NodeLeaderPrev.
Proof.
  split; [|split; [reflexivity|]].
  - assert (Hall : forall f, f ∈ federateServers three_roles ->
                     f = fed 0%nat 100 5 \/ f = fed 1%nat 200 3 \/ f = fed 2%nat 300 0).
    { intros f Hf. cbn in Hf. rewrite !elem_of_cons in Hf.
      destruct Hf as [?|[?|[?|Hf]]]; auto. inversion Hf. }
    repeat split; intros fa fb pa pb Ha Hb Hpa Hpb Hra Hrb;
      destruct (Hall _ Ha) as [-> | [-> | ->]], (Hall _ Hb) as [-> | [-> | ->]];
      vm_compute in Hpa, Hpb; injection Hpa as <-; injection Hpb as <-;
      first [reflexivity | discriminate].
  - eexists. split; [vm_compute; reflexivity|].
    split; [reflexivity|]. split; [reflexivity|].
    intros Hone.
    specialize (Hone (fed 0%nat 100 5) (fed 1%nat 200 3)
                     (fed_peer "A" NodeLeaderPrev) (fed_peer "B" NodeLeaderPrev)).
    cbn in Hone. discriminate Hone; try reflexivity.
    + left.
    + right. left.
Qed.

(** C2, witness: scenario 1 at height 3, B being the leader-elect. *)
Lemma regime_change_completes_witness :
  exists s',
    handleNextLeader X0 (hand_off NodeLeaderElect) 3 = Some s' /\
    my_state s' = Some NodeLeaderPrev /\
    (forall e, GetLeaderElect (hand_off NodeLeaderElect) = Some (Some e) ->
               nodeState <$> heap s' !! e = Some NodeLeader) /\
    myLeaderPolicy s' = None /\
    (exists i fs, GetMyFederateServer s' = Some (Some i) /\
                  federateServers s' !! i = Some fs /\ LeaderLast fs = 3).
Proof.
  apply (regime_change_completes X0 (hand_off NodeLeaderElect) 3 hand_off_policy).
  - repeat constructor; vm_compute; eauto.
  - reflexivity.
  - reflexivity.
  - reflexivity.
  - reflexivity.
  - vm_compute. discriminate.
  - vm_compute. discriminate.
Defined.

(** C2, counterexample: the Leader, not in single-server mode, holds a
    policy with [NotifyDBHeight = Term] and is handed
    [h = StartDBHeight + Term - 1 = 3]. The notification branch comes first:
    a [NextLeader] message goes out, and afterwards the node is still
    [Leader], its policy is still there, and its [LeaderLast] is not 3. *)
Lemma notification_preempts_regime_change :
  my_state late_notice = Some NodeLeader /\
  isSingleServerMode X0 late_notice = false /\
  myLeaderPolicy late_notice = Some late_notice_policy /\
  3 = StartDBHeight late_notice_policy + Term late_notice_policy - 1 /\
  exists s',
    handleNextLeader X0 late_notice 3 = Some s' /\
    my_state s' = Some NodeLeader /\
    myLeaderPolicy s' = Some (with_Notified late_notice_policy true) /\
    federateServers s' = federateServers late_notice /\
    trace s' = [EvBroadcast (NextLeaderMsg "A" "B" 4 (Sign X0 "AB"))].
Proof.
  repeat split; try reflexivity.
  eexists. split; [vm_compute; reflexivity|]. repeat split; reflexivity.
Qed.

(** A Leader alone on its roster, and a roster on which a second entry
    carries the Leader's own node ID. *)
Definition lone_leader : server :=
  roster "A" (<[0%nat := fed_peer "A" NodeLeader]> ∅) [fed 0%nat 100 1]
         (Some hand_off_policy).

Definition twin_ids : server :=
  roster "A"
    (<[0%nat := fed_peer "A" NodeLeader]> (<[1%nat := fed_peer "A" NodeFollower]> ∅))
    [fed 0%nat 100 1; fed 1%nat 200 0]
    (Some hand_off_policy).

(** {A = Leader, K = Candidate, B = Follower}, seen from A; K has the
    least [LeaderLast]. *)
Definition with_candidate : server :=
  roster "A"
    (<[0%nat := fed_peer "A" NodeLeader]>
       (<[1%nat := fed_peer "K" NodeCandidate]>
          (<[2%nat := fed_peer "B" NodeFollower]> ∅)))
    [fed 0%nat 100 1; fed 1%nat 200 0; fed 2%nat 300 2]
    (Some hand_off_policy).

(** C3, witness: a Leader alone at height 2; a Leader beside a candidate
    and a follower, who announces the follower B for height 4 although the
    candidate K led less recently; and the roster of twins, where the guard
    applies. *)
Lemma selectNextLeader_behaviour_witness :
  selectNextLeader X0 lone_leader 2
  = Some (mkServer (heap lone_leader) "A" "SERVER" 0 (federateServers lone_leader)
            (Some (mkLeaderPolicy 0%nat 5 2 1 false false))
            false 0 []) /\
  selectNextLeader X0 with_candidate 2
  = Some (mkServer (heap with_candidate) "A" "SERVER" 0 (federateServers with_candidate)
            (Some (mkLeaderPolicy 0%nat 2 2 1 true false))
            false 0
            [EvBroadcast (NextLeaderMsg "A" "B" 4 (Sign X0 "AB"))]) /\
  selectNextLeader X0 twin_ids 2 = Some twin_ids.
Proof.
  split; [|split].
  - apply (proj1 (proj1 (proj2 (selectNextLeader_behaviour X0 lone_leader 2
                                  X0_sort_contract
                                  ltac:(repeat constructor; vm_compute; eauto)))
                          hand_off_policy eq_refl eq_refl)).
    intros i j fi fj pi pj Hi Hj _ _ _ _.
    destruct i as [|i], j as [|j]; cbn in Hi, Hj; try discriminate; reflexivity.
  - destruct (proj1 (proj2 (proj1 (proj2 (selectNextLeader_behaviour X0
                                            with_candidate 2 X0_sort_contract
                                            ltac:(repeat constructor; vm_compute; eauto)))
                                    hand_off_policy eq_refl eq_refl)))
      as (next & pn & Hin & Hpn & Hnc & Hid & _ & Hrun).
    + exists (fed 2%nat 300 2), (fed_peer "B" NodeFollower).
      split; [right; right; left|]. split; [reflexivity|]. split; discriminate.
    + cbn in Hin. rewrite !elem_of_cons in Hin.
      destruct Hin as [-> | [-> | [-> | Hin]]]; [| | |inversion Hin];
        vm_compute in Hpn; injection Hpn as <-.
      * exfalso. now apply Hid.
      * exfalso. now apply Hnc.
      * exact Hrun.
  - apply (proj2 (proj2 (proj1 (proj2 (selectNextLeader_behaviour X0 twin_ids 2
                                         X0_sort_contract
                                         ltac:(repeat constructor; vm_compute; eauto)))
                                 hand_off_policy eq_refl eq_refl))).
    + intros fs p Hin Hp _. cbn in Hin. rewrite !elem_of_cons in Hin.
      destruct Hin as [-> | [-> | Hin]]; [| |inversion Hin];
        vm_compute in Hp; injection Hp as <-; reflexivity.
    + exists 0%nat, 1%nat, (fed 0%nat 100 1), (fed 1%nat 200 0),
             (fed_peer "A" NodeLeader), (fed_peer "A" NodeFollower).
      split; [lia|]. do 4 (split; [reflexivity|]). split; discriminate.
Defined.

(** C3, counterexample: on the roster of twins the Leader A is not the only
    non-candidate entry, and no non-candidate carries another node ID. The
    call takes the guard [next == nil]: the start height is not moved to
    [h + 3], nothing is broadcast and [Notified] stays false. *)
Lemma duplicate_id_leaves_no_successor :
  my_state twin_ids = Some NodeLeader /\
  myLeaderPolicy twin_ids = Some hand_off_policy /\
  nonCandidateServers twin_ids = Some ([fed 0%nat 100 1; fed 1%nat 200 0], []) /\
  selectNextLeader X0 twin_ids 2 = Some twin_ids /\
  ~ (exists s' P',
       selectNextLeader X0 twin_ids 2 = Some s' /\ myLeaderPolicy s' = Some P' /\
       (StartDBHeight P' = add32 2 3 \/ Notified P' = true \/
        exists m, trace s' = trace twin_ids ++ [EvBroadcast m])).
Proof.
  assert (Hrun : selectNextLeader X0 twin_ids 2 = Some twin_ids) by (vm_compute; reflexivity).
  do 3 (split; [reflexivity|]). split; [exact Hrun|].
  intros (s' & P' & Hs' & HP' & Hcases). rewrite Hrun in Hs'. injection Hs' as <-.
  cbn in HP'. injection HP' as <-.
  destruct Hcases as [Hstart | [Hnotified | [m Htrace]]].
  - vm_compute in Hstart. discriminate.
  - discriminate.
  - cbn in Htrace. discriminate.
Qed.

(** C4, witness: scenario 4 with a follower left beside the candidate. *)
Lemma candidate_never_takes_leadership_witness :
  selectCurrentleader X0 orphaned_candidate 10 = Some orphaned_candidate /\
  (forall s', selectCurrentleader X0 orphaned_candidate 10 = Some s' ->
     trace s' = trace orphaned_candidate /\ my_state s' = Some NodeCandidate).
Proof.
  apply (candidate_never_takes_leadership X0 orphaned_candidate 10).
  - exact X0_sort_contract.
  - repeat constructor; vm_compute; eauto.
  - intros i j fi fj pi pj Hi Hj Hpi Hpj Hid.
    destruct i as [|[|i]], j as [|[|j]]; cbn in Hi, Hj; try discriminate;
      try reflexivity;
      injection Hi as <-; injection Hj as <-;
      vm_compute in Hpi, Hpj; injection Hpi as <-; injection Hpj as <-;
      discriminate Hid.
  - reflexivity.
Defined.

(** C5, witness: a newcomer whose host is banned until 2000, at time 1000. *)
Lemma handleAddPeerMsg_refuses_witness :
  exists s' st',
    handleAddPeerMsg X0 1000 with_newcomer one_ban (Some 7%nat) = Some (false, s', st') /\
    trace s' = trace with_newcomer ++ [EvShutdown 7%nat] /\
    peers st' = peers one_ban /\
    outboundPeers st' = outboundPeers one_ban /\
    persistentPeers st' = persistentPeers one_ban.
Proof.
  apply (handleAddPeerMsg_refuses X0 1000 with_newcomer one_ban 7%nat newcomer).
  - reflexivity.
  - repeat constructor; vm_compute; eauto.
  - right. right. left. exists "10.0.0.1", "8108", 2000.
    split; [reflexivity|]. split; [reflexivity|]. reflexivity.
Defined.

(** C6: the address manager hands out an address tried one minute ago
    (clock 1000, last attempt 940), nothing skipped yet in the burst. The
    loop does not skip it: an outbound peer is built for it and joins the
    transient outbound peers. An address tried an hour ago is the one that
    is skipped. *)
Theorem replenish_dials_recently_tried_address :
  1000 - ka_lastAttempt tried_a_minute_ago < 600 /\
  peerHandler_examine X0 1000 no_peers 0 (Some tried_a_minute_ago) = Connect "10.0.0.9:8108" /\
  (exists s' st' p,
     peerHandler_after_event X0 [(1000, Some tried_a_minute_ago)] lone_server no_peers
       = Some (s', st') /\
     trace s' = [EvNewOutbound p] /\
     addr <$> heap s' !! p = Some "10.0.0.9:8108" /\
     outboundPeers st' = {[p]}) /\
  peerHandler_examine X0 1000 no_peers 0 (Some tried_an_hour_ago) = Skip 1 /\
  peerHandler_after_event X0 [(1000, Some tried_an_hour_ago)] lone_server no_peers
    = Some (lone_server, no_peers).
Proof.
  split; [vm_compute; reflexivity|]. split; [reflexivity|]. split; [|split; reflexivity].
  eexists _, _, _. split; [vm_compute; reflexivity|].
  split; [reflexivity|]. split; reflexivity.
Qed.

(* ----- More rosters, and the properties at them ------------------------ *)

(** {A = Leader, B = LeaderElect, C = Follower}, seen from B, whose policy
    starts at height 4, and seen from C. *)
Definition abc_heap : gmap loc peer :=
  <[0%nat := fed_peer "A" NodeLeader]>
    (<[1%nat := fed_peer "B" NodeLeaderElect]>
       (<[2%nat := fed_peer "C" NodeFollower]> ∅)).

Definition abc_slots : list federateServer :=
  [fed 0%nat 100 1; fed 1%nat 200 0; fed 2%nat 300 2].

Definition elect_policy : leaderPolicy := mkLeaderPolicy 1%nat 4 2 1 false false.

Definition elect_view : server := roster "B" abc_heap abc_slots (Some elect_policy).

Definition follower_view : server := roster "C" abc_heap abc_slots None.

(** One day, on a clock that counts seconds. *)
Definition one_day : Z := 86400.

Ltac on_three_slots Ha :=
  cbn in Ha; try unfold abc_slots in Ha; rewrite !elem_of_cons in Ha;
  destruct Ha as [-> | [-> | [-> | Ha]]]; [| | |inversion Ha].

Ltac solve_at_most_one :=
  let fa := fresh "fa" in
  let fb := fresh "fb" in
  let pa := fresh "pa" in
  let pb := fresh "pb" in
  let Ha := fresh "Ha" in
  let Hb := fresh "Hb" in
  let Hpa := fresh "Hpa" in
  let Hpb := fresh "Hpb" in
  let Hra := fresh "Hra" in
  let Hrb := fresh "Hrb" in
  intros fa fb pa pb Ha Hb Hpa Hpb Hra Hrb;
  on_three_slots Ha; on_three_slots Hb;
  vm_compute in Hpa, Hpb; injection Hpa as <-; injection Hpb as <-;
  first [reflexivity | discriminate].

Ltac solve_ids_distinct :=
  let i := fresh "i" in
  let j := fresh "j" in
  let fi := fresh "fi" in
  let fj := fresh "fj" in
  let pi := fresh "pi" in
  let pj := fresh "pj" in
  let Hi := fresh "Hi" in
  let Hj := fresh "Hj" in
  let Hpi := fresh "Hpi" in
  let Hpj := fresh "Hpj" in
  let Hid := fresh "Hid" in
  intros i j fi fj pi pj Hi Hj Hpi Hpj Hid;
  cbn in Hi, Hj; try unfold abc_slots in Hi, Hj;
  destruct i as [|[|[|i]]], j as [|[|[|j]]]; cbn in Hi, Hj; try discriminate;
  try reflexivity;
  injection Hi as <-; injection Hj as <-;
  vm_compute in Hpi, Hpj; injection Hpi as <-; injection Hpj as <-;
  discriminate Hid.

Lemma three_roles_unique : roles_unique three_roles.
Proof. repeat split; solve_at_most_one. Qed.

Lemma elect_view_valid : roster_valid (heap elect_view) (federateServers elect_view).
Proof. repeat constructor; vm_compute; eauto. Qed.

Lemma follower_view_valid :
  roster_valid (heap follower_view) (federateServers follower_view).
Proof. repeat constructor; vm_compute; eauto. Qed.

Lemma with_newcomer_valid :
  roster_valid (heap with_newcomer) (federateServers with_newcomer).
Proof. repeat constructor; vm_compute; eauto. Qed.

(** The newcomer has nothing against it when no host is banned. *)
Lemma newcomer_welcome : ~ unwelcome X0 1000 with_newcomer no_peers newcomer.
Proof.
  intros [H|[(fs & q & Hin & Hq & Hsame)|[(host & port & banEnd & _ & Hb & _)|H]]].
  - now apply H.
  - cbn in Hin. apply list_elem_of_singleton in Hin as ->.
    vm_compute in Hq. injection Hq as <-. destruct Hsame; discriminate.
  - cbn in Hb. now rewrite lookup_empty in Hb.
  - vm_compute in H. now apply H.
Qed.

(** X6, witness: the bound of the rebroadcast timer. A first sample above
    the limit 64800 and a read that fails are followed by the sample 1799;
    and a call whose first read fails returns 0. *)
Lemma randomUint16Number_in_range_witness :
  (0 <= 1799 < 1800 /\
   exists before r,
     [Some 65000; None; Some 1799; Some 5] = before ++ r :: [Some 5] /\
     Forall (fun o => forall y, o = Some y -> (65535 / 1800) * 1800 <= y) before /\
     match r with
     | Some x => x < (65535 / 1800) * 1800 /\ 1799 = x mod 1800
     | None => before = [] /\ 1799 = 0
     end) /\
  (0 <= 0 < 1800 /\
   exists before r,
     [None; Some 5] = before ++ r :: [Some 5] /\
     Forall (fun o => forall y, o = Some y -> (65535 / 1800) * 1800 <= y) before /\
     match r with
     | Some x => x < (65535 / 1800) * 1800 /\ 0 = x mod 1800
     | None => before = [] /\ 0 = 0
     end).
Proof.
  split.
  - apply (randomUint16Number_in_range 1800 [Some 65000; None; Some 1799; Some 5]
             1799 [Some 5]); [lia|reflexivity].
  - apply (randomUint16Number_in_range 1800 [None; Some 5] 0 [Some 5]);
      [lia|reflexivity].
Defined.

(** X7, witness: 36 samples of the 65536 give 17 under [max = 1800]. *)
Lemma randomUint16Number_unbiased_witness :
  Z.of_nat (length (samples_giving 1800 17)) = 65535 / 1800.
Proof. apply (randomUint16Number_unbiased 1800 17); lia. Defined.

(** X9, witness: the newcomer, inbound, is admitted and started. *)
Lemma handleAddPeerMsg_admits_witness :
  exists s' st',
    handleAddPeerMsg X0 1000 with_newcomer no_peers (Some 7%nat) = Some (true, s', st') /\
    trace s' = trace with_newcomer ++ [EvStart 7%nat] /\
    prevConnected s' = Count no_peers /\
    heap s' = heap with_newcomer /\
    federateServers s' = federateServers with_newcomer /\
    peers st' = {[7%nat]} ∪ peers no_peers /\
    persistentPeers st' = persistentPeers no_peers /\
    outboundPeers st' = outboundPeers no_peers /\
    outboundGroups st' = outboundGroups no_peers /\
    banned st' !! "10.0.0.1" = None /\
    (forall other, other <> "10.0.0.1" -> banned st' !! other = banned no_peers !! other) /\
    maxOutboundPeers st' = maxOutboundPeers no_peers.
Proof.
  apply (handleAddPeerMsg_admits X0 1000 with_newcomer no_peers 7%nat newcomer
           "10.0.0.1" "8108").
  - reflexivity.
  - exact with_newcomer_valid.
  - reflexivity.
  - exact newcomer_welcome.
Defined.

(** X10, witness: the same call, counted. *)
Lemma handleAddPeerMsg_respects_capacity_witness :
  exists b s' st',
    handleAddPeerMsg X0 1000 with_newcomer no_peers (Some 7%nat) = Some (b, s', st') /\
    (Count no_peers <= MaxPeers X0 -> Count st' <= MaxPeers X0) /\
    Count no_peers <= Count st' <= Count no_peers + 1 /\
    OutboundCount no_peers <= OutboundCount st' <= OutboundCount no_peers + 1 /\
    (b = false -> Count st' = Count no_peers /\
                  OutboundCount st' = OutboundCount no_peers) /\
    maxOutboundPeers st' = maxOutboundPeers no_peers /\
    heap s' = heap with_newcomer /\
    federateServers s' = federateServers with_newcomer.
Proof.
  destruct (handleAddPeerMsg X0 1000 with_newcomer no_peers (Some 7%nat))
    as [[[b s'] st']|] eqn:E; [|vm_compute in E; discriminate E].
  exists b, s', st'. split; [reflexivity|].
  exact (handleAddPeerMsg_respects_capacity X0 1000 with_newcomer no_peers (Some 7%nat)
           b s' st' E).
Defined.

(** X11, witness: one address handed out to a server with no peers. *)
Lemma peerHandler_replenish_respects_limits_witness :
  exists s' st',
    peerHandler_replenish X0 [(1000, Some tried_a_minute_ago)] lone_server no_peers 0
    = Some (s', st') /\
    Count st' <= MaxPeers X0 /\ OutboundCount st' <= maxOutboundPeers st' /\
    maxOutboundPeers st' = maxOutboundPeers no_peers /\
    federateServers s' = federateServers lone_server /\
    Count no_peers <= Count st'.
Proof.
  destruct (peerHandler_replenish X0 [(1000, Some tried_a_minute_ago)] lone_server
              no_peers 0) as [[s' st']|] eqn:E; [|vm_compute in E; discriminate E].
  exists s', st'. split; [reflexivity|].
  apply (peerHandler_replenish_respects_limits X0 [(1000, Some tried_a_minute_ago)]
           lone_server no_peers 0 s' st' E); vm_compute; discriminate.
Defined.

(** X12, witness: the newcomer's host banned for a day at time 1000, and
    the newcomer back at time 2000. *)
Lemma ban_lasts_BanDuration_witness :
  exists st1,
    handleBanPeerMsg X0 one_day 1000 with_newcomer no_peers 7%nat = Some st1 /\
    peers st1 = peers no_peers /\ outboundPeers st1 = outboundPeers no_peers /\
    persistentPeers st1 = persistentPeers no_peers /\
    (2000 < 1000 + one_day ->
       exists s', handleAddPeerMsg X0 2000 with_newcomer st1 (Some 7%nat)
                  = Some (false, s', st1) /\
                  trace s' = trace with_newcomer ++ [EvShutdown 7%nat]) /\
    (1000 + one_day <= 2000 ->
     shutdown with_newcomer = 0 ->
     duplicated (heap with_newcomer) newcomer (federateServers with_newcomer) = Some false ->
     Count no_peers < MaxPeers X0 ->
       exists s' st', handleAddPeerMsg X0 2000 with_newcomer st1 (Some 7%nat)
                      = Some (true, s', st') /\
                      banned st' !! "10.0.0.1" = None /\ Count no_peers <= Count st').
Proof.
  apply (ban_lasts_BanDuration X0 one_day 1000 2000 with_newcomer no_peers 7%nat 7%nat
           newcomer newcomer "10.0.0.1" "8108" "8108").
  - reflexivity.
  - reflexivity.
  - reflexivity.
  - reflexivity.
  - exact with_newcomer_valid.
Defined.

(** X13, witness: C made LeaderElect on the roster {A, B, C}. *)
Lemma elect_and_prev_mutators_keep_roles_unique_witness :
  exists s', setLeaderElect three_roles 2%nat = Some s' /\ roles_unique s'.
Proof.
  destruct (setLeaderElect three_roles 2%nat) as [s'|] eqn:E;
    [|vm_compute in E; discriminate E].
  exists s'. split; [reflexivity|].
  apply (elect_and_prev_mutators_keep_roles_unique three_roles s' 2%nat "C").
  - exact roster_valid_three_roles.
  - exact three_roles_unique.
  - left. exact E.
Defined.

(** X14, witness: C made Leader by node ID on the same roster. *)
Lemma leader_mutators_keep_leader_and_elect_unique_witness :
  exists s', SetLeaderPeerByID three_roles "C" = Some s' /\
             at_most_one (heap s') (federateServers s') NodeLeader /\
             at_most_one (heap s') (federateServers s') NodeLeaderElect.
Proof.
  destruct (SetLeaderPeerByID three_roles "C") as [s'|] eqn:E;
    [|vm_compute in E; discriminate E].
  exists s'. split; [reflexivity|].
  apply (leader_mutators_keep_leader_and_elect_unique three_roles s' 2%nat "C").
  - exact roster_valid_three_roles.
  - exact three_roles_unique.
  - right. exact E.
Defined.

(** X15, witness: the pointer of C, and a node ID that nobody has. *)
Lemma getters_read_back_setters_witness :
  (exists s', SetLeaderPeer three_roles 2%nat = Some s' /\
              GetLeaderPeer s' = Some (Some 2%nat)) /\
  (exists s', setLeaderElect three_roles 2%nat = Some s' /\
              GetLeaderElect s' = Some (Some 2%nat)) /\
  (exists s', SetPrevLeaderPeer three_roles 2%nat = Some s' /\
              GetPrevLeaderPeer s' = Some (Some 2%nat)) /\
  (exists s' found, GetPeerByID three_roles "Z" = Some found /\
     SetLeaderPeerByID three_roles "Z" = Some s' /\ GetLeaderPeer s' = Some found) /\
  (exists s' found, GetPeerByID three_roles "Z" = Some found /\
     setLeaderElectByID three_roles "Z" = Some s' /\ GetLeaderElect s' = Some found) /\
  (exists s' found, GetPeerByID three_roles "Z" = Some found /\
     SetPrevLeaderByID three_roles "Z" = Some s' /\ GetPrevLeaderPeer s' = Some found).
Proof.
  apply (getters_read_back_setters three_roles 2%nat (fed 2%nat 300 0) "Z").
  - exact roster_valid_three_roles.
  - exact three_roles_unique.
  - cbn. rewrite !elem_of_cons. auto.
  - reflexivity.
Defined.

(** X16, witness: B announces itself for height 4. *)
Lemma sendCurrentLeaderMsg_installs_leader_witness :
  exists s' i me,
    GetMyFederateServer elect_view = Some (Some i) /\
    federateServers elect_view !! i = Some me /\
    sendCurrentLeaderMsg X0 elect_view "A" "B" "B" 4 = Some s' /\
    my_state s' = Some NodeLeader /\
    myLeaderPolicy s' = Some (mkLeaderPolicy (Peer me) 4 defaultLeaderTerm
                                              defaultNotifyDBHeight false false) /\
    trace s' = trace elect_view
               ++ EvBroadcast (CurrentLeaderMsg "A" "B" "B" 4
                                 (Sign X0 ("A" +:+ "B" +:+ "B" +:+ Itoa X0 4)))
               :: (if leaderCrashed elect_view then [EvResetLeaderState] else []) /\
    federateServers s' = federateServers elect_view /\
    leaderCrashed s' = leaderCrashed elect_view /\
    (forall q, GetLeaderPeer elect_view = Some (Some q) -> q <> Peer me ->
               nodeState <$> heap s' !! q = Some NodeLeaderPrev) /\
    (forall x, x <> Peer me -> GetLeaderPeer elect_view <> Some (Some x) ->
               heap s' !! x = heap elect_view !! x).
Proof.
  apply (sendCurrentLeaderMsg_installs_leader X0 elect_view "A" "B" "B" 4 NodeLeaderElect).
  - exact elect_view_valid.
  - reflexivity.
Defined.

(** X17, witness: B, the LeaderElect, answers at height 3. *)
Lemma selectCurrentleader_elect_takes_over_witness :
  exists s' prevID,
    selectCurrentleader X0 elect_view 3 = Some s' /\
    match GetLeaderPeer elect_view with
    | Some (Some q) => nodeID <$> heap elect_view !! q = Some prevID
    | _ => prevID = EmptyString
    end /\
    my_state s' = Some NodeLeader /\
    StartDBHeight <$> myLeaderPolicy s' = Some (add32 3 1) /\
    trace s' = trace elect_view
               ++ EvBroadcast (CurrentLeaderMsg prevID "B" "B" (add32 3 1)
                    (Sign X0 (prevID +:+ "B" +:+ "B" +:+ Itoa X0 (add32 3 1))))
               :: (if leaderCrashed elect_view then [EvResetLeaderState] else []) /\
    federateServers s' = federateServers elect_view /\
    leaderCrashed s' = leaderCrashed elect_view.
Proof.
  apply (selectCurrentleader_elect_takes_over X0 elect_view 3).
  - exact elect_view_valid.
  - reflexivity.
Defined.

(** X18, witness: C, a follower, leaves the lead to B. *)
Lemma selectCurrentleader_defers_to_elect_witness :
  selectCurrentleader X0 follower_view 3 = Some follower_view.
Proof.
  apply (selectCurrentleader_defers_to_elect X0 follower_view 3 NodeFollower 1%nat).
  - exact follower_view_valid.
  - reflexivity.
  - discriminate.
  - discriminate.
  - reflexivity.
Defined.

(** X19, witness: B takes office at height 3, one below its start height. *)
Lemma handleNextLeader_elect_takes_office_witness :
  exists s' leaderID,
    handleNextLeader X0 elect_view 3 = Some s' /\
    leader_id_or_empty elect_view = Some leaderID /\
    my_state s' = Some NodeLeader /\
    StartDBHeight <$> myLeaderPolicy s' = Some (add32 3 1) /\
    trace s' = trace elect_view
               ++ EvBroadcast (CurrentLeaderMsg leaderID "B" "B" (add32 3 1)
                    (Sign X0 (leaderID +:+ "B" +:+ "B" +:+ Itoa X0 (add32 3 1))))
               :: (if leaderCrashed elect_view then [EvResetLeaderState] else []) /\
    (forall q, GetLeaderPeer elect_view = Some (Some q) ->
       exists j fj, GetFederateServerByID elect_view leaderID = Some (Some j) /\
                    federateServers s' !! j = Some fj /\ LeaderLast fj = 3).
Proof.
  apply (handleNextLeader_elect_takes_office X0 elect_view 3 elect_policy).
  - exact elect_view_valid.
  - reflexivity.
  - reflexivity.
  - reflexivity.
  - reflexivity.
  - vm_compute. discriminate.
Defined.

(** X20, witness: A, the Leader, is lost; B takes over at height 11. *)
Lemma leader_crash_promotes_elect_witness :
  exists r l1 fp l2 pre,
    handleDonePeerMsg X0 10 elect_view no_peers 0%nat = Some r /\
    federateServers elect_view = l1 ++ fp :: l2 /\ Peer fp = 0%nat /\
    federateServers (d_server r) = l1 ++ l2 /\
    leaderCrashed (d_server r) = true /\
    my_state (d_server r) = Some NodeLeader /\
    (pre = [] \/ exists l, pre = [EvNewOutbound l]) /\
    trace (d_server r)
    = (trace elect_view ++ pre)
      ++ [EvBroadcast
            (CurrentLeaderMsg EmptyString "B" "B" (add32 (wrap 32 10) 1)
               (Sign X0 (EmptyString +:+ "B" +:+ "B"
                         +:+ Itoa X0 (add32 (wrap 32 10) 1))));
          EvResetLeaderState].
Proof.
  apply (leader_crash_promotes_elect X0 10 elect_view no_peers 0%nat
           (fed_peer "A" NodeLeader)).
  - exact elect_view_valid.
  - solve_ids_distinct.
  - solve_at_most_one.
  - reflexivity.
  - reflexivity.
  - reflexivity.
  - discriminate.
  - reflexivity.
  - exists (fed 0%nat 100 1). split; [left|reflexivity].
Defined.

(** X21, witness: the newcomer comes and goes. *)
Lemma add_then_done_restores_maps_witness :
  exists s1 r,
    handleAddPeerMsg X0 1000 with_newcomer no_peers (Some 7%nat)
    = Some (true, s1, admitted X0 no_peers 7%nat newcomer "10.0.0.1") /\
    handleDonePeerMsg X0 10 s1 (admitted X0 no_peers 7%nat newcomer "10.0.0.1") 7%nat
    = Some r /\
    d_nil_stored r = false /\
    peers (d_state r) = peers no_peers /\
    outboundPeers (d_state r) = outboundPeers no_peers /\
    persistentPeers (d_state r) = persistentPeers no_peers /\
    (forall key, default 0 (outboundGroups (d_state r) !! key)
                 = default 0 (outboundGroups no_peers !! key)) /\
    federateServers (d_server r) = federateServers with_newcomer.
Proof.
  apply (add_then_done_restores_maps X0 1000 10 with_newcomer no_peers 7%nat newcomer
           "10.0.0.1" "8108").
  - reflexivity.
  - exact with_newcomer_valid.
  - reflexivity.
  - exact newcomer_welcome.
  - reflexivity.
  - apply not_elem_of_empty.
  - apply not_elem_of_empty.
Defined.

(* ----- Block heights, start-up and the disconnect query --------------- *)

(** A node configured as the first leader, started at clock reading 100
    over a chain of height 7; one configured as a plain server; and one
    that is no server node. *)
Definition first_leader : app_config := mkAppConfig "A" "SERVER" true.



(** Four connections: one inbound from A, outbound ones to B (twice) and
    to C. *)
Definition link (host : string) (inb : bool) : peer :=
  mkPeer (host +:+ ":8108") EmptyString "SERVER" NodeCandidate inb false
         (mkNetAddress host 8108) 0.

Definition linked : server :=
  mkServer
    (<[0%nat := link "a.example" true]>
       (<[1%nat := link "b.example" false]>
          (<[2%nat := link "b.example" false]>
             (<[3%nat := link "c.example" false]> ∅))))
    "N" "SERVER" 0 [] None false 0 [].

Definition four_links : peerState :=
  mkPeerState {[0%nat]} ({[1%nat]} ∪ {[2%nat]} ∪ {[3%nat]}) ∅ ∅
              {[ "b.example" := 2; "c.example" := 1 ]} defaultMaxOutbound.

(** [msg.cmp] of [DisconnectNodeByAddr]: [p.addr == addr]. *)
Definition to_b (p : peer) : bool := String.eqb (addr p) "b.example:8108".

(** X27, witness: a Follower, and a LeaderElect whose start height 4 lies
    below the heights that come. *)
Lemma unexpected_heights_change_nothing_witness :
  nextLeaderHandler X0 [1; 2; 3] follower_view = Some follower_view /\
  nextLeaderHandler X0 [5; 6] elect_view = Some elect_view.
Proof.
  split.
  - apply (proj1 (unexpected_heights_change_nothing X0 follower_view [1; 2; 3])
             NodeFollower); [reflexivity|discriminate|discriminate].
  - apply (proj2 (proj2 (unexpected_heights_change_nothing X0 elect_view [5; 6]))
             elect_policy); [reflexivity|reflexivity|reflexivity|].
    repeat constructor.
Defined.

(** X28, witness: the first leader, alone, sees the heights 8, 9 and 10. *)
Lemma single_server_slides_its_policy_witness :
  nextLeaderHandler X0 ([8; 9] ++ [10]) (newServer_roster X0 first_leader 100 7)
  = Some (mkServer (heap (newServer_roster X0 first_leader 100 7)) "A" "SERVER" 0
            (federateServers (newServer_roster X0 first_leader 100 7))
            (Some (mkLeaderPolicy 0%nat 11 defaultLeaderTerm defaultNotifyDBHeight
                                  false false))
            false 0 []).
Proof.
  apply (single_server_slides_its_policy X0 (newServer_roster X0 first_leader 100 7)
           [8; 9] 10
           (mkLeaderPolicy 0%nat 9 defaultLeaderTerm defaultNotifyDBHeight false false)
           NodeLeader).
  - reflexivity.
  - now left.
  - reflexivity.
  - reflexivity.
Defined.


(** X30, witness: disconnecting b.example, with the map ranged over in
    the order of [elements]. *)
Lemma disconnectNode_drops_every_outbound_target_witness :
  exists st' gone,
    handleQuery_disconnectNode X0 elements (size (outboundPeers four_links))
      linked four_links to_b
    = Done (if bool_decide (gone = []) then ReplyError "peer not found" else ReplyNil,
            st', gone) /\
    peers st' = peers four_links /\
    persistentPeers st' = persistentPeers four_links /\
    (forall x, x ∈ outboundPeers st' <->
               x ∈ outboundPeers four_links /\ targeted (heap linked) to_b x = false) /\
    (forall x, x ∈ gone <->
               x ∈ outboundPeers four_links /\ targeted (heap linked) to_b x = true) /\
    NoDup gone /\
    (forall key, default 0 (outboundGroups st' !! key)
                 = default 0 (outboundGroups four_links !! key)
                   - in_group X0 (heap linked) key gone).
Proof.
  apply (disconnectNode_drops_every_outbound_target X0 elements linked four_links to_b).
  - intros S x. apply elem_of_elements.
  - intros p Hp. unfold four_links in Hp. cbn [peers] in Hp.
    apply elem_of_singleton in Hp as ->. eexists. reflexivity.
  - intros p Hp. unfold four_links in Hp. cbn [outboundPeers] in Hp.
    rewrite !elem_of_union, !elem_of_singleton in Hp.
    destruct Hp as [[-> | ->] | ->]; eexists; reflexivity.
  - intros p Hp. unfold four_links in Hp. cbn [peers] in Hp.
    apply elem_of_singleton in Hp as ->. reflexivity.
Defined.

End Scenario.

(* ===================================================================== *)
(** * Package [main]: the RESTful admin handler *)
(* ===================================================================== *)

Module Rest.
Import Mach.

(** The error kinds of the handler. Their declarations, [restError] and
    [createError] are in a file that is not among the sources; the kinds
    are those the code names. *)
Inductive error_kind : Type :=
| errorBadMethod
| errorUnsupportedMarshal
| errorUnsupportedUnmarshal
| errorJSONMarshal
| errorJSONUnmarshal
| errorXMLMarshal
| errorXMLUnmarshal
| errorInternal
| errorNotFound.

(** The message of an error: which format string of the code it comes
    from, and what was put into it. *)
Inductive message : Type :=
| PostOnlyAtRoot
| MethodNotSupported (method : string)
| PostNotSupportedOnType (type_name : string)
| FormatNotSupported (format : string)
| EntityNil
| AddingFailed (cause : string)
| MarshalFormatUnsupported (accept : string)
| FromLibrary (text : string).

Record restError : Type := mkRestError {
  ErrorCode : error_kind;
  HTTPCode : Z;
  Message : message
}.

(** [ncdata.PlainEntry] and [ncdata.Block], by the data model of the
    specification (package [NotaryChain/data] is not among the sources). *)
Record Entry : Type := mkEntry {
  EntryType : Z;
  StructuredData : list byte;
  Signatures : list (list byte);
  TimeStamp : Z               (* int64 *)
}.

Record Block : Type := mkBlock {
  BlockID : Z;                (* uint64 *)
  PreviousHash : option (list byte);
  Entries : list Entry;
  Salt : list byte
}.

(** The [interface{}] values the handler passes around. *)
Inductive resource : Type :=
| RNil
| REntry (e : Entry)
| RBlock (b : Block)
| RBlocks (l : list Block)
| RError (e : restError).

(** What [parse(r)] hands back (its error is overwritten on every path). *)
Record request : Type := mkRequest {
  path : list string;
  method : string;
  accept : string;
  form : string -> string     (* form.Get *)
}.

(** What the deferred function writes: the [Content-Type] header if any,
    the status passed to [WriteHeader] if it is called, and the body. *)
Record response : Type := mkResponse {
  content_type : option string;
  status : option Z;
  body : string
}.

(** The Go library and the files of the repository that are not at hand. *)
Record collaborators : Type := mkCollaborators {
  json_unmarshal : string -> Entry + string;   (* json.Unmarshal: entry, or err.Error() *)
  xml_unmarshal : string -> Entry + string;    (* xml.Unmarshal *)
  json_marshal : resource -> string + string;  (* json.Marshal *)
  json_marshal_indent : resource -> string + string;
  xml_marshal : resource -> string + string;
  html_page : string -> string;                (* the script around the JSON *)
  find : list string -> list Block -> resource * option restError;
  http_code : error_kind -> Z;                 (* the status createError attaches *)
  type_name : resource -> string;              (* reflect: resourceType.String() *)
  AddEntry_refusal : Block -> Entry -> option string
}.

Definition newline2 : string :=
  String (Ascii.ascii_of_nat 10) (String (Ascii.ascii_of_nat 10) EmptyString).

Definition with_TimeStamp (e : Entry) (t : Z) : Entry :=
  mkEntry (EntryType e) (StructuredData e) (Signatures e) t.

Definition with_Entries (b : Block) (l : list Entry) : Block :=
  mkBlock (BlockID b) (PreviousHash b) l (Salt b).

Section Handler.
Variable C : collaborators.

Definition createError (k : error_kind) (m : message) : restError :=
  mkRestError k (http_code C k) m.

(** Modelled from the spec: [Block.AddEntry] belongs to package
    [NotaryChain/data], which is not among the sources. By the
    specification the entry "is appended only to the tip block" and the
    block may fail with an internal error; when it does is not said, so
    the refusal is a parameter, and a refusing block is left as it was. *)
Definition AddEntry (b : Block) (e : Entry) : Block + string :=
  match AddEntry_refusal C b e with
  | Some cause => inr cause
  | None => inl (with_Entries b (Entries b ++ [e]))
  end.

(** [post]. The first component is the posted-to resource after the call
    (the block is reached through a pointer); [now] is [time.Now().Unix()].
    The test [newEntry == nil] never fires on the result of [new]. *)
Definition post (now : Z) (context : string) (res : resource) (form : string -> string)
    : resource * (resource * option restError) :=
  match res with
  | RBlock b =>
      let format := form "format" in
      let data := form "data" in
      let parsed : Entry + restError :=
        if bool_decide (format = EmptyString) || bool_decide (format = "json") then
          match json_unmarshal C data with
          | inl e => inl e
          | inr err => inr (createError errorJSONUnmarshal (FromLibrary err))
          end
        else if bool_decide (format = "xml") then
          match xml_unmarshal C data with
          | inl e => inl e
          | inr err => inr (createError errorXMLUnmarshal (FromLibrary err))
          end
        else inr (createError errorUnsupportedUnmarshal (FormatNotSupported format)) in
      match parsed with
      | inr err => (res, (RNil, Some err))
      | inl newEntry =>
          let newEntry := with_TimeStamp newEntry now in
          match AddEntry b newEntry with
          | inr cause => (res, (RNil, Some (createError errorInternal (AddingFailed cause))))
          | inl b' => (RBlock b', (REntry newEntry, None))
          end
      end
  | _ => (res, (RNil, Some (createError errorBadMethod
                              (PostNotSupportedOnType (type_name C res)))))
  end.

(** [json.Marshal(r)] of the error just built; failure is [panic(err)]. *)
Definition fallback (enc : resource -> string + string) (r : restError)
    : option (string * option restError) :=
  match enc (RError r) with
  | inl data => Some (data, Some r)
  | inr _ => None
  end.

Definition marshal_with (enc : resource -> string + string) (k : error_kind)
    (res : resource) : option (string * option restError) :=
  match enc res with
  | inl data => Some (data, None)
  | inr err => fallback enc (createError k (FromLibrary err))
  end.

(** [marshal]; [None] is a panic. *)
Definition marshal (res : resource) (accept : string) : option (string * option restError) :=
  if bool_decide (accept = "text") then
    marshal_with (json_marshal_indent C) errorJSONMarshal res
  else if bool_decide (accept = "json") then
    marshal_with (json_marshal C) errorJSONMarshal res
  else if bool_decide (accept = "xml") then
    marshal_with (xml_marshal C) errorXMLMarshal res
  else if bool_decide (accept = "html") then
    match marshal_with (json_marshal C) errorJSONMarshal res with
    | Some (data, None) => Some (html_page C data, None)
    | Some (_, Some r) => Some (EmptyString, Some r)
    | None => None
    end
  else
    fallback (json_marshal C)
             (createError errorUnsupportedMarshal (MarshalFormatUnsupported accept)).

Definition content_type_of (accept : string) : option string :=
  if bool_decide (accept = "text") then Some "text/plain; charset=utf-8"
  else if bool_decide (accept = "json") then Some "application/json; charset=utf-8"
  else if bool_decide (accept = "xml") then Some "application/xml; charset=utf-8"
  else if bool_decide (accept = "html") then Some "text/html; charset=utf-8"
  else None.

(** The deferred function, on the [data] and [err] the handler leaves. *)
Definition respond (accept : string) (data : string) (err : option restError)
    : option response :=
  match err with
  | None => Some (mkResponse (content_type_of accept) None (data +:+ newline2))
  | Some e =>
      match marshal (RError e) accept with
      | None => None
      | Some (data, r) =>
          let e := match r with Some r => r | None => e end in
          Some (mkResponse (content_type_of accept) (Some (HTTPCode e))
                           (data +:+ newline2))
      end
  end.

(** [blocks[len(blocks) - 1]]. *)
Definition tip (blocks : list Block) : option Block := last blocks.

Definition set_tip (blocks : list Block) (res : resource) : list Block :=
  match res with
  | RBlock b => <[pred (length blocks) := b]> blocks
  | _ => blocks
  end.

(** [serveRESTfulHTTP] after [parse]: the blocks afterwards and what is
    written to the client; [None] is a panic. The last statement,
    [data, err = marshal(resource, accept)], runs after [find] and after
    [post] whatever error they returned. *)
Definition serveRESTfulHTTP (now : Z) (blocks : list Block) (r : request)
    : option (list Block * response) :=
  if bool_decide (method r = "GET") then
    let '(res, err) := find C (path r) blocks in
    match marshal res (accept r) with
    | None => None
    | Some (data, err) => pair blocks <$> respond (accept r) data err
    end
  else if bool_decide (method r = "POST") then
    if negb (length (path r) =? 1)%nat then
      pair blocks <$>
        respond (accept r) EmptyString (Some (createError errorBadMethod PostOnlyAtRoot))
    else
      match tip blocks with
      | None => None
      | Some b =>
          let '(after, (res, err)) :=
            post now (String.concat "/" (EmptyString :: path r)) (RBlock b) (form r) in
          match marshal res (accept r) with
          | None => None
          | Some (data, err) => pair (set_tip blocks after) <$> respond (accept r) data err
          end
      end
  else
    pair blocks <$>
      respond (accept r) EmptyString
              (Some (createError errorBadMethod (MethodNotSupported (method r)))).

(* ===================================================================== *)
(** ** Properties: POST *)
(* ===================================================================== *)

Definition supported_format (format : string) : Prop :=
  format = EmptyString \/ format = "json" \/ format = "xml".

Definition unmarshal_by (format : string) : string -> Entry + string :=
  if bool_decide (format = "xml") then xml_unmarshal C else json_unmarshal C.

Definition unmarshal_error_kind (format : string) : error_kind :=
  if bool_decide (format = "xml") then errorXMLUnmarshal else errorJSONUnmarshal.

Lemma serve_post_root (now : Z) (blocks : list Block) (b : Block) (r : request) :
  method r = "POST" ->
  length (path r) = 1%nat ->
  tip blocks = Some b ->
  serveRESTfulHTTP now blocks r =
    let '(after, (res, err)) :=
      post now (String.concat "/" (EmptyString :: path r)) (RBlock b) (form r) in
    match marshal res (accept r) with
    | None => None
    | Some (data, err) => pair (set_tip blocks after) <$> respond (accept r) data err
    end.
Proof.
  intros Hm Hp Ht. unfold serveRESTfulHTTP. rewrite Hm, Hp, Ht.
  rewrite bool_decide_eq_false_2 by discriminate.
  rewrite bool_decide_eq_true_2 by reflexivity.
  reflexivity.
Qed.

Lemma set_tip_same blocks b : tip blocks = Some b -> set_tip blocks (RBlock b) = blocks.
Proof.
  unfold tip, set_tip. rewrite last_lookup. intros H. now apply list_insert_id.
Qed.

(** What [post] itself returns on a block: an entry that parses is stamped,
    appended once and returned; an unknown format and a parse failure
    return their structured errors and leave the block as it was. *)
Lemma post_on_block (now : Z) (context : string) (b : Block) (form : string -> string) :
  (forall e, supported_format (form "format") ->
     unmarshal_by (form "format") (form "data") = inl e ->
     AddEntry_refusal C b (with_TimeStamp e now) = None ->
     post now context (RBlock b) form =
       (RBlock (with_Entries b (Entries b ++ [with_TimeStamp e now])),
        (REntry (with_TimeStamp e now), None))) /\
  (~ supported_format (form "format") ->
     post now context (RBlock b) form =
       (RBlock b, (RNil, Some (createError errorUnsupportedUnmarshal
                                 (FormatNotSupported (form "format")))))) /\
  (forall err, supported_format (form "format") ->
     unmarshal_by (form "format") (form "data") = inr err ->
     post now context (RBlock b) form =
       (RBlock b, (RNil, Some (createError (unmarshal_error_kind (form "format"))
                                 (FromLibrary err))))).
Proof.
  unfold supported_format, unmarshal_by, unmarshal_error_kind, post, AddEntry.
  split; [|split].
  - intros e [Hf|[Hf|Hf]] Hparse Hadd; rewrite Hf in *;
      repeat first [ rewrite bool_decide_eq_true_2 in * by reflexivity
                   | rewrite bool_decide_eq_false_2 in * by discriminate ];
      cbn; rewrite Hparse, Hadd; reflexivity.
  - intros Hf.
    rewrite !bool_decide_eq_false_2 by tauto. reflexivity.
  - intros err [Hf|[Hf|Hf]] Hparse; rewrite Hf in *;
      repeat first [ rewrite bool_decide_eq_true_2 in * by reflexivity
                   | rewrite bool_decide_eq_false_2 in * by discriminate ];
      cbn; rewrite Hparse; reflexivity.
Qed.

(** C9: a POST at the version root with a format other than the empty
    one, [json] and [xml]. [post] builds the [errorUnsupportedUnmarshal]
    error and no block changes; the handler then runs
    [data, err = marshal(resource, accept)] on the nil resource, which
    replaces that error: what the client receives is the marshalled nil,
    and when that marshals without error no status is written at all. *)
Theorem handler_drops_post_error (now : Z) (blocks : list Block) (b : Block) (r : request) :
  method r = "POST" ->
  length (path r) = 1%nat ->
  tip blocks = Some b ->
  ~ supported_format (form r "format") ->
  post now (String.concat "/" (EmptyString :: path r)) (RBlock b) (form r) =
    (RBlock b, (RNil, Some (createError errorUnsupportedUnmarshal
                              (FormatNotSupported (form r "format"))))) /\
  serveRESTfulHTTP now blocks r =
    match marshal RNil (accept r) with
    | None => None
    | Some (data, err) => pair blocks <$> respond (accept r) data err
    end /\
  (forall data, marshal RNil (accept r) = Some (data, None) ->
     serveRESTfulHTTP now blocks r =
       Some (blocks, mkResponse (content_type_of (accept r)) None (data +:+ newline2))).
Proof.
  intros Hm Hp Ht Hf.
  destruct (post_on_block now (String.concat "/" (EmptyString :: path r)) b (form r))
    as (_ & Hpost & _).
  specialize (Hpost Hf).
  assert (Hserve : serveRESTfulHTTP now blocks r =
                   match marshal RNil (accept r) with
                   | None => None
                   | Some (data, err) => pair blocks <$> respond (accept r) data err
                   end).
  { rewrite (serve_post_root now blocks b r Hm Hp Ht), Hpost.
    rewrite (set_tip_same _ _ Ht). reflexivity. }
  split; [exact Hpost|]. split; [exact Hserve|].
  intros data Hdata. rewrite Hserve, Hdata. reflexivity.
Qed.

(** The same fate for the error of a parse failure. *)
Lemma handler_drops_unmarshal_error (now : Z) (blocks : list Block) (b : Block)
    (r : request) (err : string) :
  method r = "POST" ->
  length (path r) = 1%nat ->
  tip blocks = Some b ->
  supported_format (form r "format") ->
  unmarshal_by (form r "format") (form r "data") = inr err ->
  serveRESTfulHTTP now blocks r =
    match marshal RNil (accept r) with
    | None => None
    | Some (data, err) => pair blocks <$> respond (accept r) data err
    end.
Proof.
  intros Hm Hp Ht Hf Hparse.
  destruct (post_on_block now (String.concat "/" (EmptyString :: path r)) b (form r))
    as (_ & _ & Hpost).
  specialize (Hpost err Hf Hparse).
  rewrite (serve_post_root now blocks b r Hm Hp Ht), Hpost.
  rewrite (set_tip_same _ _ Ht). reflexivity.
Qed.

(** X26: a POST whose entry parses is answered in full. For a POST at the
    version root in a supported format, when the entry [e] parses, the tip
    block [b] accepts it and the entry marshals, the last block becomes [b]
    with one entry more at the end, which is [e] with [TimeStamp] set to
    the time of the call; no other block changes, and the client receives
    the marshalled entry with no error status. ([Block.AddEntry] is
    modelled from the specification: an accepted entry is appended.) *)
Lemma handler_appends_to_tip (now : Z) (blocks : list Block) (b : Block)
    (r : request) (e : Entry) (data : string) :
  method r = "POST" ->
  length (path r) = 1%nat ->
  tip blocks = Some b ->
  supported_format (form r "format") ->
  unmarshal_by (form r "format") (form r "data") = inl e ->
  AddEntry_refusal C b (mkEntry (EntryType e) (StructuredData e) (Signatures e) now)
  = None ->
  marshal (REntry (mkEntry (EntryType e) (StructuredData e) (Signatures e) now))
          (accept r)
  = Some (data, None) ->
  serveRESTfulHTTP now blocks r =
    Some (<[pred (length blocks) :=
              mkBlock (BlockID b) (PreviousHash b)
                      (Entries b
                       ++ [mkEntry (EntryType e) (StructuredData e) (Signatures e) now])
                      (Salt b)]> blocks,
          mkResponse (content_type_of (accept r)) None (data +:+ newline2)).
Proof.
  intros Hm Hp Ht Hf Hparse Hadd Hdata.
  change (mkEntry (EntryType e) (StructuredData e) (Signatures e) now)
    with (with_TimeStamp e now) in *.
  destruct (post_on_block now (String.concat "/" (EmptyString :: path r)) b (form r))
    as (Hpost & _ & _).
  specialize (Hpost e Hf Hparse Hadd).
  rewrite (serve_post_root now blocks b r Hm Hp Ht), Hpost, Hdata. reflexivity.
Qed.

(* ===================================================================== *)
(** ** Properties: what the handler can do to the blocks *)
(* ===================================================================== *)

(** What [load] checks before the server starts: every block sits at the
    index its [BlockID] names. *)
Definition indexed (blocks : list Block) : Prop :=
  forall i b, blocks !! i = Some b -> BlockID b = Z.of_nat i.

Lemma post_after (now : Z) (context : string) (b : Block) (form : string -> string)
    (after res : resource) (err : option restError) :
  post now context (RBlock b) form = (after, (res, err)) ->
  (after = RBlock b /\ res = RNil /\ err <> None) \/
  (exists e, (json_unmarshal C (form "data") = inl e \/
              xml_unmarshal C (form "data") = inl e) /\
             after = RBlock (with_Entries b (Entries b ++ [with_TimeStamp e now])) /\
             res = REntry (with_TimeStamp e now) /\ err = None).
Proof.
  unfold post, AddEntry.
  destruct (if bool_decide (form "format" = EmptyString) || bool_decide (form "format" = "json")
            then _ else _) as [e|e0] eqn:Hparsed.
  - assert (Hfrom : json_unmarshal C (form "data") = inl e \/
                    xml_unmarshal C (form "data") = inl e).
    { destruct (bool_decide (form "format" = EmptyString) || bool_decide (form "format" = "json")).
      - left. destruct (json_unmarshal C (form "data")); [congruence|discriminate].
      - destruct (bool_decide (form "format" = "xml")); [|discriminate].
        right. destruct (xml_unmarshal C (form "data")); [congruence|discriminate]. }
    destruct (AddEntry_refusal C b (with_TimeStamp e now)).
    + intros [= <- <- <-]. left. repeat split. discriminate.
    + intros [= <- <- <-]. right. eauto.
  - intros [= <- <- <-]. left. repeat split. discriminate.
Qed.

Lemma respond_keeps (blocks blocks' : list Block) (accept data : string)
    (err : option restError) (resp : response) :
  pair blocks <$> respond accept data err = Some (blocks', resp) -> blocks' = blocks.
Proof.
  destruct (respond accept data err); cbn; [|discriminate]. now intros [= <- _].
Qed.

(** X22: the handler only ever appends to the tip. Let the tip block
    refuse no entry (what [Block.AddEntry] leaves of a block when it fails
    is not in the sources). Then, whatever the request, when
    [serveRESTfulHTTP] returns, the list of blocks has the length it had,
    every block but the last is untouched, and the last block [b] is either
    untouched or, on a POST only, is [b] with one entry more at the end:
    the entry read from the form field [data], with [TimeStamp] set to the
    time of the call. Block IDs are never changed, so the blocks stay
    indexed by their IDs as [load] requires. *)
Theorem handler_only_appends_to_tip (now : Z) (blocks blocks' : list Block)
    (r : request) (resp : response) :
  serveRESTfulHTTP now blocks r = Some (blocks', resp) ->
  (forall b e, tip blocks = Some b -> AddEntry_refusal C b e = None) ->
  length blocks' = length blocks /\
  (forall i, (S i < length blocks)%nat -> blocks' !! i = blocks !! i) /\
  (blocks' = blocks \/
   method r = "POST" /\
   exists b e,
     tip blocks = Some b /\
     (json_unmarshal C (form r "data") = inl e \/
      xml_unmarshal C (form r "data") = inl e) /\
     tip blocks'
     = Some (mkBlock (BlockID b) (PreviousHash b)
                     (Entries b
                      ++ [mkEntry (EntryType e) (StructuredData e) (Signatures e) now])
                     (Salt b))) /\
  (indexed blocks -> indexed blocks').
Proof.
  assert (Hsame : forall (l : list Block) (Q : Prop),
            length l = length l /\
            (forall i, (S i < length l)%nat -> l !! i = l !! i) /\
            (l = l \/ Q) /\
            (indexed l -> indexed l)).
  { intros l Q. repeat split; auto. }
  unfold serveRESTfulHTTP.
  destruct (bool_decide (method r = "GET")).
  { destruct (find C (path r) blocks) as [res err].
    destruct (marshal res (accept r)) as [[data err']|]; [|discriminate].
    intros H _. apply respond_keeps in H as ->. apply Hsame. }
  destruct (bool_decide_reflect (method r = "POST")) as [Hpost|_].
  2:{ intros H _. apply respond_keeps in H as ->. apply Hsame. }
  destruct (negb (length (path r) =? 1)%nat).
  { intros H _. apply respond_keeps in H as ->. apply Hsame. }
  destruct (tip blocks) as [b|] eqn:Htip; [|discriminate].
  destruct (post now _ (RBlock b) (form r)) as [after [res err]] eqn:Epost.
  destruct (marshal res (accept r)) as [[data err']|]; [|discriminate].
  intros H Haccepts. apply respond_keeps in H as ->.
  destruct (post_after _ _ _ _ _ _ _ Epost) as [(-> & _)|(e & Hparsed & -> & _)].
  - rewrite (set_tip_same _ _ Htip). apply Hsame.
  - unfold set_tip. unfold tip in Htip. rewrite last_lookup in Htip.
    assert (Hlt : (pred (length blocks) < length blocks)%nat)
      by (eapply lookup_lt_Some; eauto).
    split; [apply length_insert|]. split; [|split].
    + intros i Hi. apply list_lookup_insert_ne. lia.
    + right. split; [exact Hpost|].
      exists b, e. split; [reflexivity|]. split; [exact Hparsed|].
      unfold tip. rewrite last_lookup, length_insert.
      now apply list_lookup_insert_eq.
    + intros Hidx i bi Hbi.
      destruct (decide (i = pred (length blocks))) as [->|Hne].
      * rewrite list_lookup_insert_eq in Hbi by exact Hlt. injection Hbi as <-.
        cbn. now apply Hidx.
      * rewrite list_lookup_insert_ne in Hbi by congruence. now apply Hidx.
Qed.

(* ===================================================================== *)
(** ** Properties: what the client is told *)
(* ===================================================================== *)

Definition supported_accept (accept : string) : Prop :=
  accept = "text" \/ accept = "json" \/ accept = "xml" \/ accept = "html".

(** The error that [marshal] builds for an [accept] it does not know. *)
Definition unsupported_marshal (accept : string) : restError :=
  createError errorUnsupportedMarshal (MarshalFormatUnsupported accept).

Lemma marshal_unsupported (res : resource) (accept : string) :
  ~ supported_accept accept ->
  marshal res accept = fallback (json_marshal C) (unsupported_marshal accept) /\
  content_type_of accept = None.
Proof.
  intros H. unfold marshal, content_type_of, supported_accept in *.
  rewrite !bool_decide_eq_false_2 by tauto. split; reflexivity.
Qed.

Lemma respond_unsupported (accept data : string) (e : restError) (resp : response) :
  ~ supported_accept accept ->
  respond accept data (Some e) = Some resp ->
  exists text,
    json_marshal C (RError (unsupported_marshal accept)) = inl text /\
    resp = mkResponse None (Some (http_code C errorUnsupportedMarshal))
                      (text +:+ newline2).
Proof.
  intros Hacc. unfold respond.
  destruct (marshal_unsupported (RError e) accept Hacc) as [-> ->].
  unfold fallback.
  destruct (json_marshal C (RError (unsupported_marshal accept))) as [text|];
    [|discriminate].
  intros [= <-]. exists text. split; reflexivity.
Qed.

(** X23: an [accept] the handler does not know masks everything else. For
    an [accept] other than [text], [json], [xml] and [html], every request
    that is answered at all is answered the same way: no [Content-Type],
    the status of [errorUnsupportedMarshal], and the JSON of that error as
    body, whatever the method and the path, and whatever [find] or [post]
    returned. *)
Theorem unknown_accept_masks_the_answer (now : Z) (blocks blocks' : list Block)
    (r : request) (resp : response) :
  ~ supported_accept (accept r) ->
  serveRESTfulHTTP now blocks r = Some (blocks', resp) ->
  exists text,
    json_marshal C (RError (unsupported_marshal (accept r))) = inl text /\
    resp = mkResponse None (Some (http_code C errorUnsupportedMarshal))
                      (text +:+ newline2).
Proof.
  intros Hacc.
  assert (Hvia : forall (bl : list Block) (res : resource),
            match marshal res (accept r) with
            | None => None
            | Some (data, err) => pair bl <$> respond (accept r) data err
            end = Some (blocks', resp) ->
            exists text,
              json_marshal C (RError (unsupported_marshal (accept r))) = inl text /\
              resp = mkResponse None (Some (http_code C errorUnsupportedMarshal))
                                (text +:+ newline2)).
  { intros bl res. destruct (marshal_unsupported res (accept r) Hacc) as [-> _].
    unfold fallback.
    destruct (json_marshal C (RError (unsupported_marshal (accept r)))) as [text|] eqn:Hj;
      [|discriminate].
    destruct (respond (accept r) text (Some (unsupported_marshal (accept r))))
      as [resp0|] eqn:E; cbn; [|discriminate].
    intros [= _ <-]. eapply respond_unsupported in E as (text' & Ht & ->); eauto.
    exists text'. split; [congruence|reflexivity]. }
  assert (Hrej : forall e,
            pair blocks <$> respond (accept r) EmptyString (Some e) = Some (blocks', resp) ->
            exists text,
              json_marshal C (RError (unsupported_marshal (accept r))) = inl text /\
              resp = mkResponse None (Some (http_code C errorUnsupportedMarshal))
                                (text +:+ newline2)).
  { intros e. destruct (respond (accept r) EmptyString (Some e)) as [resp0|] eqn:E; cbn;
      [|discriminate].
    intros [= _ <-]. eapply respond_unsupported; eauto. }
  unfold serveRESTfulHTTP.
  destruct (bool_decide (method r = "GET")).
  { destruct (find C (path r) blocks) as [res err]. apply Hvia. }
  destruct (bool_decide (method r = "POST")); [|apply Hrej].
  destruct (negb (length (path r) =? 1)%nat); [apply Hrej|].
  destruct (tip blocks) as [b|]; [|discriminate].
  destruct (post now _ (RBlock b) (form r)) as [after [res err]]. apply Hvia.
Qed.


(** X25: a GET is answered by what [find] returned as resource; the error
    [find] returned with it is dropped. Whenever the resource marshals
    without error the client receives it with no error status, and no
    block changes. *)
Theorem handler_drops_find_error (now : Z) (blocks : list Block) (r : request)
    (res : resource) (err : option restError) (data : string) :
  method r = "GET" ->
  find C (path r) blocks = (res, err) ->
  marshal res (accept r) = Some (data, None) ->
  serveRESTfulHTTP now blocks r =
    Some (blocks, mkResponse (content_type_of (accept r)) None (data +:+ newline2)).
Proof.
  intros Hm Hfind Hdata. unfold serveRESTfulHTTP.
  rewrite bool_decide_eq_true_2 by exact Hm. rewrite Hfind, Hdata. reflexivity.
Qed.

End Handler.

(* ----- The handler at a concrete request ------------------------------- *)

Definition C0 : collaborators := {|
  json_unmarshal := fun _ => inr "unexpected end of JSON input";
  xml_unmarshal := fun _ => inr "EOF";
  json_marshal := fun res => match res with RNil => inl "null" | _ => inl "{}" end;
  json_marshal_indent := fun res => match res with RNil => inl "null" | _ => inl "{}" end;
  xml_marshal := fun _ => inl "<x/>";
  html_page := fun data => data;
  find := fun _ _ => (RNil, None);
  http_code := fun k => match k with
                        | errorBadMethod => 405
                        | errorNotFound => 404
                        | errorInternal | errorJSONMarshal | errorXMLMarshal
                        | errorUnsupportedMarshal => 500
                        | _ => 400
                        end;
  type_name := fun _ => "data.Block";
  AddEntry_refusal := fun _ _ => None
|}.

Definition block0 : Block := mkBlock 0 None [] [].
Definition block1 : Block := mkBlock 1 (Some []) [mkEntry 0 [] [] 0] [].

(** [POST /v1] with [format=yaml], answered as JSON. *)
Definition yaml_post : request :=
  mkRequest ["v1"] "POST" "json"
            (fun k => if bool_decide (k = "format") then "yaml" else "{}").

(** C9, witness (the failing input): [post] returns the
    [errorUnsupportedUnmarshal] error, and the client gets the body
    [null] with no error status. *)
Lemma handler_drops_post_error_witness :
  post C0 1700000000 "/v1" (RBlock block1) (form yaml_post) =
    (RBlock block1, (RNil, Some (mkRestError errorUnsupportedUnmarshal 400
                                   (FormatNotSupported "yaml")))) /\
  serveRESTfulHTTP C0 1700000000 [block0; block1] yaml_post =
    Some ([block0; block1],
          mkResponse (Some "application/json; charset=utf-8") None ("null" +:+ newline2)).
Proof.
  destruct (handler_drops_post_error C0 1700000000 [block0; block1] block1 yaml_post)
    as (Hpost & _ & Hserve).
  - reflexivity.
  - reflexivity.
  - reflexivity.
  - intros [H|[H|H]]; discriminate H.
  - split; [exact Hpost|]. exact (Hserve "null" eq_refl).
Defined.

(* ----- More requests ----------------------------------------------------- *)

(** Collaborators whose JSON reader accepts every text, and whose [find]
    reports every path as missing. *)
Definition C1 : collaborators := {|
  json_unmarshal := fun _ => inl (mkEntry 0 [Byte.x10; Byte.x11] [] 0);
  xml_unmarshal := fun _ => inr "EOF";
  json_marshal := fun res => match res with RNil => inl "null" | _ => inl "{}" end;
  json_marshal_indent := fun res => match res with RNil => inl "null" | _ => inl "{}" end;
  xml_marshal := fun _ => inl "<x/>";
  html_page := fun data => data;
  find := fun _ _ => (RNil, Some (mkRestError errorNotFound 404 (FromLibrary "no such block")));
  http_code := http_code C0;
  type_name := fun _ => "data.Block";
  AddEntry_refusal := fun _ _ => None
|}.

Definition json_form : string -> string :=
  fun k => if bool_decide (k = "format") then "json" else "{}".

Definition good_post : request := mkRequest ["v1"] "POST" "json" json_form.
Definition yaml_accept_post : request := mkRequest ["v1"] "POST" "yaml" json_form.
Definition get_missing : request := mkRequest ["v1"; "blocks"; "9"] "GET" "json" json_form.

Definition posted : Entry := mkEntry 0 [Byte.x10; Byte.x11] [] 1700000000.

(** X22, witness: a POST that parses, on two blocks. *)
Lemma handler_only_appends_to_tip_witness :
  exists blocks' resp,
    serveRESTfulHTTP C1 1700000000 [block0; block1] good_post = Some (blocks', resp) /\
    length blocks' = length [block0; block1] /\
    (forall i, (S i < length [block0; block1])%nat ->
               blocks' !! i = [block0; block1] !! i) /\
    (blocks' = [block0; block1] \/
     method good_post = "POST" /\
     exists b e,
       tip [block0; block1] = Some b /\
       (json_unmarshal C1 (form good_post "data") = inl e \/
        xml_unmarshal C1 (form good_post "data") = inl e) /\
       tip blocks'
       = Some (mkBlock (BlockID b) (PreviousHash b)
                       (Entries b
                        ++ [mkEntry (EntryType e) (StructuredData e) (Signatures e)
                                    1700000000])
                       (Salt b))) /\
    (indexed [block0; block1] -> indexed blocks').
Proof.
  destruct (serveRESTfulHTTP C1 1700000000 [block0; block1] good_post)
    as [[blocks' resp]|] eqn:E; [|vm_compute in E; discriminate E].
  exists blocks', resp. split; [reflexivity|].
  apply (handler_only_appends_to_tip C1 1700000000 [block0; block1] blocks' good_post
           resp E).
  intros b e _. reflexivity.
Defined.

(** X23, witness: the same POST with [accept = yaml]. The client is told
    that [yaml] cannot be marshalled; the entry has been appended all the
    same. *)
Lemma unknown_accept_masks_the_answer_witness :
  exists blocks' resp,
    serveRESTfulHTTP C1 1700000000 [block0; block1] yaml_accept_post
    = Some (blocks', resp) /\
    blocks' = [block0; with_Entries block1 (Entries block1 ++ [posted])] /\
    exists text,
      json_marshal C1 (RError (unsupported_marshal C1 (accept yaml_accept_post)))
      = inl text /\
      resp = mkResponse None (Some (http_code C1 errorUnsupportedMarshal))
                        (text +:+ newline2).
Proof.
  destruct (serveRESTfulHTTP C1 1700000000 [block0; block1] yaml_accept_post)
    as [[blocks' resp]|] eqn:E; [|vm_compute in E; discriminate E].
  exists blocks', resp. split; [reflexivity|]. split.
  - vm_compute in E. injection E as <- _. reflexivity.
  - apply (unknown_accept_masks_the_answer C1 1700000000 [block0; block1] blocks'
             yaml_accept_post resp); [|exact E].
    intros [H|[H|[H|H]]]; discriminate H.
Defined.


(** X25, witness: a GET of a block that [find] reports missing is
    answered with [null] and no error status. *)
Lemma handler_drops_find_error_witness :
  serveRESTfulHTTP C1 1700000000 [block0; block1] get_missing =
    Some ([block0; block1],
          mkResponse (content_type_of (accept get_missing)) None ("null" +:+ newline2)).
Proof.
  apply (handler_drops_find_error C1 1700000000 [block0; block1] get_missing RNil
           (Some (mkRestError errorNotFound 404 (FromLibrary "no such block"))) "null");
    reflexivity.
Defined.

(** X26, witness: the POST that parses, answered in full. *)
Lemma handler_appends_to_tip_witness :
  serveRESTfulHTTP C1 1700000000 [block0; block1] good_post =
    Some ([block0;
           mkBlock 1 (Some [])
                   [mkEntry 0 [] [] 0; mkEntry 0 [Byte.x10; Byte.x11] [] 1700000000] []],
          mkResponse (Some "application/json; charset=utf-8") None ("{}" +:+ newline2)).
Proof.
  apply (handler_appends_to_tip C1 1700000000 [block0; block1] block1 good_post
           (mkEntry 0 [Byte.x10; Byte.x11] [] 0) "{}").
  - reflexivity.
  - reflexivity.
  - reflexivity.
  - right. left. reflexivity.
  - reflexivity.
  - reflexivity.
  - reflexivity.
Defined.

End Rest.
